(** * A shallow embedding of sudokuSolver.cpp

    The 9x9 board [int board[9][9]] is a list of rows of [Z]; the domain
    store [vector<int> domains[9][9]] is a list of rows of [list Z]; cell
    positions [pair<int,int>] are pairs of [Z], with the sentinel [(-1,-1)].
    Functions that mutate their array arguments return the new array;
    recursive search routines and the AC-3 work loop take a fuel argument
    and return [None] only when the fuel runs out.  Text written to [cout]
    is a string, and a puzzle file is the list of its lines. *)

From Stdlib Require Import Ascii String DecimalString.
From Stdlib Require Import ZArith List Bool Lia Sorting Permutation.
Import ListNotations.
Open Scope Z_scope.

(** ** Grids *)

Definition grid (A : Type) := list (list A).
Definition board := grid Z.
Definition doms := grid (list Z).
Definition cell := (Z * Z)%type.

Fixpoint set_nth {A} (l : list A) (n : nat) (x : A) : list A :=
  match l, n with
  | [], _ => []
  | _ :: t, O => x :: t
  | h :: t, S n' => h :: set_nth t n' x
  end.

(** [g[r][c]] and [g[r][c] = x]. *)
Definition gget {A} (dflt : A) (g : grid A) (r c : Z) : A :=
  nth (Z.to_nat c) (nth (Z.to_nat r) g []) dflt.

Definition gset {A} (g : grid A) (r c : Z) (x : A) : grid A :=
  set_nth g (Z.to_nat r) (set_nth (nth (Z.to_nat r) g []) (Z.to_nat c) x).

Definition get (b : board) (r c : Z) : Z := gget 0 b r c.
Definition dget (d : doms) (r c : Z) : list Z := gget [] d r c.

(** [for (int i = a; i < a + n; i++)] *)
Definition rng (a n : Z) : list Z :=
  map (fun k => a + Z.of_nat k) (seq 0 (Z.to_nat n)).

(** The row-major scan [for i in 0..9, for j in 0..9]. *)
Definition cells81 : list cell :=
  flat_map (fun i => map (fun j => (i, j)) (rng 0 9)) (rng 0 9).

(** ** isValid *)

Definition isValid (b : board) (row col value : Z) : bool :=
  if existsb (fun i => (value =? get b i col) || (value =? get b row i)) (rng 0 9)
  then false
  else
    let boxRow := Z.quot row 3 * 3 in
    let boxCol := Z.quot col 3 * 3 in
    negb (existsb (fun r => existsb (fun c => value =? get b r c) (rng boxCol 3))
                  (rng boxRow 3)).

(** ** getRelated: appends the related squares of [(row,col)] to [related]. *)

Definition related_rowcol_step (row col : Z) (acc : list cell) (i : Z) : list cell :=
  let acc := if negb (i =? col) then acc ++ [(row, i)] else acc in
  if negb (i =? row) then acc ++ [(i, col)] else acc.

Definition related_box_step (row col : Z) (acc : list cell) (i j : Z) : list cell :=
  if (i =? row) && (j =? col) then acc
  else if existsb (fun sq => (fst sq =? i) && (snd sq =? j)) acc then acc
  else acc ++ [(i, j)].

Definition related_box_row (row col : Z) (acc : list cell) (i : Z) : list cell :=
  fold_left (fun acc j => related_box_step row col acc i j) (rng (Z.quot col 3 * 3) 3) acc.

Definition getRelated (row col : Z) (related : list cell) : list cell :=
  let related := fold_left (related_rowcol_step row col) (rng 0 9) related in
  fold_left (related_box_row row col) (rng (Z.quot row 3 * 3) 3) related.

(** ** findValid, findEmpty, findEmptyMRV *)

Definition findValid (b : board) (row col : Z) : list Z :=
  filter (fun i => isValid b row col i) (rng 1 9).

Definition findEmpty (b : board) : cell :=
  match find (fun p => get b (fst p) (snd p) =? 0) cells81 with
  | Some p => p
  | None => (-1, -1)
  end.

Fixpoint mrv_scan (b : board) (cs : list cell) (smallest : Z) (square : cell) : cell :=
  match cs with
  | [] => square
  | (i, j) :: t =>
      if negb (get b i j =? 0) then mrv_scan b t smallest square
      else
        let n := Z.of_nat (length (findValid b i j)) in
        if n <? smallest then
          if (n =? 0) || (n =? 1) then (i, j) else mrv_scan b t n (i, j)
        else mrv_scan b t smallest square
  end.

Definition findEmptyMRV (b : board) : cell := mrv_scan b cells81 10 (-1, -1).

(** ** update (one AC-3 revision) *)

Definition update (d : doms) (si sj : cell) : bool * doms :=
  let dj := dget d (fst sj) (snd sj) in
  let '(updated, newDomain) :=
    fold_left (fun acc i =>
                 let '(upd, nd) := acc in
                 if existsb (fun j => negb (i =? j)) dj then (upd, nd ++ [i])
                 else (true, nd))
              (dget d (fst si) (snd si)) (false, []) in
  (updated, gset d (fst si) (snd si) newDomain).

(** ** ac3: the arc queue is a FIFO list (push at the back, pop at the front). *)

Definition arcs0 : list (cell * cell) :=
  flat_map (fun p => map (fun sq => (p, sq)) (getRelated (fst p) (snd p) [])) cells81.

Definition readd_arcs (si : cell) : list (cell * cell) :=
  map (fun sq => (sq, si))
      (filter (fun sq => negb ((fst sq =? fst si) && (snd sq =? snd si)))
              (getRelated (fst si) (snd si) [])).

Fixpoint ac3_loop (fuel : nat) (d : doms) (arcs : list (cell * cell)) : option (bool * doms) :=
  match fuel with
  | O => None
  | S f =>
      match arcs with
      | [] => Some (true, d)
      | (si, sj) :: arcs' =>
          let '(upd, d1) := update d si sj in
          if upd then
            match dget d1 (fst si) (snd si) with
            | [] => Some (false, d1)
            | _ => ac3_loop f d1 (arcs' ++ readd_arcs si)
            end
          else ac3_loop f d1 arcs'
      end
  end.

Definition sumf {A} (f : A -> nat) (l : list A) : nat := fold_right (fun a acc => (f a + acc)%nat) O l.

(** Total number of values held by the domain store. *)
Definition total_size (d : doms) : nat := sumf (sumf (@length Z)) d.

(** Enough fuel for the loop to run to completion (see [ac3_loop_total]):
    every pop either shrinks a domain or shortens the queue. *)
Definition ac3_fuel (d : doms) (arcs : list (cell * cell)) : nat :=
  S (length arcs + 28 * total_size d).

Definition ac3 (d : doms) : bool * doms :=
  match ac3_loop (ac3_fuel d arcs0) d arcs0 with
  | Some r => r
  | None => (true, d)
  end.

(** ** initDomains, fillSingles *)

Definition initDomains (b : board) : doms :=
  map (fun i => map (fun j => if negb (get b i j =? 0) then [get b i j]
                              else filter (fun k => isValid b i j k) (rng 1 9))
                    (rng 0 9))
      (rng 0 9).

Definition fillSingles (b : board) (d : doms) : board :=
  fold_left (fun b p =>
               let '(i, j) := p in
               match dget d i j with
               | [v] => if get b i j =? 0 then gset b i j v else b
               | _ => b
               end)
            cells81 b.

(** ** findValidLCV: mutates [board[row][col]] while it counts. *)

Fixpoint insert_by_count (p : Z * Z) (vc : list (Z * Z)) : list (Z * Z) :=
  match vc with
  | [] => [p]
  | q :: t => if snd q <=? snd p then q :: insert_by_count p t else p :: vc
  end.

Definition legal_count (b : board) (r c : Z) : Z :=
  Z.of_nat (length (filter (fun k => isValid b r c k) (rng 1 9))).

Definition sumZ {A} (f : A -> Z) (l : list A) : Z := fold_right (fun x s => f x + s) 0 l.

(** The three counting loops of [findValidLCV], run on the board with the
    candidate placed. *)
Definition lcv_constraints (b : board) (row col : Z) : Z :=
  sumZ (fun j =>
          (if (get b row j =? 0) && negb (j =? col) then legal_count b row j else 0) +
          (if (get b j col =? 0) && negb (j =? row) then legal_count b j col else 0))
       (rng 0 9) +
  sumZ (fun r => sumZ (fun c => if (get b r c =? 0) && (negb (r =? row) || negb (c =? col))
                                then legal_count b r c else 0)
                      (rng (Z.quot col 3 * 3) 3))
       (rng (Z.quot row 3 * 3) 3).

(** One iteration of the loop over [i = 1..9]. *)
Definition findValidLCV_iter (row col : Z) (st : list (Z * Z) * board) (i : Z)
  : list (Z * Z) * board :=
  let '(vc, b) := st in
  if negb (isValid b row col i) then (vc, b)
  else
    let b1 := gset b row col i in
    let constraints := lcv_constraints b1 row col in
    let b2 := gset b1 row col 0 in
    (insert_by_count (i, constraints) vc, b2).

Definition findValidLCV (b : board) (row col : Z) : list Z * board :=
  let '(vc, b') := fold_left (findValidLCV_iter row col) (rng 1 9) ([], b) in
  (map fst vc, b').

(** [findValid] as a value finder: it leaves the board as it is. *)
Definition findValidF (b : board) (row col : Z) : list Z * board := (findValid b row col, b).

(** ** Finders used with MAC *)

Definition findValidMAC (d : doms) (row col : Z) : list Z := dget d row col.

Definition findValidLCVMAC (d : doms) (row col : Z) : list Z :=
  let vc :=
    fold_left (fun vc val =>
                 let constraints :=
                   sumZ (fun sq =>
                           let dom := dget d (fst sq) (snd sq) in
                           match dom with
                           | [] => 0
                           | _ =>
                               let supportedCount :=
                                 Z.of_nat (length (filter (fun v => negb (v =? val)) dom)) in
                               if supportedCount =? 1 then 100 else supportedCount
                           end)
                        (getRelated row col []) in
                 insert_by_count (val, constraints) vc)
              (dget d row col) [] in
  map fst vc.

Definition findEmptyMAC (b : board) (d : doms) : cell := findEmpty b.

Fixpoint mrv_mac_scan (b : board) (d : doms) (cs : list cell) (smallest : Z) (square : cell) : cell :=
  match cs with
  | [] => square
  | (i, j) :: t =>
      if negb (get b i j =? 0) then mrv_mac_scan b d t smallest square
      else
        let domainSize := Z.of_nat (length (dget d i j)) in
        if domainSize <? smallest then
          if (domainSize =? 0) || (domainSize =? 1) then (i, j)
          else mrv_mac_scan b d t domainSize (i, j)
        else mrv_mac_scan b d t smallest square
  end.

Definition findEmptyMRVMAC (b : board) (d : doms) : cell := mrv_mac_scan b d cells81 10 (-1, -1).

Definition hasFuture (b : board) : bool :=
  forallb (fun p => negb (get b (fst p) (snd p) =? 0)
                    || existsb (fun v => isValid b (fst p) (snd p) v) (rng 1 9))
          cells81.

Definition is_sentinel (p : cell) : bool := (fst p =? -1) && (snd p =? -1).

(** ** The three search routines.  A run yields the returned flag and the
    final board, step counter and backtrack counter (and, for MAC, the final
    domains argument). *)

Section Search.

Variable nextEmpty : board -> cell.
Variable validNumFinder : board -> Z -> Z -> list Z * board.

Fixpoint pruning (fuel : nat) (b : board) (steps backtracks : Z)
  : option (bool * board * Z * Z) :=
  match fuel with
  | O => None
  | S f =>
      let '(row, col) := nextEmpty b in
      if is_sentinel (row, col) then Some (true, b, steps, backtracks)
      else
        let steps := steps + 1 in
        let '(validNums, b) := validNumFinder b row col in
        (fix try_vals (vs : list Z) (b : board) (steps backtracks : Z) :=
           match vs with
           | [] => Some (false, b, steps, backtracks)
           | v :: vs' =>
               match pruning f (gset b row col v) steps backtracks with
               | None => None
               | Some (true, b', s', bt') => Some (true, b', s', bt')
               | Some (false, b', s', bt') => try_vals vs' (gset b' row col 0) s' (bt' + 1)
               end
           end) validNums b steps backtracks
  end.

Fixpoint forwardChecking (fuel : nat) (b : board) (steps backtracks : Z)
  : option (bool * board * Z * Z) :=
  match fuel with
  | O => None
  | S f =>
      let '(row, col) := nextEmpty b in
      if is_sentinel (row, col) then Some (true, b, steps, backtracks)
      else
        let steps := steps + 1 in
        let '(validNums, b) := validNumFinder b row col in
        (fix try_vals (vs : list Z) (b : board) (steps backtracks : Z) :=
           match vs with
           | [] => Some (false, b, steps, backtracks)
           | v :: vs' =>
               let b1 := gset b row col v in
               if negb (hasFuture b1) then try_vals vs' (gset b1 row col 0) steps (backtracks + 1)
               else
                 match forwardChecking f b1 steps backtracks with
                 | None => None
                 | Some (true, b', s', bt') => Some (true, b', s', bt')
                 | Some (false, b', s', bt') => try_vals vs' (gset b' row col 0) s' (bt' + 1)
                 end
           end) validNums b steps backtracks
  end.

End Search.

Section SearchMAC.

Variable nextEmpty : board -> doms -> cell.
Variable validNumFinder : doms -> Z -> Z -> list Z.

(** Each candidate works on [domainsCopy], a copy of the domains with the
    candidate's cell collapsed; the copy replaces [domains] only when the
    recursive call succeeds. *)
Fixpoint pruningMAC (fuel : nat) (b : board) (domains : doms) (steps backtracks : Z)
  : option (bool * board * doms * Z * Z) :=
  match fuel with
  | O => None
  | S f =>
      let '(row, col) := nextEmpty b domains in
      if is_sentinel (row, col) then Some (true, b, domains, steps, backtracks)
      else
        let steps := steps + 1 in
        let validNums := validNumFinder domains row col in
        (fix try_vals (vs : list Z) (b : board) (steps backtracks : Z) :=
           match vs with
           | [] => Some (false, b, domains, steps, backtracks)
           | v :: vs' =>
               let b1 := gset b row col v in
               let domainsCopy := gset domains row col [v] in
               let '(consistent, domainsCopy) := ac3 domainsCopy in
               if consistent then
                 match pruningMAC f b1 domainsCopy steps backtracks with
                 | None => None
                 | Some (true, b', dc', s', bt') => Some (true, b', dc', s', bt')
                 | Some (false, b', _, s', bt') => try_vals vs' (gset b' row col 0) s' (bt' + 1)
                 end
               else try_vals vs' (gset b1 row col 0) steps (backtracks + 1)
           end) validNums b steps backtracks
  end.

End SearchMAC.

(** ** SolveResult and solve *)

Record SolveResult := mkSolveResult {
  sr_board : board;
  solved : bool;
  sr_steps : Z;
  sr_backtracks : Z;
  sr_runtime : Z
}.

(** Aggregate initialisation [SolveResult r = {x0, x1, ...};]: with brace
    elision the scalars fill [board] row by row, then [solved], [steps],
    [backtracks] and [runtime]; members without an initialiser are zero. *)
Definition SolveResult_init (l : list Z) : SolveResult :=
  let z k := nth k l 0 in
  {| sr_board := map (fun i => map (fun j => z (9 * i + j)%nat) (seq 0 9)) (seq 0 9);
     solved := negb (z 81%nat =? 0);
     sr_steps := z 82%nat;
     sr_backtracks := z 83%nat;
     sr_runtime := z 84%nat |}.

(** What [solve] does besides computing its result. *)
Inductive solve_event :=
  | EvAC3Preprocessing
  | EvSearch (method : Z).

(** [solve board] with the four answers read from [cin] ([useAC3] is only read
    when [method < 3]; otherwise it is the variable's indeterminate value, an
    argument here), the measured [runtime], and fuel for the search. *)
Definition solve (method emptyFinder valueOrder useAC3 : Z) (runtime : Z) (fuel : nat)
  (b : board) : option (SolveResult * list solve_event) :=
  let domains0 : doms := repeat (repeat [] 9) 9 in
  let pre :=
    if (useAC3 =? 1) || (method =? 3) then
      let '(ok, domains) := ac3 (initDomains b) in
      if ok then inr (fillSingles b domains, domains) else inl tt
    else inr (b, domains0) in
  match pre with
  | inl _ => Some (SolveResult_init [-1; -1; -1], [EvAC3Preprocessing])
  | inr (b, domains) =>
      let ev0 := if (useAC3 =? 1) || (method =? 3) then [EvAC3Preprocessing] else [] in
      let run1 ne vf := pruning ne vf fuel b 0 0 in
      let run2 ne vf := forwardChecking ne vf fuel b 0 0 in
      let run3 ne vf := option_map (fun r => let '(s, b', _, st, bt) := r in (s, b', st, bt))
                                   (pruningMAC ne vf fuel b domains 0 0) in
      let outcome :=
        if (method =? 1) && (emptyFinder =? 1) && (valueOrder =? 1) then Some (run1 findEmpty findValidF)
        else if (method =? 1) && (emptyFinder =? 1) && (valueOrder =? 2) then Some (run1 findEmpty findValidLCV)
        else if (method =? 1) && (emptyFinder =? 2) && (valueOrder =? 1) then Some (run1 findEmptyMRV findValidF)
        else if (method =? 1) && (emptyFinder =? 2) && (valueOrder =? 2) then Some (run1 findEmptyMRV findValidLCV)
        else if (method =? 2) && (emptyFinder =? 1) && (valueOrder =? 1) then Some (run2 findEmpty findValidF)
        else if (method =? 2) && (emptyFinder =? 1) && (valueOrder =? 2) then Some (run2 findEmpty findValidLCV)
        else if (method =? 2) && (emptyFinder =? 2) && (valueOrder =? 1) then Some (run2 findEmptyMRV findValidF)
        else if (method =? 2) && (emptyFinder =? 2) && (valueOrder =? 2) then Some (run2 findEmptyMRV findValidLCV)
        else if (method =? 3) && (emptyFinder =? 1) && (valueOrder =? 1) then Some (run3 findEmptyMAC findValidMAC)
        else if (method =? 3) && (emptyFinder =? 1) && (valueOrder =? 2) then Some (run3 findEmptyMAC findValidLCVMAC)
        else if (method =? 3) && (emptyFinder =? 2) && (valueOrder =? 1) then Some (run3 findEmptyMRVMAC findValidMAC)
        else if (method =? 3) && (emptyFinder =? 2) && (valueOrder =? 2) then Some (run3 findEmptyMRVMAC findValidLCVMAC)
        else None in
      match outcome with
      | None => Some ({| sr_board := b; solved := false; sr_steps := 0;
                         sr_backtracks := 0; sr_runtime := runtime |}, ev0)
      | Some None => None
      | Some (Some (s, b', st, bt)) =>
          Some ({| sr_board := b'; solved := s; sr_steps := st;
                   sr_backtracks := bt; sr_runtime := runtime |}, ev0 ++ [EvSearch method])
      end
  end.

(** ** readPuzzle *)

(** [isdigit] of the C locale. *)
Definition isdigit (c : ascii) : bool :=
  (48 <=? nat_of_ascii c)%nat && (nat_of_ascii c <=? 57)%nat.

(** The loop over the characters of one line read into row [row]. *)
Fixpoint read_line (row : Z) (cs : list ascii) (col : Z) (b : board) : board :=
  match cs with
  | [] => b
  | c :: t =>
      if col <? 9 then
        if Ascii.eqb c ","%char then read_line row t col b
        else if isdigit c then
          read_line row t (col + 1) (gset b row col (Z.of_nat (nat_of_ascii c) - Z.of_nat (nat_of_ascii "0"%char)))
        else if Ascii.eqb c " "%char then read_line row t (col + 1) (gset b row col 0)
        else read_line row t col b
      else b
  end.

(** The loop over the lines [getline] returns. *)
Fixpoint read_rows (ls : list string) (row : Z) (b : board) : board :=
  match ls with
  | [] => b
  | l :: t => if row <? 9 then read_rows t (row + 1) (read_line row (list_ascii_of_string l) 0 b) else b
  end.

Definition newline : string := String (ascii_of_nat 10) EmptyString.

(** [readPuzzle]: [None] is a file that cannot be opened (the exception is
    caught and reported), [Some ls] the lines of the file; the result is the
    board and the text printed. *)
Definition readPuzzle (file : option (list string)) (b : board) : board * string :=
  match file with
  | None => (b, "Something went wrong when reading the file, please try again. "%string)
  | Some ls => (read_rows ls 0 b, ("Puzzle read successfully." ++ newline)%string)
  end.

(** ** printBoard *)

(** [cout << n] for an [int]: its decimal text, with a minus sign when negative. *)
Definition string_of_Z (z : Z) : string := NilZero.string_of_int (Z.to_int z).

(** The text [printBoard] writes. *)
Definition printBoard (board : board) : string :=
  String.concat EmptyString (map (fun i =>
    String.append
      (if (i mod 3 =? 0) && negb (i =? 0) then String.append "- - - - - - - - - - -" newline else EmptyString)
      (String.append
         (String.concat EmptyString (map (fun j =>
            String.append (if (j mod 3 =? 0) && negb (j =? 0) then "| "%string else EmptyString)
              (String.append (string_of_Z (get board i j))
                 (if negb (j =? 8) then " "%string else EmptyString))) (rng 0 9)))
         newline)) (rng 0 9)).

(** ** comparison *)

(** The loop of [comparison] over the stored results: [i] is the loop index,
    the three pairs are [leastSteps], [leastBacktracks] and [fastest]. *)
Fixpoint compare_loop (i : Z) (rs : list SolveResult) (leastSteps leastBacktracks fastest : Z * SolveResult)
  : (Z * SolveResult) * (Z * SolveResult) * (Z * SolveResult) :=
  match rs with
  | [] => (leastSteps, leastBacktracks, fastest)
  | r :: t =>
      if solved r then
        let leastSteps := if sr_steps r <? sr_steps (snd leastSteps) then (i + 1, r) else leastSteps in
        let leastBacktracks :=
          if sr_backtracks r <? sr_backtracks (snd leastBacktracks) then (i + 1, r) else leastBacktracks in
        let fastest := if sr_runtime r <? sr_runtime (snd fastest) then (i + 1, r) else fastest in
        compare_loop (i + 1) t leastSteps leastBacktracks fastest
      else (leastSteps, leastBacktracks, fastest)
  end.

(** The three pairs [comparison] reports for the results of its [solvers]
    runs, in order; [None] when there is no [results[0]] to start from. *)
Definition comparison_summary (results : list SolveResult)
  : option ((Z * SolveResult) * (Z * SolveResult) * (Z * SolveResult)) :=
  match results with
  | [] => None
  | r0 :: _ => Some (compare_loop 0 results (0, r0) (0, r0) (0, r0))
  end.

(** * Specifications used by the statements *)

(** A value of the revised cell is kept iff the other cell's domain holds a
    different value. *)
Definition keep (dj : list Z) (i : Z) : bool := existsb (fun j => negb (i =? j)) dj.

(** The peers of a cell: same row, column or 3x3 box, on the board, not the
    cell itself. *)
Definition peer_cell (p q : cell) : Prop :=
  0 <= fst q < 9 /\ 0 <= snd q < 9 /\ p <> q /\
  (fst p = fst q \/ snd p = snd q \/ (fst p / 3 = fst q / 3 /\ snd p / 3 = snd q / 3)).

Definition peerb (p q : cell) : bool :=
  (0 <=? fst q) && (fst q <? 9) && (0 <=? snd q) && (snd q <? 9) &&
  negb ((fst p =? fst q) && (snd p =? snd q)) &&
  ((fst p =? fst q) || (snd p =? snd q) ||
   ((fst p / 3 =? fst q / 3) && (snd p / 3 =? snd q / 3))).

Definition cell_eqb (p q : cell) : bool := (fst p =? fst q) && (snd p =? snd q).

Fixpoint nodupb (l : list cell) : bool :=
  match l with
  | [] => true
  | x :: t => negb (existsb (cell_eqb x) t) && nodupb t
  end.

Definition related_check : bool :=
  forallb (fun p =>
             let rel := getRelated (fst p) (snd p) [] in
             forallb (fun q => Bool.eqb (existsb (cell_eqb q) rel) (peerb p q)) cells81 &&
             forallb (fun q => (0 <=? fst q) && (fst q <? 9) && (0 <=? snd q) && (snd q <? 9)) rel &&
             nodupb rel && (length rel <=? 20)%nat)
          cells81.

(** Number of legal values of a cell, as [findEmptyMRV] counts them. *)
Definition cnt (b : board) (p : cell) : Z := Z.of_nat (length (findValid b (fst p) (snd p))).

Definition empties (b : board) (l : list cell) : list cell :=
  filter (fun p => get b (fst p) (snd p) =? 0) l.

Definition min_cnt (b : board) (l : list cell) (s : Z) : Z :=
  fold_right (fun p m => Z.min (cnt b p) m) s (empties b l).

(** The selection rule of minimum-remaining-values with its early exit, as a
    specification: the first empty cell with at most one legal value if
    there is one, otherwise the first empty cell of minimum count, and the
    sentinel when the board has no empty cell. *)
Definition mrv_select (b : board) : cell :=
  match find (fun p => cnt b p <=? 1) (empties b cells81) with
  | Some p => p
  | None =>
      match find (fun p => cnt b p =? min_cnt b cells81 10) (empties b cells81) with
      | Some p => p
      | None => (-1, -1)
      end
  end.

(** The key [findValidLCV] sorts a legal value [v] of [(row,col)] by. *)
Definition lcv_key (b : board) (row col v : Z) : Z := lcv_constraints (gset b row col v) row col.

(** Order of the output of [findValidLCV]: by key, ties by value. *)
Definition lcv_before (b : board) (row col : Z) (v w : Z) : Prop :=
  lcv_key b row col v < lcv_key b row col w \/
  (lcv_key b row col v = lcv_key b row col w /\ v < w).

(** The count as the claim words it: every other empty cell sharing the row,
    the column or the box, each counted once. *)
Definition lcv_peer_count (b : board) (row col v : Z) : Z :=
  let b1 := gset b row col v in
  sumZ (fun q => if peerb (row, col) q && (get b1 (fst q) (snd q) =? 0)
                 then legal_count b1 (fst q) (snd q) else 0) cells81.

(** The ordering as the claim words it: the legal values of the cell, in
    ascending order, inserted stably by [lcv_peer_count]. *)
Definition findValidLCV_claimed (b : board) (row col : Z) : list Z :=
  map fst (fold_left (fun vc i => insert_by_count (i, lcv_peer_count b row col i) vc)
                     (findValid b row col) []).

(** The empty peers of [(row,col)] left without any legal value once [v] is
    placed there. *)
Definition lcv_blocked_peers (b : board) (row col v : Z) : nat :=
  let b1 := gset b row col v in
  length (filter (fun q => peerb (row, col) q && (get b1 (fst q) (snd q) =? 0) &&
                           (legal_count b1 (fst q) (snd q) =? 0)) cells81).

(** Arc (a,b) is consistent: every value of a's domain has a different
    value in b's domain, so revising it changes nothing. *)
Definition arc_consistent (d : doms) (a b : cell) : Prop :=
  forall v, In v (dget d (fst a) (snd a)) -> exists w, In w (dget d (fst b) (snd b)) /\ w <> v.

(** Every arc of [arcs0] is either still queued or consistent, and every
    queued arc starts at a cell of the board. *)
Definition ac3_inv (d : doms) (q : list (cell * cell)) : Prop :=
  (forall a b, In (a, b) arcs0 -> In (a, b) q \/ arc_consistent d a b) /\
  (forall x y, In (x, y) q -> 0 <= fst x < 9 /\ 0 <= snd x < 9).

Definition cell_eq_dec (a b : cell) : {a = b} + {a <> b}.
Proof. decide equality; apply Z.eq_dec. Defined.

(** No cell of the board is empty. *)
Definition no_zeros (b : board) : Prop :=
  forall r c, 0 <= r < 9 -> 0 <= c < 9 -> get b r c <> 0.

(** Outcome of a search run on entry board [b]: a failure hands back [b]
    itself, a success a board without empty cells (no outcome when the fuel
    runs out). *)
Definition search_ok (res : option (bool * board * Z * Z)) (b : board) : Prop :=
  match res with
  | Some (true, b', _, _) => no_zeros b'
  | Some (false, b', _, _) => b' = b
  | None => True
  end.

(** The same for [pruningMAC] on entry board [b] and domains [d]. *)
Definition search_mac_ok (res : option (bool * board * doms * Z * Z)) (b : board) (d : doms) : Prop :=
  match res with
  | Some (true, b', _, _, _) => no_zeros b'
  | Some (false, b', d', _, _) => b' = b /\ d' = d
  | None => True
  end.

(** Every domain holds at most nine values, as [initDomains] builds them. *)
Definition dom_boundedb (d : doms) : bool :=
  forallb (forallb (fun l => (length l <=? 9)%nat)) d.

(** The finder pairs [solve] runs [pruning] and [forwardChecking] with, and
    the finders it runs [pruningMAC] with. *)
Definition board_finders : list ((board -> cell) * (board -> Z -> Z -> list Z * board)) :=
  [(findEmpty, findValidF); (findEmpty, findValidLCV); (findEmptyMRV, findValidF);
   (findEmptyMRV, findValidLCV)].

Definition mac_empty_finders : list (board -> doms -> cell) := [findEmptyMAC; findEmptyMRVMAC].

Definition mac_value_finders : list (doms -> Z -> Z -> list Z) := [findValidMAC; findValidLCVMAC].

(** One step of [findValidLCV]'s loop on a board whose cell is empty. *)
Definition lcv_step (b : board) (row col : Z) (vc : list (Z * Z)) (i : Z) : list (Z * Z) :=
  if isValid b row col i then insert_by_count (i, lcv_key b row col i) vc else vc.

(** Order of the pairs built by [insert_by_count]: by count, then by value. *)
Definition lex (q p : Z * Z) : Prop := snd q < snd p \/ (snd q = snd p /\ fst q < fst p).

(** ** Boards, solutions and the search results *)

Definition getc (b : board) (p : cell) : Z := get b (fst p) (snd p).
Definition dgetc (d : doms) (p : cell) : list Z := dget d (fst p) (snd p).
Definition consistent (b : board) : Prop :=
  forall p q, In p cells81 -> peer_cell p q -> getc b p <> 0 -> getc b p <> getc b q.
Definition shape9 {A} (g : grid A) : Prop :=
  length g = 9%nat /\ Forall (fun row => length row = 9%nat) g.
Definition solution_of (b s : board) : Prop :=
  (forall p, In p cells81 -> 1 <= getc s p <= 9) /\ consistent s /\
  (forall p, In p cells81 -> getc b p <> 0 -> getc s p = getc b p).
Definition zeros (b : board) : nat := length (empties b cells81).

Definition sound_res (res : option (bool * board * Z * Z)) (b : board) : Prop :=
  match res with
  | Some (true, b', _, _) =>
      consistent b' /\ no_zeros b' /\ forall p, In p cells81 -> getc b p <> 0 -> getc b' p = getc b p
  | _ => True
  end.

Definition solves_from (b b' : board) : Prop :=
  consistent b' /\ no_zeros b' /\ forall p, In p cells81 -> getc b p <> 0 -> getc b' p = getc b p.

(** AC-3 keeps the values of a solution. *)
Definition holds (s : board) (d : doms) : Prop :=
  forall p, In p cells81 -> In (getc s p) (dgetc d p).

Definition queue_ok (q : list (cell * cell)) : Prop :=
  forall x y, In (x, y) q -> In x cells81 /\ peer_cell x y.

Definition fill_step (d : doms) (b : board) (p : cell) : board :=
  let '(i, j) := p in
  match dget d i j with
  | [v] => if get b i j =? 0 then gset b i j v else b
  | _ => b
  end.

(** The invariant of the MAC search: the domain of a filled cell holds
    nothing but the filled value and is not empty, every arc of [arcs0] is
    consistent, no domain holds 0. *)
Definition mac_inv (b : board) (d : doms) : Prop :=
  shape9 b /\ shape9 d /\ (forall r c, (length (dget d r c) <= 9)%nat) /\
  (forall a c, In (a, c) arcs0 -> arc_consistent d a c) /\
  (forall p, In p cells81 -> getc b p <> 0 -> dgetc d p <> [] /\ incl (dgetc d p) [getc b p]) /\
  (forall p v, In p cells81 -> In v (dgetc d p) -> v <> 0).

Definition bounded (d : doms) : Prop := forall r c, (length (dget d r c) <= 9)%nat.

Definition mac_sound_res (res : option (bool * board * doms * Z * Z)) (b : board) : Prop :=
  match res with
  | Some (true, b', _, _, _) => solves_from b b'
  | _ => True
  end.

(** ** Lines of a puzzle file, the summary of a comparison, the printed board *)

(** The cells a line holds: its digits and spaces, in order. *)
Definition is_cell (c : ascii) : bool := isdigit c || Ascii.eqb c " "%char.
Definition cell_value (c : ascii) : Z := if isdigit c then Z.of_nat (nat_of_ascii c) - 48 else 0.
Definition line_cells (cs : list ascii) : list Z := map cell_value (filter is_cell cs).

Definition nth_or (l : list Z) (n : nat) (dflt : Z) : Z :=
  match nth_error l n with Some v => v | None => dflt end.

(** A row written as its digits with [sep] between two of them. *)
Definition digit_char (v : Z) : ascii := ascii_of_nat (Z.to_nat v + 48).

Fixpoint row_text (sep : list ascii) (row : list Z) : list ascii :=
  match row with
  | [] => []
  | [v] => [digit_char v]
  | v :: t => digit_char v :: sep ++ row_text sep t
  end.

Definition row_line (sep : list ascii) (row : list Z) : string := string_of_list_ascii (row_text sep row).

(** The results the loop looks at: those before the first unsolved one. *)
Fixpoint solved_prefix (rs : list SolveResult) : list SolveResult :=
  match rs with
  | [] => []
  | r :: t => if solved r then r :: solved_prefix t else []
  end.

(** One of the three pairs, with its field. *)
Fixpoint sel_loop (sel : SolveResult -> Z) (i : Z) (rs : list SolveResult) (best : Z * SolveResult) : Z * SolveResult :=
  match rs with
  | [] => best
  | r :: t =>
      if solved r then sel_loop sel (i + 1) t (if sel r <? sel (snd best) then (i + 1, r) else best)
      else best
  end.

(** [printBoard] with each cell's text already a single character. *)
Definition print_digits (board : board) : string :=
  String.concat EmptyString (map (fun i =>
    String.append
      (if (i mod 3 =? 0) && negb (i =? 0) then String.append "- - - - - - - - - - -" newline else EmptyString)
      (String.append
         (String.concat EmptyString (map (fun j =>
            String.append (if (j mod 3 =? 0) && negb (j =? 0) then "| "%string else EmptyString)
              (String.append (String (digit_char (get board i j)) EmptyString)
                 (if negb (j =? 8) then " "%string else EmptyString))) (rng 0 9)))
         newline)) (rng 0 9)).

(** ** Decision procedures for the sample inputs *)

Definition peer_cellb (p q : cell) : bool :=
  (0 <=? fst q) && (fst q <? 9) && (0 <=? snd q) && (snd q <? 9) &&
  negb ((fst p =? fst q) && (snd p =? snd q)) &&
  ((fst p =? fst q) || (snd p =? snd q) || ((fst p / 3 =? fst q / 3) && (snd p / 3 =? snd q / 3))).

Definition consistentb (b : board) : bool :=
  forallb (fun p => forallb (fun q =>
    negb (peer_cellb p q) || (getc b p =? 0) || negb (getc b p =? getc b q)) cells81) cells81.

Definition shape9b {A} (g : grid A) : bool :=
  (length g =? 9)%nat && forallb (fun row => (length row =? 9)%nat) g.

Definition solution_ofb (b s : board) : bool :=
  forallb (fun p => (1 <=? getc s p) && (getc s p <=? 9) && ((getc b p =? 0) || (getc s p =? getc b p))) cells81 &&
  consistentb s.

Definition digitsb (b : board) : bool := forallb (fun p => (0 <=? getc b p) && (getc b p <=? 9)) cells81.

(** * Sample boards *)

Definition bad_board : board := (1 :: 1 :: repeat 0 7) :: repeat (repeat 0 9) 8.

Definition init_minus1_board : board :=
  (-1 :: -1 :: -1 :: repeat 0 6) :: repeat (repeat 0 9) 8.

Definition sample_board : board :=
  [[0; 2; 0; 4; 5; 6; 7; 8; 0]; [4; 5; 6; 7; 8; 9; 1; 2; 3]; [7; 8; 9; 1; 2; 3; 4; 5; 6];
   [2; 3; 0; 5; 6; 7; 8; 9; 1]; [5; 6; 7; 8; 9; 1; 2; 3; 4]; [8; 9; 1; 2; 3; 4; 5; 6; 7];
   [0; 4; 5; 6; 7; 8; 9; 1; 2]; [0; 7; 8; 9; 0; 2; 3; 4; 5]; [0; 0; 2; 3; 4; 5; 6; 7; 8]].

Definition mrv_board : board :=
  [[0; 2; 3; 4; 5; 6; 7; 8; 9]; repeat 0 9; repeat 0 9; repeat 0 9;
   [2; 1; 3; 4; 0; 5; 6; 7; 8]; repeat 0 9; repeat 0 9; repeat 0 9;
   [0; 0; 0; 0; 9; 0; 0; 0; 0]].

Definition filled_board : board := (5 :: repeat 0 8) :: repeat (repeat 0 9) 8.

Definition sample_solution : board :=
  [[1; 2; 3; 4; 5; 6; 7; 8; 9]; [4; 5; 6; 7; 8; 9; 1; 2; 3]; [7; 8; 9; 1; 2; 3; 4; 5; 6];
   [2; 3; 4; 5; 6; 7; 8; 9; 1]; [5; 6; 7; 8; 9; 1; 2; 3; 4]; [8; 9; 1; 2; 3; 4; 5; 6; 7];
   [3; 4; 5; 6; 7; 8; 9; 1; 2]; [6; 7; 8; 9; 1; 2; 3; 4; 5]; [9; 1; 2; 3; 4; 5; 6; 7; 8]].

Definition empty_board : board := repeat (repeat 0 9) 9.

Definition sample_results : list SolveResult :=
  [{| sr_board := sample_solution; solved := true; sr_steps := 9; sr_backtracks := 2; sr_runtime := 4 |};
   {| sr_board := sample_solution; solved := true; sr_steps := 7; sr_backtracks := 2; sr_runtime := 5 |};
   {| sr_board := sample_board; solved := false; sr_steps := 1; sr_backtracks := 0; sr_runtime := 0 |};
   {| sr_board := sample_solution; solved := true; sr_steps := 3; sr_backtracks := 1; sr_runtime := 1 |}].

(** * Basic lemmas *)

Lemma In_rng (a n x : Z) : 0 <= n -> In x (rng a n) <-> a <= x < a + n.
Proof.
  intros Hn. unfold rng. rewrite in_map_iff. split.
  - intros [k [<- Hk]]. apply in_seq in Hk. lia.
  - intros Hx. exists (Z.to_nat (x - a)). split; [lia|]. apply in_seq. lia.
Qed.

Lemma in_cells81 (r c : Z) : 0 <= r < 9 -> 0 <= c < 9 -> In (r, c) cells81.
Proof.
  intros Hr Hc. unfold cells81. apply in_flat_map. exists r. split.
  - apply In_rng; lia.
  - apply in_map. apply In_rng; lia.
Qed.

Lemma cells81_range (p : cell) : In p cells81 -> 0 <= fst p < 9 /\ 0 <= snd p < 9.
Proof.
  unfold cells81. rewrite in_flat_map. intros [i [Hi Hp]].
  apply in_map_iff in Hp. destruct Hp as [j [<- Hj]].
  apply In_rng in Hi; [|lia]. apply In_rng in Hj; [|lia]. simpl. lia.
Qed.

Lemma cell_eqb_spec (p q : cell) : cell_eqb p q = true <-> p = q.
Proof.
  destruct p as [a b], q as [c e]. unfold cell_eqb. simpl.
  rewrite andb_true_iff, !Z.eqb_eq. split; [intros [-> ->]; auto | intros H; inversion H; auto].
Qed.

Lemma existsb_cell_In (q : cell) (l : list cell) : existsb (cell_eqb q) l = true <-> In q l.
Proof.
  rewrite existsb_exists. split.
  - intros [x [Hx Hq]]. apply cell_eqb_spec in Hq. subst. exact Hx.
  - intros Hq. exists q. split; [exact Hq | apply cell_eqb_spec; reflexivity].
Qed.

Lemma nodupb_NoDup (l : list cell) : nodupb l = true -> NoDup l.
Proof.
  induction l as [|x t IH]; simpl; intros H; constructor.
  - apply andb_true_iff in H as [H _]. intros Hin.
    apply (existsb_cell_In x t) in Hin. rewrite Hin in H. discriminate.
  - apply andb_true_iff in H as [_ H]. auto.
Qed.

Lemma div3_iff (r q : Z) : 0 <= r -> (r / 3 = q <-> q * 3 <= r < q * 3 + 3).
Proof.
  intros Hr. pose proof (Z.div_mod r 3) as Hdm. pose proof (Z.mod_pos_bound r 3) as Hb.
  split.
  - intros <-. lia.
  - intros Hq. assert (Hlt : r / 3 < q + 1) by nia. assert (Hge : q - 1 < r / 3) by nia. lia.
Qed.

Lemma peerb_spec (p q : cell) : peerb p q = true <-> peer_cell p q.
Proof.
  destruct p as [a b], q as [c e]. unfold peerb, peer_cell. simpl.
  rewrite !andb_true_iff, !orb_true_iff, !andb_true_iff, negb_true_iff, andb_false_iff,
    !Z.eqb_eq, !Z.eqb_neq, !Z.leb_le, !Z.ltb_lt.
  split.
  - intros [[[[H1 H2] H3] H4] H5]. split; [lia|]. split; [lia|]. split.
    + intros Heq; inversion Heq; subst; tauto.
    + tauto.
  - intros [H1 [H2 [H3 H4]]]. split; [|tauto]. split; [lia|].
    destruct (Z.eq_dec a c); [|tauto]. subst. right. intros ->. tauto.
Qed.

Lemma related_check_ok : related_check = true.
Proof. vm_compute. reflexivity. Qed.

Lemma getRelated_facts (r c : Z) :
  0 <= r < 9 -> 0 <= c < 9 ->
  (forall q, In q (getRelated r c []) <-> peer_cell (r, c) q) /\
  NoDup (getRelated r c []) /\ (length (getRelated r c []) <= 20)%nat.
Proof.
  intros Hr Hc. pose proof related_check_ok as H. unfold related_check in H.
  rewrite forallb_forall in H. specialize (H (r, c) (in_cells81 r c Hr Hc)). cbv beta in H; cbn [fst snd] in H.
  rewrite !andb_true_iff in H. destruct H as [[[H1 H2] H3] H4].
  rewrite forallb_forall in H1, H2. split; [|split].
  - intros q. split.
    + intros Hq. specialize (H2 q Hq). rewrite !andb_true_iff, !Z.leb_le, !Z.ltb_lt in H2.
      destruct q as [a b]. simpl in H2. specialize (H1 (a, b) (in_cells81 a b ltac:(lia) ltac:(lia))).
      apply Bool.eqb_prop in H1. apply (existsb_cell_In (a, b)) in Hq. rewrite Hq in H1.
      apply peerb_spec. auto.
    + intros Hq. destruct q as [a b]. destruct Hq as [Ha [Hb Hrest]]. simpl in Ha, Hb.
      specialize (H1 (a, b) (in_cells81 a b Ha Hb)). apply Bool.eqb_prop in H1.
      apply (existsb_cell_In (a, b)). rewrite H1. apply peerb_spec. split; auto.
  - apply nodupb_NoDup. exact H3.
  - apply Nat.leb_le. exact H4.
Qed.

(** ** Array reads and writes *)

Section SetNth.
Context {A : Type}.

Lemma set_nth_length (l : list A) n x : length (set_nth l n x) = length l.
Proof. revert n; induction l; destruct n; simpl; auto. Qed.

Lemma nth_set_nth_same (l : list A) n x d : (n < length l)%nat -> nth n (set_nth l n x) d = x.
Proof. revert n; induction l; destruct n; simpl; intros; try lia; auto. apply IHl. lia. Qed.

Lemma set_nth_oob (l : list A) n x : (length l <= n)%nat -> set_nth l n x = l.
Proof. revert n; induction l; destruct n; simpl; intros; try lia; auto. f_equal. apply IHl. lia. Qed.

Lemma nth_set_nth_other (l : list A) n m x d : m <> n -> nth m (set_nth l n x) d = nth m l d.
Proof. revert n m; induction l; destruct n, m; simpl; intros; try lia; auto. Qed.

Lemma set_nth_nth (l : list A) n d : set_nth l n (nth n l d) = l.
Proof. revert n; induction l; destruct n; simpl; auto. f_equal. auto. Qed.

Lemma set_nth_set_nth (l : list A) n x y : set_nth (set_nth l n x) n y = set_nth l n y.
Proof. revert n; induction l; destruct n; simpl; auto. f_equal. auto. Qed.

End SetNth.

Section Grid.
Context {A : Type}.
Implicit Types (g : grid A) (x : A).

Lemma gget_gset g r c x r' c' d :
  gget d (gset g r c x) r' c' = gget d g r' c' \/
  (Z.to_nat r = Z.to_nat r' /\ Z.to_nat c = Z.to_nat c' /\ gget d (gset g r c x) r' c' = x).
Proof.
  unfold gget, gset.
  destruct (Nat.eq_dec (Z.to_nat r') (Z.to_nat r)) as [Er|Er].
  - rewrite Er. destruct (Nat.lt_ge_cases (Z.to_nat r) (length g)) as [Hr|Hr].
    + rewrite nth_set_nth_same by exact Hr.
      destruct (Nat.eq_dec (Z.to_nat c') (Z.to_nat c)) as [Ec|Ec].
      * rewrite Ec. destruct (Nat.lt_ge_cases (Z.to_nat c) (length (nth (Z.to_nat r) g []))) as [Hc|Hc].
        -- right. rewrite nth_set_nth_same by exact Hc. auto.
        -- left. rewrite set_nth_oob by exact Hc. reflexivity.
      * left. apply nth_set_nth_other. exact Ec.
    + left. rewrite (set_nth_oob g) by exact Hr. reflexivity.
  - left. rewrite nth_set_nth_other by exact Er. reflexivity.
Qed.

Lemma gget_gset_same g r c x d :
  gget d (gset g r c x) r c = x \/ (gset g r c x = g /\ gget d g r c = d).
Proof.
  unfold gget, gset.
  destruct (Nat.lt_ge_cases (Z.to_nat r) (length g)) as [Hr|Hr].
  - rewrite nth_set_nth_same by exact Hr.
    destruct (Nat.lt_ge_cases (Z.to_nat c) (length (nth (Z.to_nat r) g []))) as [Hc|Hc].
    + left. apply nth_set_nth_same. exact Hc.
    + right. rewrite (set_nth_oob (nth _ g [])) by exact Hc. rewrite set_nth_nth.
      split; [reflexivity|]. apply nth_overflow. exact Hc.
  - right. rewrite set_nth_oob by exact Hr. split; [reflexivity|].
    rewrite (nth_overflow g) by exact Hr. destruct (Z.to_nat c); reflexivity.
Qed.

Lemma gget_gset_in_range g r c x r' c' d :
  0 <= r -> 0 <= c -> 0 <= r' -> 0 <= c' -> (r, c) <> (r', c') ->
  gget d (gset g r c x) r' c' = gget d g r' c'.
Proof.
  intros Hr Hc Hr2 Hc2 Hne. destruct (gget_gset g r c x r' c' d) as [Hg|[E1 [E2 _]]]; [exact Hg|].
  exfalso. apply Hne. f_equal; lia.
Qed.

Lemma gset_gget g r c d : gset g r c (gget d g r c) = g.
Proof. unfold gset, gget. rewrite set_nth_nth. apply set_nth_nth. Qed.

Lemma gset_gset g r c x y : gset (gset g r c x) r c y = gset g r c y.
Proof.
  unfold gset. destruct (Nat.lt_ge_cases (Z.to_nat r) (length g)) as [Hr|Hr].
  - rewrite nth_set_nth_same by exact Hr. rewrite set_nth_set_nth, set_nth_set_nth. reflexivity.
  - rewrite !(set_nth_oob g) by exact Hr. reflexivity.
Qed.

End Grid.

(** Writing 0 back into an empty cell restores the board. *)
Lemma gset_restore (b : board) (r c : Z) : get b r c = 0 -> gset b r c 0 = b.
Proof. intros H. rewrite <- H. unfold get. apply gset_gget. Qed.

(** ** The revision step *)

Lemma update_fold (dj l nd : list Z) (u : bool) :
  fold_left (fun acc i => let '(upd, nd) := acc in
                          if existsb (fun j => negb (i =? j)) dj then (upd, nd ++ [i])
                          else (true, nd)) l (u, nd)
  = (u || existsb (fun i => negb (keep dj i)) l, nd ++ filter (keep dj) l).
Proof.
  revert u nd. induction l as [|i l IH]; intros u nd; simpl.
  - rewrite orb_false_r, app_nil_r. reflexivity.
  - unfold keep at 1 3. destruct (existsb (fun j => negb (i =? j)) dj); simpl.
    + rewrite IH, <- app_assoc. reflexivity.
    + rewrite IH, orb_true_r. reflexivity.
Qed.

Lemma update_spec (d : doms) (si sj : cell) :
  update d si sj =
  (existsb (fun i => negb (keep (dget d (fst sj) (snd sj)) i)) (dget d (fst si) (snd si)),
   gset d (fst si) (snd si) (filter (keep (dget d (fst sj) (snd sj))) (dget d (fst si) (snd si)))).
Proof. unfold update. rewrite update_fold. reflexivity. Qed.

Lemma keep_spec (dj : list Z) (v : Z) : keep dj v = true <-> exists w, In w dj /\ w <> v.
Proof.
  unfold keep. rewrite existsb_exists. split.
  - intros [w [Hw Hv]]. exists w. split; auto. apply negb_true_iff, Z.eqb_neq in Hv. auto.
  - intros [w [Hw Hv]]. exists w. split; auto. apply negb_true_iff, Z.eqb_neq. auto.
Qed.

(** After a revision the revised cell holds the filtered domain. *)
Lemma update_dget_si (d : doms) (si sj : cell) :
  dget (snd (update d si sj)) (fst si) (snd si)
  = filter (keep (dget d (fst sj) (snd sj))) (dget d (fst si) (snd si)).
Proof.
  rewrite update_spec. simpl. unfold dget.
  destruct (gget_gset_same d (fst si) (snd si)
              (filter (keep (gget [] d (fst sj) (snd sj))) (gget [] d (fst si) (snd si))) [])
    as [H|[H1 H2]].
  - exact H.
  - rewrite H1, H2. reflexivity.
Qed.

Lemma box_rng (row r : Z) :
  0 <= row < 9 -> In r (rng (Z.quot row 3 * 3) 3) <-> 0 <= r < 9 /\ r / 3 = row / 3.
Proof.
  intros Hrow. rewrite In_rng by lia. rewrite Z.quot_div_nonneg by lia.
  pose proof (Z.div_mod row 3 ltac:(lia)). pose proof (Z.mod_pos_bound row 3 ltac:(lia)).
  assert (0 <= row / 3 <= 2) by lia.
  split.
  - intros Hr. split; [lia|]. apply div3_iff; lia.
  - intros [Hr Hq]. apply div3_iff in Hq; lia.
Qed.

Lemma peer_cell_sym (p q : cell) :
  0 <= fst p < 9 /\ 0 <= snd p < 9 -> peer_cell p q -> peer_cell q p.
Proof.
  destruct p as [a b], q as [c e]. unfold peer_cell. simpl.
  intros [Ha Hb] [Hc [He [Hne Hp]]]. split; [lia|]. split; [lia|]. split.
  - intros E. apply Hne. inversion E. reflexivity.
  - destruct Hp as [Hp|[Hp|[Hp1 Hp2]]]; [left|right; left|right; right]; lia.
Qed.

(** * Claims *)

(** C7: [isValid board row col value] is false iff [value] already occurs in
    row [row], in column [col] or in the 3x3 box of [(row,col)], the cell
    itself included.  [isValid] is a pure function of the board: it does not
    write to it. *)
Theorem isValid_iff_occurs (b : board) (row col value : Z) :
  0 <= row < 9 -> 0 <= col < 9 ->
  (isValid b row col value = false <->
   (exists i, 0 <= i < 9 /\ (get b row i = value \/ get b i col = value)) \/
   (exists r c, 0 <= r < 9 /\ 0 <= c < 9 /\ r / 3 = row / 3 /\ c / 3 = col / 3 /\
                get b r c = value)).
Proof.
  intros Hrow Hcol. unfold isValid.
  destruct (existsb (fun i => (value =? get b i col) || (value =? get b row i)) (rng 0 9)) eqn:E1.
  - split; [intros _|reflexivity]. left.
    apply existsb_exists in E1. destruct E1 as [i [Hi Hv]]. apply In_rng in Hi; [|lia].
    exists i. split; [lia|]. apply orb_true_iff in Hv. rewrite !Z.eqb_eq in Hv. lia.
  - rewrite negb_false_iff, existsb_exists. split.
    + intros [r [Hr Hc]]. apply existsb_exists in Hc. destruct Hc as [c [Hc Hv]].
      apply box_rng in Hr; [|lia]. apply box_rng in Hc; [|lia]. apply Z.eqb_eq in Hv.
      right. exists r, c. repeat split; lia.
    + intros [[i [Hi Hv]]|[r [c [Hr [Hc [Hr3 [Hc3 Hv]]]]]]].
      * exfalso. assert (Hin : In i (rng 0 9)) by (apply In_rng; lia).
        assert (Hex : existsb (fun i => (value =? get b i col) || (value =? get b row i)) (rng 0 9) = true).
        { apply existsb_exists. exists i. split; [exact Hin|].
          apply orb_true_iff. rewrite !Z.eqb_eq. lia. }
        congruence.
      * exists r. split; [apply box_rng; lia|]. apply existsb_exists. exists c.
        split; [apply box_rng; lia|]. apply Z.eqb_eq. auto.
Qed.

(** C8: for a cell on the board, [getRelated row col []] lists exactly the
    cells sharing its row, column or box, without duplicates and without the
    cell itself; the relation is symmetric and there are at most 20 peers. *)
Theorem getRelated_exact_peers (row col : Z) :
  0 <= row < 9 -> 0 <= col < 9 ->
  (forall q, In q (getRelated row col []) <-> peer_cell (row, col) q) /\
  NoDup (getRelated row col []) /\
  ~ In (row, col) (getRelated row col []) /\
  (length (getRelated row col []) <= 20)%nat /\
  (forall r c, 0 <= r < 9 -> 0 <= c < 9 ->
     (In (r, c) (getRelated row col []) <-> In (row, col) (getRelated r c []))).
Proof.
  intros Hrow Hcol. destruct (getRelated_facts row col Hrow Hcol) as [Hq [Hnd Hlen]].
  split; [exact Hq|]. split; [exact Hnd|]. split; [|split; [exact Hlen|]].
  - intros Hin. apply Hq in Hin. destruct Hin as [_ [_ [Hne _]]]. apply Hne. reflexivity.
  - intros r c Hr Hc. destruct (getRelated_facts r c Hr Hc) as [Hq' _].
    rewrite Hq, Hq'. split; apply peer_cell_sym; simpl; lia.
Qed.

(** C1: the revision [update domains squarei squarej] keeps a value [v] of
    squarei's domain iff squarej's domain holds some value other than [v],
    and returns true iff some value was removed from squarei's domain. *)
Theorem update_revision (d : doms) (si sj : cell) :
  let '(updated, d') := update d si sj in
  (forall v, In v (dget d' (fst si) (snd si)) <->
             In v (dget d (fst si) (snd si)) /\
             exists w, In w (dget d (fst sj) (snd sj)) /\ w <> v) /\
  (updated = true <->
   exists v, In v (dget d (fst si) (snd si)) /\ ~ In v (dget d' (fst si) (snd si))).
Proof.
  pose proof (update_dget_si d si sj) as Hs.
  pose proof (update_spec d si sj) as Hu.
  destruct (update d si sj) as [updated d'] eqn:E. simpl in Hs.
  injection Hu as Hupd Hd'. cbv beta iota. split.
  - intros v. rewrite Hs, filter_In, keep_spec. reflexivity.
  - rewrite Hupd, existsb_exists. split.
    + intros [v [Hv Hk]]. exists v. split; [exact Hv|]. rewrite Hs, filter_In.
      apply negb_true_iff in Hk. rewrite Hk. intros [_ F]. discriminate.
    + intros [v [Hv Hn]]. exists v. split; [exact Hv|]. apply negb_true_iff.
      rewrite Hs, filter_In in Hn. destruct (keep _ v); tauto.
Qed.

(** C9: when AC-3 preprocessing runs (flag 1 or method 3) and [ac3] finds
    the initial domains inconsistent, [solve] returns [solved = false],
    [steps = 0] and [backtracks = 0], and no search routine is called. *)
Theorem solve_ac3_inconsistent (method emptyFinder valueOrder useAC3 runtime : Z)
  (fuel : nat) (b : board) :
  ((useAC3 =? 1) || (method =? 3)) = true ->
  fst (ac3 (initDomains b)) = false ->
  exists r, solve method emptyFinder valueOrder useAC3 runtime fuel b = Some (r, [EvAC3Preprocessing]) /\
            solved r = false /\ sr_steps r = 0 /\ sr_backtracks r = 0.
Proof.
  intros Hpre Hac. unfold solve. rewrite Hpre.
  destruct (ac3 (initDomains b)) as [ok d] eqn:E. simpl in Hac. subst ok.
  eexists. split; [reflexivity|]. repeat split.
Qed.

Lemma solve_ac3_inconsistent_witness :
  ((0 =? 1) || (3 =? 3)) = true /\ fst (ac3 (initDomains bad_board)) = false /\
  exists r, solve 3 1 1 0 0 10 bad_board = Some (r, [EvAC3Preprocessing]) /\
            solved r = false /\ sr_steps r = 0 /\ sr_backtracks r = 0.
Proof.
  split; [reflexivity|]. split; [vm_compute; reflexivity|].
  apply (solve_ac3_inconsistent 3 1 1 0 0 10 bad_board); [reflexivity | vm_compute; reflexivity].
Defined.

(** C10: on that path the result is the aggregate [{-1, -1, -1}]: its board
    has [-1] in cells (0,0), (0,1), (0,2) and [0] everywhere else, whatever
    the input grid. *)
Theorem solve_ac3_inconsistent_result (method emptyFinder valueOrder useAC3 runtime : Z)
  (fuel : nat) (b : board) :
  ((useAC3 =? 1) || (method =? 3)) = true ->
  fst (ac3 (initDomains b)) = false ->
  solve method emptyFinder valueOrder useAC3 runtime fuel b =
  Some ({| sr_board := init_minus1_board; solved := false; sr_steps := 0;
           sr_backtracks := 0; sr_runtime := 0 |}, [EvAC3Preprocessing]).
Proof.
  intros Hpre Hac. unfold solve. rewrite Hpre.
  destruct (ac3 (initDomains b)) as [ok d] eqn:E. simpl in Hac. subst ok.
  reflexivity.
Qed.

Lemma solve_ac3_inconsistent_result_witness :
  ((1 =? 1) || (1 =? 3)) = true /\ fst (ac3 (initDomains bad_board)) = false /\
  solve 1 2 2 1 0 10 bad_board =
  Some ({| sr_board := init_minus1_board; solved := false; sr_steps := 0;
           sr_backtracks := 0; sr_runtime := 0 |}, [EvAC3Preprocessing]).
Proof.
  split; [reflexivity|]. split; [vm_compute; reflexivity|].
  apply (solve_ac3_inconsistent_result 1 2 2 1 0 10 bad_board); [reflexivity | vm_compute; reflexivity].
Defined.

Lemma isValid_iff_occurs_witness :
  (0 <= 0 < 9 /\ 0 <= 0 < 9) /\
  (isValid sample_board 0 0 9 = false <->
   (exists i, 0 <= i < 9 /\ (get sample_board 0 i = 9 \/ get sample_board i 0 = 9)) \/
   (exists r c, 0 <= r < 9 /\ 0 <= c < 9 /\ r / 3 = 0 / 3 /\ c / 3 = 0 / 3 /\
                get sample_board r c = 9)).
Proof. split; [lia|]. apply isValid_iff_occurs; lia. Defined.

Lemma getRelated_exact_peers_witness :
  (0 <= 4 < 9 /\ 0 <= 7 < 9) /\
  (forall q, In q (getRelated 4 7 []) <-> peer_cell (4, 7) q) /\
  NoDup (getRelated 4 7 []) /\ ~ In (4, 7) (getRelated 4 7 []) /\
  (length (getRelated 4 7 []) <= 20)%nat /\
  (forall r c, 0 <= r < 9 -> 0 <= c < 9 ->
     (In (r, c) (getRelated 4 7 []) <-> In (4, 7) (getRelated r c []))).
Proof. split; [lia|]. apply getRelated_exact_peers; lia. Defined.

(** ** Minimum remaining values *)

Lemma cnt_bounds (b : board) (p : cell) : 0 <= cnt b p <= 9.
Proof.
  unfold cnt, findValid. split; [lia|].
  assert (H : (length (filter (fun i => isValid b (fst p) (snd p) i) (rng 1 9)) <= length (rng 1 9))%nat)
    by apply filter_length_le.
  assert (E9 : length (rng 1 9) = 9%nat) by reflexivity. lia.
Qed.

Lemma mrv_scan_early (b : board) (l : list cell) (s : Z) (sq p : cell) :
  2 <= s -> find (fun p => cnt b p <=? 1) (empties b l) = Some p ->
  mrv_scan b l s sq = p.
Proof.
  revert s sq. induction l as [|[i j] t IH]; intros s sq Hs Hf; [discriminate|].
  unfold empties in Hf. simpl in Hf |- *.
  destruct (get b i j =? 0) eqn:E; simpl in Hf |- *.
  - fold (empties b t) in Hf. unfold cnt in Hf. simpl in Hf.
    destruct (Z.of_nat (length (findValid b i j)) <=? 1) eqn:C.
    + inversion Hf. subst p. apply Z.leb_le in C.
      destruct (Z.ltb_spec (Z.of_nat (length (findValid b i j))) s); [|lia].
      destruct (Z.of_nat (length (findValid b i j))) as [|[]|] eqn:N; try lia; reflexivity.
    + apply Z.leb_gt in C. destruct (Z.ltb_spec (Z.of_nat (length (findValid b i j))) s).
      * destruct (Z.eqb_spec (Z.of_nat (length (findValid b i j))) 0); [lia|].
        destruct (Z.eqb_spec (Z.of_nat (length (findValid b i j))) 1); [lia|].
        simpl. apply IH; [lia|exact Hf].
      * apply IH; [lia|exact Hf].
  - apply IH; [lia|exact Hf].
Qed.

Lemma min_cnt_le (b : board) (l : list cell) (s : Z) : min_cnt b l s <= s.
Proof.
  unfold min_cnt. induction (empties b l) as [|p t IH]; simpl; lia.
Qed.

Lemma min_cnt_base (b : board) (l : list cell) (n s : Z) :
  n <= s -> Z.min n (min_cnt b l s) = min_cnt b l n.
Proof.
  intros Hn. unfold min_cnt. induction (empties b l) as [|p t IH]; simpl; lia.
Qed.

Lemma find_ext {A} (f g : A -> bool) (l : list A) :
  (forall x, In x l -> f x = g x) -> find f l = find g l.
Proof.
  induction l as [|x t IH]; simpl; intros H; [reflexivity|].
  rewrite (H x (or_introl eq_refl)). destruct (g x); [reflexivity|].
  apply IH. intros y Hy. apply H. right. exact Hy.
Qed.

Lemma min_cnt_attained (b : board) (l : list cell) (s : Z) :
  min_cnt b l s < s -> exists x, In x (empties b l) /\ cnt b x = min_cnt b l s.
Proof.
  unfold min_cnt. induction (empties b l) as [|p t IH]; simpl; intros H; [lia|].
  destruct (Z.le_gt_cases (cnt b p) (fold_right (fun p m => Z.min (cnt b p) m) s t)).
  - exists p. split; [left; reflexivity|]. lia.
  - destruct IH as [x [Hx Hcx]]; [lia|]. exists x. split; [right; exact Hx|]. lia.
Qed.

Lemma find_false {A} (l : list A) : find (fun _ => false) l = None.
Proof. induction l; simpl; auto. Qed.

Lemma mrv_scan_min (b : board) (l : list cell) (s : Z) (sq : cell) :
  (forall p, In p (empties b l) -> 1 < cnt b p) ->
  mrv_scan b l s sq =
  match find (fun p => (cnt b p =? min_cnt b l s) && (cnt b p <? s)) (empties b l) with
  | Some p => p
  | None => sq
  end.
Proof.
  revert s sq. induction l as [|[i j] t IH]; intros s sq Hc; [reflexivity|].
  assert (Ht : forall p, In p (empties b t) -> 1 < cnt b p).
  { intros p Hp. apply Hc. unfold empties in *. simpl.
    destruct (get b i j =? 0); [right|]; exact Hp. }
  simpl. unfold min_cnt, empties. simpl.
  destruct (get b i j =? 0) eqn:E; simpl.
  - fold (empties b t). fold (min_cnt b t s).
    assert (Hn : 1 < cnt b (i, j)).
    { apply Hc. unfold empties. simpl. rewrite E. left. reflexivity. }
    change (Z.of_nat (length (findValid b i j))) with (cnt b (i, j)).
    set (n := cnt b (i, j)) in *.
    destruct (Z.ltb_spec n s) as [Hlt|Hge].
    + destruct (Z.eqb_spec n 0); [lia|]. destruct (Z.eqb_spec n 1); [lia|]. simpl.
      rewrite (IH n (i, j) Ht). rewrite (min_cnt_base b t n s) by lia.
      pose proof (min_cnt_le b t n) as Hm.
      destruct (Z.eqb_spec n (min_cnt b t n)) as [Heq|Hne]; simpl.
      * rewrite <- Heq. rewrite (find_ext _ (fun _ => false)); [rewrite find_false; reflexivity|].
        intros x _. destruct (Z.eqb_spec (cnt b x) n) as [Ex|]; [|reflexivity]. simpl.
        rewrite Ex. apply Z.ltb_irrefl.
      * destruct (min_cnt_attained b t n ltac:(lia)) as [x [Hx Hcx]].
        rewrite (find_ext (fun p => (cnt b p =? min_cnt b t n) && (cnt b p <? s))
                          (fun p => (cnt b p =? min_cnt b t n) && (cnt b p <? n))).
        -- destruct (find _ (empties b t)) eqn:F; [reflexivity|]. exfalso.
           apply (find_none _ _ F) in Hx. rewrite Hcx, Z.eqb_refl in Hx. simpl in Hx.
           apply Z.ltb_ge in Hx. lia.
        -- intros y _. destruct (Z.eqb_spec (cnt b y) (min_cnt b t n)); simpl; [|reflexivity].
           destruct (Z.ltb_spec (cnt b y) n), (Z.ltb_spec (cnt b y) s); lia.
    + rewrite (IH s sq Ht). pose proof (min_cnt_le b t s) as Hm.
      replace (Z.min n (min_cnt b t s)) with (min_cnt b t s) by lia.
      destruct (Z.ltb_spec n s); [lia|]. rewrite andb_false_r. reflexivity.
  - fold (empties b t). fold (min_cnt b t s). apply IH. exact Ht.
Qed.

Lemma findEmptyMRV_select (b : board) : findEmptyMRV b = mrv_select b.
Proof.
  unfold findEmptyMRV, mrv_select.
  destruct (find (fun p => cnt b p <=? 1) (empties b cells81)) as [p|] eqn:F.
  - apply mrv_scan_early; [lia|exact F].
  - rewrite mrv_scan_min.
    + apply (f_equal (fun o => match o with Some p => p | None => (-1, -1) end)).
      apply find_ext. intros x _. pose proof (cnt_bounds b x).
      destruct (Z.ltb_spec (cnt b x) 10); [|lia]. apply andb_true_r.
    + intros p Hp. apply (find_none _ _ F) in Hp. apply Z.leb_gt in Hp. exact Hp.
Qed.

(** C6 (as amended): [findEmptyMRV] scans the board row by row; it returns
    the first empty cell with at most one legal value when there is one, and
    otherwise the first empty cell whose count of legal values is minimal
    (equal counts never replace it); a board without empty cells gives the
    sentinel [(-1,-1)]. *)
Theorem findEmptyMRV_selects (b : board) :
  findEmptyMRV b = mrv_select b /\
  (empties b cells81 = [] -> findEmptyMRV b = (-1, -1)).
Proof.
  split; [apply findEmptyMRV_select|]. intros E.
  rewrite findEmptyMRV_select. unfold mrv_select. rewrite E. reflexivity.
Qed.

(** C6, counterexample: cell (0,0) has one legal value and is returned at
    once, although the later empty cell (4,4) has none, so the returned cell
    does not attain the minimum count. *)
Lemma findEmptyMRV_stops_before_minimum :
  findEmptyMRV mrv_board = (0, 0) /\ cnt mrv_board (0, 0) = 1 /\
  get mrv_board 4 4 = 0 /\ cnt mrv_board (4, 4) = 0.
Proof. vm_compute. repeat split. Qed.

(** ** Least constraining value *)

Lemma findValidLCV_iter_step (b : board) (row col : Z) (vc : list (Z * Z)) (i : Z) :
  get b row col = 0 -> findValidLCV_iter row col (vc, b) i = (lcv_step b row col vc i, b).
Proof.
  intros H0. unfold findValidLCV_iter, lcv_step. destruct (isValid b row col i); simpl; [|reflexivity].
  rewrite gset_gset, (gset_restore b row col H0). reflexivity.
Qed.

Lemma findValidLCV_fold (b : board) (row col : Z) (l : list Z) (vc : list (Z * Z)) :
  get b row col = 0 ->
  fold_left (findValidLCV_iter row col) l (vc, b) = (fold_left (lcv_step b row col) l vc, b).
Proof.
  intros H0. revert vc. induction l as [|i t IH]; intros vc; [reflexivity|]. cbn [fold_left].
  rewrite (findValidLCV_iter_step b row col vc i H0). apply IH.
Qed.

Lemma insert_by_count_perm (p : Z * Z) (vc : list (Z * Z)) :
  Permutation (insert_by_count p vc) (p :: vc).
Proof.
  induction vc as [|q t IH]; simpl; [reflexivity|].
  destruct (snd q <=? snd p); [|reflexivity].
  rewrite IH. apply perm_swap.
Qed.

Lemma lex_trans (x y z : Z * Z) : lex x y -> lex y z -> lex x z.
Proof. unfold lex. lia. Qed.

Lemma insert_by_count_sorted (p : Z * Z) (vc : list (Z * Z)) :
  StronglySorted lex vc -> (forall q, In q vc -> fst q < fst p) ->
  StronglySorted lex (insert_by_count p vc).
Proof.
  induction vc as [|q t IH]; simpl; intros Hs Hlt.
  - repeat constructor.
  - apply StronglySorted_inv in Hs as [Hs Hf].
    destruct (Z.leb_spec (snd q) (snd p)).
    + constructor.
      * apply IH; [exact Hs|]. intros x Hx. apply Hlt. right. exact Hx.
      * apply Forall_forall. intros x Hx.
        apply (Permutation_in _ (insert_by_count_perm p t)) in Hx. destruct Hx as [<-|Hx].
        -- specialize (Hlt q (or_introl eq_refl)). unfold lex. lia.
        -- rewrite Forall_forall in Hf. apply Hf. exact Hx.
    + constructor; [constructor; assumption|]. constructor.
      * unfold lex. lia.
      * rewrite Forall_forall in Hf |- *. intros x Hx. apply (lex_trans _ q); [unfold lex; lia|].
        apply Hf. exact Hx.
Qed.

Lemma rng_1_9_sorted : StronglySorted Z.lt (rng 1 9).
Proof. vm_compute. repeat constructor; lia. Qed.

Lemma lcv_fold_props (b : board) (row col : Z) (l : list Z) (vc : list (Z * Z)) :
  StronglySorted Z.lt l ->
  StronglySorted lex vc ->
  (forall q, In q vc -> snd q = lcv_key b row col (fst q)) ->
  (forall q i, In q vc -> In i l -> fst q < i) ->
  let vc' := fold_left (lcv_step b row col) l vc in
  StronglySorted lex vc' /\
  (forall q, In q vc' -> snd q = lcv_key b row col (fst q)) /\
  Permutation (map fst vc') (map fst vc ++ filter (isValid b row col) l).
Proof.
  revert vc. induction l as [|i t IH]; intros vc Hl Hs Hk Hlt; simpl.
  - rewrite app_nil_r. auto.
  - apply StronglySorted_inv in Hl as [Hl Hf]. rewrite Forall_forall in Hf.
    destruct (isValid b row col i) eqn:V;
      [replace (lcv_step b row col vc i) with (insert_by_count (i, lcv_key b row col i) vc)
         by (unfold lcv_step; rewrite V; reflexivity)
      |replace (lcv_step b row col vc i) with vc by (unfold lcv_step; rewrite V; reflexivity)].
    + set (vc1 := insert_by_count (i, lcv_key b row col i) vc).
      assert (Hp : Permutation vc1 ((i, lcv_key b row col i) :: vc)) by apply insert_by_count_perm.
      destruct (IH vc1 Hl) as [H1 [H2 H3]].
      * apply insert_by_count_sorted; [exact Hs|]. intros q Hq. apply (Hlt q i Hq). left. reflexivity.
      * intros q Hq. apply (Permutation_in _ Hp) in Hq. destruct Hq as [<-|Hq]; [reflexivity|auto].
      * intros q j Hq Hj. apply (Permutation_in _ Hp) in Hq. destruct Hq as [<-|Hq].
        -- apply Hf. exact Hj.
        -- apply Hlt; [exact Hq|right; exact Hj].
      * split; [exact H1|]. split; [exact H2|]. rewrite H3.
        rewrite (Permutation_map fst Hp). simpl.
        rewrite <- Permutation_middle. reflexivity.
    + destruct (IH vc Hl Hs Hk) as [H1 [H2 H3]].
      * intros q j Hq Hj. apply Hlt; [exact Hq|right; exact Hj].
      * auto.
Qed.

Lemma StronglySorted_map_rel {A B} (R : A -> A -> Prop) (R' : B -> B -> Prop) (f : A -> B) (l : list A) :
  (forall x y, In x l -> In y l -> R x y -> R' (f x) (f y)) ->
  StronglySorted R l -> StronglySorted R' (map f l).
Proof.
  induction l as [|x t IH]; simpl; intros HR Hs; constructor.
  - apply StronglySorted_inv in Hs as [Hs _]. apply IH; [|exact Hs].
    intros a c Ha Hc. apply HR; right; assumption.
  - apply StronglySorted_inv in Hs as [_ Hf]. rewrite Forall_forall in Hf |- *.
    intros y Hy. apply in_map_iff in Hy. destruct Hy as [z [<- Hz]].
    apply HR; [left; reflexivity|right; exact Hz|]. apply Hf. exact Hz.
Qed.

Lemma findValid_NoDup (b : board) (row col : Z) : NoDup (findValid b row col).
Proof.
  unfold findValid. apply NoDup_filter. unfold rng. apply NoDup_map_inv with (f := Z.to_nat).
  replace (map Z.to_nat (map (fun k => 1 + Z.of_nat k) (seq 0 (Z.to_nat 9)))) with (seq 1 9)
    by reflexivity.
  apply seq_NoDup.
Qed.

(** C5 (what the code does): on an empty cell, [findValidLCV] yields each
    legal value of the cell once, sorted ascending by the count of legal
    values left in the other empty cells of the row, of the column and of the
    box, each unit counted on its own (a cell in the box and in the row or
    column is counted twice), ties in ascending value order; the board is
    left as it was. *)
Theorem findValidLCV_unit_counts (b : board) (row col : Z) :
  get b row col = 0 ->
  let '(vals, b') := findValidLCV b row col in
  b' = b /\ Permutation vals (findValid b row col) /\ NoDup vals /\
  StronglySorted (lcv_before b row col) vals.
Proof.
  intros H0. unfold findValidLCV. rewrite (findValidLCV_fold b row col (rng 1 9) [] H0).
  destruct (lcv_fold_props b row col (rng 1 9) [] rng_1_9_sorted ltac:(constructor)
              ltac:(intros q []) ltac:(intros q i [])) as [H1 [H2 H3]].
  cbv zeta in H1, H2, H3. simpl in H3.
  assert (Hp : Permutation (map fst (fold_left (lcv_step b row col) (rng 1 9) [])) (findValid b row col))
    by exact H3.
  split; [reflexivity|]. split; [exact Hp|]. split.
  - apply (Permutation_NoDup (Permutation_sym Hp)). apply findValid_NoDup.
  - apply (StronglySorted_map_rel lex); [|exact H1].
    intros x y Hx Hy Hxy. unfold lex, lcv_before in *. rewrite <- (H2 x Hx), <- (H2 y Hy). exact Hxy.
Qed.

Lemma findValidLCV_unit_counts_witness :
  get sample_board 0 0 = 0 /\
  let '(vals, b') := findValidLCV sample_board 0 0 in
  b' = sample_board /\ Permutation vals (findValid sample_board 0 0) /\ NoDup vals /\
  StronglySorted (lcv_before sample_board 0 0) vals.
Proof. split; [reflexivity|]. apply findValidLCV_unit_counts. reflexivity. Defined.

(** C5, counterexample: at cell (0,0) of [sample_board] the legal values
    are 1 and 3.  Counting each empty peer once, both leave 5 legal values
    to the neighbours, so the claimed ordering (ties by value) is [1; 3];
    the code's per-unit sums count a box cell that shares the row twice and
    give 6 for 1 and 5 for 3, so it returns [3; 1].  Value 3 is also the
    more constraining one: it leaves two empty peers with no legal value,
    where 1 leaves none.  On a filled cell the call resets the cell to 0. *)
Lemma findValidLCV_double_counts :
  fst (findValidLCV sample_board 0 0) = [3; 1] /\
  findValidLCV_claimed sample_board 0 0 = [1; 3] /\
  lcv_key sample_board 0 0 1 = 6 /\ lcv_key sample_board 0 0 3 = 5 /\
  lcv_peer_count sample_board 0 0 1 = 5 /\ lcv_peer_count sample_board 0 0 3 = 5 /\
  lcv_blocked_peers sample_board 0 0 1 = 0%nat /\ lcv_blocked_peers sample_board 0 0 3 = 2%nat /\
  snd (findValidLCV filled_board 0 0) <> filled_board.
Proof.
  repeat (split; [vm_compute; reflexivity|]).
  vm_compute. discriminate.
Qed.

(** ** AC-3 *)

Lemma filter_all {A} (f : A -> bool) (l : list A) :
  existsb (fun i => negb (f i)) l = false -> filter f l = l.
Proof.
  induction l as [|x t IH]; simpl; intros H; [reflexivity|].
  apply orb_false_iff in H as [H1 H2]. apply negb_false_iff in H1. rewrite H1, IH; auto.
Qed.

Lemma filter_length_lt {A} (f : A -> bool) (l : list A) :
  existsb (fun i => negb (f i)) l = true -> (length (filter f l) < length l)%nat.
Proof.
  induction l as [|x t IH]; simpl; intros H; [discriminate|].
  pose proof (filter_length_le f t).
  destruct (f x); simpl in H |- *; [apply IH in H; lia|lia].
Qed.

Lemma update_false_same (d : doms) (si sj : cell) :
  fst (update d si sj) = false -> snd (update d si sj) = d.
Proof.
  rewrite update_spec. simpl. intros H. rewrite (filter_all _ _ H). unfold dget. apply gset_gget.
Qed.

Lemma update_shrinks (d : doms) (si sj : cell) (r c : Z) :
  incl (dget (snd (update d si sj)) r c) (dget d r c).
Proof.
  rewrite update_spec. simpl. unfold dget.
  destruct (gget_gset d (fst si) (snd si)
              (filter (keep (gget [] d (fst sj) (snd sj))) (gget [] d (fst si) (snd si))) r c [])
    as [E|[E1 [E2 E3]]].
  - rewrite E. apply incl_refl.
  - rewrite E3. replace (gget [] d r c) with (gget [] d (fst si) (snd si))
      by (unfold gget; rewrite E1, E2; reflexivity).
    intros x Hx. apply filter_In in Hx. apply Hx.
Qed.

Lemma update_other (d : doms) (si sj x : cell) :
  0 <= fst si -> 0 <= snd si -> 0 <= fst x -> 0 <= snd x -> x <> si ->
  dget (snd (update d si sj)) (fst x) (snd x) = dget d (fst x) (snd x).
Proof.
  intros. rewrite update_spec. simpl. unfold dget. apply gget_gset_in_range; try assumption.
  destruct si, x. simpl. intros E. inversion E. subst. auto.
Qed.

(** A revision that leaves the revised domain non-empty empties no domain. *)
Lemma update_no_new_empty (d : doms) (si sj : cell) (r c : Z) :
  dget (snd (update d si sj)) (fst si) (snd si) <> [] ->
  dget (snd (update d si sj)) r c = [] -> dget d r c = [].
Proof.
  intros Hne Hn. pose proof (update_dget_si d si sj) as Hs.
  rewrite update_spec in Hs, Hne, Hn. simpl in Hs, Hne, Hn. unfold dget in *.
  destruct (gget_gset d (fst si) (snd si)
              (filter (keep (gget [] d (fst sj) (snd sj))) (gget [] d (fst si) (snd si))) r c [])
    as [E|[E1 [E2 E3]]].
  - rewrite <- E. exact Hn.
  - exfalso. apply Hne. rewrite Hs, <- E3. exact Hn.
Qed.

Lemma sumf_set_nth {A} (f : A -> nat) (l : list A) n x dflt :
  (n < length l)%nat -> (sumf f (set_nth l n x) + f (nth n l dflt) = sumf f l + f x)%nat.
Proof.
  revert n. induction l as [|a t IH]; intros n Hn; simpl in Hn; [lia|].
  destruct n; simpl; [lia|]. specialize (IH n ltac:(lia)). lia.
Qed.

Lemma total_gset (d : doms) (r c : Z) (x : list Z) :
  (total_size (gset d r c x) + length (dget d r c) = total_size d + length x)%nat \/
  (gset d r c x = d /\ dget d r c = []).
Proof.
  unfold total_size, gset, dget, gget.
  destruct (Nat.lt_ge_cases (Z.to_nat r) (length d)) as [Hr|Hr].
  - destruct (Nat.lt_ge_cases (Z.to_nat c) (length (nth (Z.to_nat r) d []))) as [Hc|Hc].
    + left. pose proof (sumf_set_nth (sumf (@length Z)) d (Z.to_nat r)
                          (set_nth (nth (Z.to_nat r) d []) (Z.to_nat c) x) [] Hr) as H1.
      pose proof (sumf_set_nth (@length Z) (nth (Z.to_nat r) d []) (Z.to_nat c) x [] Hc) as H2.
      lia.
    + right. rewrite (set_nth_oob (nth _ d [])) by exact Hc. rewrite set_nth_nth.
      split; [reflexivity|]. apply nth_overflow. exact Hc.
  - right. rewrite set_nth_oob by exact Hr. split; [reflexivity|].
    rewrite (nth_overflow d) by exact Hr. destruct (Z.to_nat c); reflexivity.
Qed.

Lemma update_total (d : doms) (si sj : cell) :
  (total_size (snd (update d si sj)) <= total_size d)%nat /\
  (fst (update d si sj) = true -> (total_size (snd (update d si sj)) < total_size d)%nat).
Proof.
  rewrite update_spec. simpl.
  set (old := dget d (fst si) (snd si)). set (k := keep (dget d (fst sj) (snd sj))).
  pose proof (filter_length_le k old).
  destruct (total_gset d (fst si) (snd si) (filter k old)) as [E|[E1 E2]].
  - fold old in E. split; [lia|]. intros H1. apply filter_length_lt in H1. lia.
  - rewrite E1. split; [lia|]. fold old in E2. rewrite E2. discriminate.
Qed.

Lemma fold_left_length_le {A B} (f : list A -> B -> list A) (k : nat) (l : list B) (acc : list A) :
  (forall acc x, (length (f acc x) <= length acc + k)%nat) ->
  (length (fold_left f l acc) <= length acc + k * length l)%nat.
Proof.
  intros Hf. revert acc. induction l as [|x t IH]; intros acc; simpl; [lia|].
  specialize (IH (f acc x)). specialize (Hf acc x). lia.
Qed.

Lemma rng_length (a n : Z) : length (rng a n) = Z.to_nat n.
Proof. unfold rng. rewrite length_map, length_seq. reflexivity. Qed.

Lemma getRelated_length (row col : Z) : (length (getRelated row col []) <= 27)%nat.
Proof.
  unfold getRelated.
  assert (H1 : (length (fold_left (related_rowcol_step row col) (rng 0 9) []) <= 18)%nat).
  { pose proof (fold_left_length_le (related_rowcol_step row col) 2 (rng 0 9) []) as H.
    rewrite rng_length in H. change (Z.to_nat 9) with 9%nat in H. simpl length in H.
    refine (Nat.le_trans _ _ _ (H _) _); [|lia].
    intros acc i. unfold related_rowcol_step.
    destruct (negb (i =? col)), (negb (i =? row)); rewrite ?length_app; simpl; lia. }
  pose proof (fold_left_length_le (related_box_row row col) 3 (rng (Z.quot row 3 * 3) 3)
                (fold_left (related_rowcol_step row col) (rng 0 9) [])) as H2.
  rewrite rng_length in H2. change (Z.to_nat 3) with 3%nat in H2.
  refine (Nat.le_trans _ _ _ (H2 _) _); [|lia].
  intros acc i. unfold related_box_row.
  pose proof (fold_left_length_le (fun acc j => related_box_step row col acc i j)
                1 (rng (Z.quot col 3 * 3) 3) acc) as H3.
  rewrite rng_length in H3. change (Z.to_nat 3) with 3%nat in H3.
  refine (Nat.le_trans _ _ _ (H3 _) _); [|lia].
  intros acc' j. unfold related_box_step.
  destruct ((i =? row) && (j =? col)); [lia|].
  destruct (existsb (fun sq => (fst sq =? i) && (snd sq =? j)) acc'); [lia|].
  rewrite length_app. simpl. lia.
Qed.

Lemma readd_arcs_length (si : cell) : (length (readd_arcs si) <= 27)%nat.
Proof.
  unfold readd_arcs. rewrite length_map.
  etransitivity; [apply filter_length_le|]. apply getRelated_length.
Qed.

(** The fuel of [ac3] suffices: the loop never runs out of it. *)
Lemma ac3_loop_total (fuel : nat) (d : doms) (q : list (cell * cell)) :
  (length q + 28 * total_size d < fuel)%nat -> ac3_loop fuel d q <> None.
Proof.
  revert d q. induction fuel as [|f IH]; intros d q Hf; [lia|].
  destruct q as [|[si sj] q']; simpl; [discriminate|].
  pose proof (update_total d si sj) as [Ht1 Ht2].
  pose proof (update_false_same d si sj) as Hsame.
  destruct (update d si sj) as [upd d1]. simpl in *.
  destruct upd.
  - destruct (dget d1 (fst si) (snd si)); [discriminate|].
    apply IH. rewrite length_app. pose proof (readd_arcs_length si).
    specialize (Ht2 eq_refl). simpl in Hf. lia.
  - apply IH. rewrite (Hsame eq_refl). simpl in Hf. lia.
Qed.

Lemma update_true_nonempty (d : doms) (si sj : cell) :
  fst (update d si sj) = true -> dget d (fst si) (snd si) <> [].
Proof.
  rewrite update_spec. simpl. intros H E. rewrite E in H. discriminate.
Qed.

(** Domains only shrink over a run of the loop, an inconsistent result comes
    with a domain emptied by the run, and a consistent one empties none. *)
Lemma ac3_loop_sound (fuel : nat) (d : doms) (q : list (cell * cell)) (res : bool) (d' : doms) :
  ac3_loop fuel d q = Some (res, d') ->
  (forall r c, incl (dget d' r c) (dget d r c)) /\
  (res = false -> exists r c, dget d' r c = [] /\ dget d r c <> []) /\
  (res = true -> forall r c, dget d' r c = [] -> dget d r c = []).
Proof.
  revert d q. induction fuel as [|f IH]; intros d q Hrun; [discriminate|].
  destruct q as [|[si sj] q']; simpl in Hrun.
  - inversion Hrun; subst. split; [intros; apply incl_refl|]. split; [discriminate|auto].
  - pose proof (update_shrinks d si sj) as Hsh.
    pose proof (update_false_same d si sj) as Hsame.
    pose proof (update_true_nonempty d si sj) as Hne.
    pose proof (update_no_new_empty d si sj) as Hnn.
    destruct (update d si sj) as [upd d1]. simpl in *.
    destruct upd.
    + destruct (dget d1 (fst si) (snd si)) as [|v vs] eqn:E.
      * inversion Hrun; subst. split; [exact Hsh|]. split; [|discriminate].
        intros _. exists (fst si), (snd si). split; [exact E|]. apply Hne. reflexivity.
      * destruct (IH d1 _ Hrun) as [H1 [H2 H3]]. split; [|split].
        -- intros r c. eapply incl_tran; [apply H1|apply Hsh].
        -- intros Hf. destruct (H2 Hf) as [r [c [Hr Hc]]]. exists r, c. split; [exact Hr|].
           intros Hd. apply Hc. apply incl_l_nil. rewrite <- Hd. apply Hsh.
        -- intros Ht r c Hr. apply (Hnn r c ltac:(discriminate)). apply H3; assumption.
    + rewrite (Hsame eq_refl) in Hrun. apply (IH d _ Hrun).
Qed.

Lemma arcs0_spec (a b : cell) :
  In (a, b) arcs0 <-> In a cells81 /\ In b (getRelated (fst a) (snd a) []).
Proof.
  unfold arcs0. rewrite in_flat_map. split.
  - intros [p [Hp Hab]]. apply in_map_iff in Hab. destruct Hab as [x [E Hx]].
    inversion E; subst. auto.
  - intros [Ha Hb]. exists a. split; [exact Ha|]. apply in_map. exact Hb.
Qed.

Lemma arcs0_peer (a b : cell) :
  In (a, b) arcs0 -> 0 <= fst a < 9 /\ 0 <= snd a < 9 /\ peer_cell a b.
Proof.
  intros H. apply arcs0_spec in H as [Ha Hb]. apply cells81_range in Ha.
  destruct a as [r c]. simpl in *. destruct (getRelated_facts r c ltac:(lia) ltac:(lia)) as [Hq _].
  apply Hq in Hb. split; [lia|split; [lia|exact Hb]].
Qed.

Lemma consistent_update_false (d : doms) (a b : cell) :
  arc_consistent d a b -> update d a b = (false, d).
Proof.
  intros Hc. pose proof (update_false_same d a b) as Hs. rewrite update_spec in Hs |- *.
  assert (E : existsb (fun i => negb (keep (dget d (fst b) (snd b)) i)) (dget d (fst a) (snd a)) = false).
  { apply not_true_iff_false. intros Hx. apply existsb_exists in Hx. destruct Hx as [v [Hv Hk]].
    apply negb_true_iff in Hk. destruct (Hc v Hv) as [w Hw].
    assert (Hk' : keep (dget d (fst b) (snd b)) v = true) by (apply keep_spec; exists w; exact Hw).
    congruence. }
  rewrite E in Hs |- *. simpl in Hs. rewrite Hs by reflexivity. reflexivity.
Qed.

Lemma update_false_consistent (d : doms) (a b : cell) :
  fst (update d a b) = false -> arc_consistent d a b.
Proof.
  rewrite update_spec. simpl. intros H v Hv. apply keep_spec.
  destruct (keep (dget d (fst b) (snd b)) v) eqn:K; [reflexivity|].
  exfalso. assert (Hx : existsb (fun i => negb (keep (dget d (fst b) (snd b)) i)) (dget d (fst a) (snd a)) = true).
  { apply existsb_exists. exists v. rewrite K. auto. }
  congruence.
Qed.

Lemma ac3_inv_step (d : doms) (si sj : cell) (q' : list (cell * cell)) :
  ac3_inv d ((si, sj) :: q') ->
  fst (update d si sj) = true ->
  ac3_inv (snd (update d si sj)) (q' ++ readd_arcs si).
Proof.
  intros [Hinv Hrange] Hupd.
  destruct (Hrange si sj (or_introl eq_refl)) as [Hsi1 Hsi2].
  set (d1 := snd (update d si sj)).
  assert (Hin1 : forall x y, In (x, y) (readd_arcs si) -> y = si /\ In x (getRelated (fst si) (snd si) []) /\ x <> si).
  { intros x y H. unfold readd_arcs in H. apply in_map_iff in H. destruct H as [z [E Hz]].
    inversion E; subst. apply filter_In in Hz. destruct Hz as [Hz Hne]. split; [reflexivity|].
    split; [exact Hz|]. intros ->. rewrite !Z.eqb_refl in Hne. discriminate. }
  split.
  - intros a b Hab. destruct (arcs0_peer a b Hab) as [Ha1 [Ha2 [Hb1 [Hb2 [Hab' _]]]]].
    destruct (Hinv a b Hab) as [[E|Hq]|Hc].
    + inversion E; subst. right. intros v Hv. unfold d1 in Hv |- *.
      rewrite update_dget_si in Hv. apply filter_In in Hv as [_ Hv]. apply keep_spec in Hv.
      rewrite update_other; try lia; auto.
    + left. apply in_or_app. left. exact Hq.
    + destruct (cell_eq_dec a si) as [->|Hasi].
      * right. intros v Hv. unfold d1 in Hv |- *. rewrite update_other; try lia; auto.
        apply Hc. apply (update_shrinks d si sj). exact Hv.
      * destruct (cell_eq_dec b si) as [->|Hbsi].
        -- left. apply in_or_app. right. unfold readd_arcs. apply in_map_iff. exists a.
           split; [reflexivity|]. apply filter_In. split.
           ++ destruct (getRelated_facts (fst si) (snd si) ltac:(lia) ltac:(lia)) as [Hq _].
              apply Hq. destruct (arcs0_peer a si Hab) as [Hr1 [Hr2 Hp]].
              apply peer_cell_sym; [lia|destruct si; exact Hp].
           ++ apply negb_true_iff. apply not_true_iff_false. rewrite andb_true_iff, !Z.eqb_eq.
              intros [E1 E2]. apply Hasi. destruct a as [a1 a2], si as [s1 s2].
              cbn [fst snd] in E1, E2. subst. reflexivity.
        -- right. intros v Hv. unfold d1 in Hv |- *. rewrite update_other in Hv |- *; try lia; auto.
  - intros x y Hxy. apply in_app_or in Hxy as [Hxy|Hxy].
    + apply (Hrange x y). right. exact Hxy.
    + destruct (Hin1 x y Hxy) as [_ [Hx _]].
      destruct (getRelated_facts (fst si) (snd si) ltac:(lia) ltac:(lia)) as [Hq _].
      apply Hq in Hx. destruct Hx as [Hx1 [Hx2 _]]. lia.
Qed.

Lemma ac3_inv_skip (d : doms) (si sj : cell) (q' : list (cell * cell)) :
  ac3_inv d ((si, sj) :: q') ->
  fst (update d si sj) = false ->
  ac3_inv d q'.
Proof.
  intros [Hinv Hrange] Hupd. split.
  - intros a b Hab. destruct (Hinv a b Hab) as [[E|Hq]|Hc].
    + inversion E; subst. right. apply update_false_consistent. exact Hupd.
    + left. exact Hq.
    + right. exact Hc.
  - intros x y Hxy. apply (Hrange x y). right. exact Hxy.
Qed.

Lemma ac3_inv_init (d : doms) : ac3_inv d arcs0.
Proof.
  split.
  - intros a b Hab. left. exact Hab.
  - intros x y Hxy. destruct (arcs0_peer x y Hxy) as [H1 [H2 _]]. split; assumption.
Qed.

(** A consistent end of the loop leaves every arc of [arcs0] consistent. *)
Lemma ac3_loop_fixpoint (fuel : nat) (d : doms) (q : list (cell * cell)) (d' : doms) :
  ac3_inv d q -> ac3_loop fuel d q = Some (true, d') ->
  forall a b, In (a, b) arcs0 -> arc_consistent d' a b.
Proof.
  revert d q. induction fuel as [|f IH]; intros d q Hinv Hrun; [discriminate|].
  destruct q as [|[si sj] q']; simpl in Hrun.
  - inversion Hrun; subst. intros a b Hab. destruct Hinv as [Hi _].
    destruct (Hi a b Hab) as [[]|Hc]. exact Hc.
  - pose proof (ac3_inv_step d si sj q' Hinv) as Hst.
    pose proof (ac3_inv_skip d si sj q' Hinv) as Hsk.
    pose proof (update_false_same d si sj) as Hsame.
    destruct (update d si sj) as [upd d1]. simpl in *.
    destruct upd.
    + destruct (dget d1 (fst si) (snd si)); [discriminate|].
      exact (IH d1 _ (Hst eq_refl) Hrun).
    + rewrite (Hsame eq_refl) in Hrun. exact (IH d q' (Hsk eq_refl) Hrun).
Qed.

Lemma ac3_run (d : doms) : ac3_loop (ac3_fuel d arcs0) d arcs0 = Some (ac3 d).
Proof.
  unfold ac3. destruct (ac3_loop (ac3_fuel d arcs0) d arcs0) eqn:E; [reflexivity|].
  exfalso. apply (ac3_loop_total (ac3_fuel d arcs0) d arcs0); [unfold ac3_fuel; lia|exact E].
Qed.

(** C4: across a run of [ac3] every domain only shrinks, also after each single
    revision; [ac3] reports inconsistency exactly when the run empties a domain
    that was not empty; the loop stops at the revision that empties a domain,
    returning that store; a consistent result is a fixed point: revising any
    arc of the initial queue changes nothing. *)
Theorem ac3_shrinks_and_detects (d : doms) :
  (forall r c, incl (dget (snd (ac3 d)) r c) (dget d r c)) /\
  (fst (ac3 d) = false <-> exists r c, dget (snd (ac3 d)) r c = [] /\ dget d r c <> []) /\
  (fst (ac3 d) = true -> forall a b, In (a, b) arcs0 -> update (snd (ac3 d)) a b = (false, snd (ac3 d))) /\
  (forall d0 si sj r c, incl (dget (snd (update d0 si sj)) r c) (dget d0 r c)) /\
  (forall f d0 si sj q d1, update d0 si sj = (true, d1) -> dget d1 (fst si) (snd si) = [] ->
     ac3_loop (S f) d0 ((si, sj) :: q) = Some (false, d1)).
Proof.
  pose proof (ac3_run d) as Hrun. destruct (ac3 d) as [ok d'] eqn:Hac. cbn [fst snd].
  destruct (ac3_loop_sound _ _ _ _ _ Hrun) as [H1 [H2 H3]].
  split; [exact H1|]. split; [|split; [|split]].
  - split; [exact H2|]. intros [r [c [Hr Hc]]]. destruct ok; [|reflexivity].
    exfalso. apply Hc. apply (H3 eq_refl r c Hr).
  - intros -> a b Hab. apply consistent_update_false.
    exact (ac3_loop_fixpoint _ _ _ _ (ac3_inv_init d) Hrun a b Hab).
  - intros d0 si sj r c. apply update_shrinks.
  - intros f d0 si sj q d1 Hu He. simpl. rewrite Hu, He. reflexivity.
Qed.

(** ** Cell finders: the sentinel means a full board, a cell is empty *)

Lemma sentinel_not_cell (p : cell) : In p cells81 -> is_sentinel p = false.
Proof.
  intros H. apply cells81_range in H as [H1 _]. unfold is_sentinel.
  destruct (Z.eqb_spec (fst p) (-1)); [lia|reflexivity].
Qed.

Lemma findEmpty_facts (b : board) :
  (is_sentinel (findEmpty b) = true -> no_zeros b) /\
  (is_sentinel (findEmpty b) = false -> get b (fst (findEmpty b)) (snd (findEmpty b)) = 0).
Proof.
  unfold findEmpty. destruct (find (fun p => get b (fst p) (snd p) =? 0) cells81) as [p|] eqn:F.
  - apply find_some in F as [Hin Hg]. rewrite (sentinel_not_cell p Hin).
    split; [discriminate|]. intros _. apply Z.eqb_eq. exact Hg.
  - split; [|discriminate]. intros _ r c Hr Hc E.
    pose proof (find_none _ _ F (r, c) (in_cells81 r c Hr Hc)) as H. simpl in H.
    rewrite E in H. discriminate.
Qed.

Lemma mrv_scan_in (b : board) (cs : list cell) (s : Z) (sq : cell) :
  mrv_scan b cs s sq = sq \/
  (In (mrv_scan b cs s sq) cs /\ get b (fst (mrv_scan b cs s sq)) (snd (mrv_scan b cs s sq)) = 0).
Proof.
  revert s sq. induction cs as [|[i j] t IH]; intros s sq; simpl; [auto|].
  destruct (get b i j =? 0) eqn:G; simpl.
  - destruct (Z.of_nat (length (findValid b i j)) <? s).
    + destruct (_ || _).
      * right. simpl. split; [left; reflexivity|apply Z.eqb_eq; exact G].
      * destruct (IH (Z.of_nat (length (findValid b i j))) (i, j)) as [E|[Hin Hg]].
        -- right. rewrite E. simpl. split; [left; reflexivity|apply Z.eqb_eq; exact G].
        -- right. auto.
    + destruct (IH s sq) as [E|[Hin Hg]]; auto.
  - destruct (IH s sq) as [E|[Hin Hg]]; auto.
Qed.

Lemma mrv_scan_found (b : board) (cs : list cell) (s : Z) (sq : cell) :
  (exists p, In p cs /\ get b (fst p) (snd p) = 0 /\ cnt b p < s) ->
  In (mrv_scan b cs s sq) cs /\ get b (fst (mrv_scan b cs s sq)) (snd (mrv_scan b cs s sq)) = 0.
Proof.
  revert s sq. induction cs as [|[i j] t IH]; intros s sq [p [Hp [Hg Hs]]]; [destruct Hp|].
  simpl. destruct (get b i j =? 0) eqn:G; simpl.
  - destruct (Z.ltb_spec (Z.of_nat (length (findValid b i j))) s) as [Lt|Ge].
    + destruct (_ || _).
      * simpl. split; [left; reflexivity|apply Z.eqb_eq; exact G].
      * destruct (mrv_scan_in b t (Z.of_nat (length (findValid b i j))) (i, j)) as [E|[Hin Hg']].
        -- rewrite E. simpl. split; [left; reflexivity|apply Z.eqb_eq; exact G].
        -- auto.
    + destruct Hp as [E|Hp].
      * subst p. unfold cnt in Hs. simpl in Hs. lia.
      * destruct (IH s sq) as [Hin Hg']; [exists p; auto|]. auto.
  - destruct Hp as [E|Hp].
    + subst p. simpl in Hg. rewrite Hg in G. discriminate.
    + destruct (IH s sq) as [Hin Hg']; [exists p; auto|]. auto.
Qed.

Lemma findEmptyMRV_facts (b : board) :
  (is_sentinel (findEmptyMRV b) = true -> no_zeros b) /\
  (is_sentinel (findEmptyMRV b) = false -> get b (fst (findEmptyMRV b)) (snd (findEmptyMRV b)) = 0).
Proof.
  unfold findEmptyMRV. split.
  - intros Hs r c Hr Hc E.
    destruct (mrv_scan_found b cells81 10 (-1, -1)) as [Hin _].
    + exists (r, c). split; [apply in_cells81; assumption|]. split; [exact E|].
      pose proof (cnt_bounds b (r, c)). lia.
    + rewrite (sentinel_not_cell _ Hin) in Hs. discriminate.
  - intros Hs. destruct (mrv_scan_in b cells81 10 (-1, -1)) as [E|[_ Hg]]; [|exact Hg].
    rewrite E in Hs. discriminate.
Qed.

Lemma mrv_mac_scan_in (b : board) (d : doms) (cs : list cell) (s : Z) (sq : cell) :
  mrv_mac_scan b d cs s sq = sq \/
  (In (mrv_mac_scan b d cs s sq) cs /\
   get b (fst (mrv_mac_scan b d cs s sq)) (snd (mrv_mac_scan b d cs s sq)) = 0).
Proof.
  revert s sq. induction cs as [|[i j] t IH]; intros s sq; simpl; [auto|].
  destruct (get b i j =? 0) eqn:G; simpl.
  - destruct (Z.of_nat (length (dget d i j)) <? s).
    + destruct (_ || _).
      * right. simpl. split; [left; reflexivity|apply Z.eqb_eq; exact G].
      * destruct (IH (Z.of_nat (length (dget d i j))) (i, j)) as [E|[Hin Hg]].
        -- right. rewrite E. simpl. split; [left; reflexivity|apply Z.eqb_eq; exact G].
        -- right. auto.
    + destruct (IH s sq) as [E|[Hin Hg]]; auto.
  - destruct (IH s sq) as [E|[Hin Hg]]; auto.
Qed.

Lemma mrv_mac_scan_found (b : board) (d : doms) (cs : list cell) (s : Z) (sq : cell) :
  (exists p, In p cs /\ get b (fst p) (snd p) = 0 /\ Z.of_nat (length (dget d (fst p) (snd p))) < s) ->
  In (mrv_mac_scan b d cs s sq) cs /\
  get b (fst (mrv_mac_scan b d cs s sq)) (snd (mrv_mac_scan b d cs s sq)) = 0.
Proof.
  revert s sq. induction cs as [|[i j] t IH]; intros s sq [p [Hp [Hg Hs]]]; [destruct Hp|].
  simpl. destruct (get b i j =? 0) eqn:G; simpl.
  - destruct (Z.ltb_spec (Z.of_nat (length (dget d i j))) s) as [Lt|Ge].
    + destruct (_ || _).
      * simpl. split; [left; reflexivity|apply Z.eqb_eq; exact G].
      * destruct (mrv_mac_scan_in b d t (Z.of_nat (length (dget d i j))) (i, j)) as [E|[Hin Hg']].
        -- rewrite E. simpl. split; [left; reflexivity|apply Z.eqb_eq; exact G].
        -- auto.
    + destruct Hp as [E|Hp].
      * subst p. simpl in Hs. lia.
      * destruct (IH s sq) as [Hin Hg']; [exists p; auto|]. auto.
  - destruct Hp as [E|Hp].
    + subst p. simpl in Hg. rewrite Hg in G. discriminate.
    + destruct (IH s sq) as [Hin Hg']; [exists p; auto|]. auto.
Qed.

Lemma findEmptyMRVMAC_facts (b : board) (d : doms) :
  ((forall r c, (length (dget d r c) <= 9)%nat) ->
   is_sentinel (findEmptyMRVMAC b d) = true -> no_zeros b) /\
  (is_sentinel (findEmptyMRVMAC b d) = false ->
   get b (fst (findEmptyMRVMAC b d)) (snd (findEmptyMRVMAC b d)) = 0).
Proof.
  unfold findEmptyMRVMAC. split.
  - intros Hd Hs r c Hr Hc E.
    destruct (mrv_mac_scan_found b d cells81 10 (-1, -1)) as [Hin _].
    + exists (r, c). split; [apply in_cells81; assumption|]. split; [exact E|].
      pose proof (Hd r c). simpl. lia.
    + rewrite (sentinel_not_cell _ Hin) in Hs. discriminate.
  - intros Hs. destruct (mrv_mac_scan_in b d cells81 10 (-1, -1)) as [E|[_ Hg]]; [|exact Hg].
    rewrite E in Hs. discriminate.
Qed.

(** ** Domains stay within nine values *)

Lemma update_len (d : doms) (si sj : cell) (r c : Z) :
  (length (dget (snd (update d si sj)) r c) <= length (dget d r c))%nat.
Proof.
  rewrite update_spec. simpl. unfold dget.
  destruct (gget_gset d (fst si) (snd si)
              (filter (keep (gget [] d (fst sj) (snd sj))) (gget [] d (fst si) (snd si))) r c [])
    as [E|[E1 [E2 E3]]].
  - rewrite E. lia.
  - rewrite E3. replace (gget [] d r c) with (gget [] d (fst si) (snd si))
      by (unfold gget; rewrite E1, E2; reflexivity).
    apply filter_length_le.
Qed.

Lemma ac3_loop_len (fuel : nat) (d : doms) (q : list (cell * cell)) (res : bool) (d' : doms) :
  ac3_loop fuel d q = Some (res, d') ->
  forall r c, (length (dget d' r c) <= length (dget d r c))%nat.
Proof.
  revert d q. induction fuel as [|f IH]; intros d q Hrun; [discriminate|].
  destruct q as [|[si sj] q']; simpl in Hrun.
  - inversion Hrun; subst. lia.
  - pose proof (update_len d si sj) as Hl.
    destruct (update d si sj) as [upd d1]. simpl in Hl.
    destruct upd.
    + destruct (dget d1 (fst si) (snd si)).
      * inversion Hrun; subst. exact Hl.
      * intros r c. specialize (IH d1 _ Hrun r c). specialize (Hl r c). lia.
    + intros r c. specialize (IH d1 _ Hrun r c). specialize (Hl r c). lia.
Qed.

Lemma ac3_len (d : doms) (r c : Z) : (length (dget (snd (ac3 d)) r c) <= length (dget d r c))%nat.
Proof.
  pose proof (ac3_run d) as H. destruct (ac3 d) as [ok d']. exact (ac3_loop_len _ _ _ _ _ H r c).
Qed.

Lemma dom_boundedb_spec (d : doms) :
  dom_boundedb d = true -> forall r c, (length (dget d r c) <= 9)%nat.
Proof.
  unfold dom_boundedb, dget, gget. intros H r c. rewrite forallb_forall in H.
  destruct (Nat.lt_ge_cases (Z.to_nat r) (length d)) as [Hr|Hr].
  - specialize (H _ (nth_In d [] Hr)). rewrite forallb_forall in H.
    destruct (Nat.lt_ge_cases (Z.to_nat c) (length (nth (Z.to_nat r) d []))) as [Hc|Hc].
    + apply Nat.leb_le. apply H. apply nth_In. exact Hc.
    + rewrite nth_overflow by exact Hc. simpl. lia.
  - rewrite (nth_overflow d) by exact Hr. destruct (Z.to_nat c); simpl; lia.
Qed.

Lemma bounded_step (d : doms) (r c v : Z) :
  (forall r c, (length (dget d r c) <= 9)%nat) ->
  forall r' c', (length (dget (snd (ac3 (gset d r c [v]))) r' c') <= 9)%nat.
Proof.
  intros Hd r' c'. eapply Nat.le_trans; [apply ac3_len|]. unfold dget.
  destruct (gget_gset d r c [v] r' c' []) as [E|[_ [_ E]]]; rewrite E; [apply Hd|simpl; lia].
Qed.

Lemma initDomains_bounded (b : board) : dom_boundedb (initDomains b) = true.
Proof.
  unfold dom_boundedb, initDomains. apply forallb_forall. intros row Hrow.
  apply in_map_iff in Hrow. destruct Hrow as [i [<- _]].
  apply forallb_forall. intros l Hl. apply in_map_iff in Hl. destruct Hl as [j [<- _]].
  apply Nat.leb_le. destruct (negb (get b i j =? 0)); [simpl; lia|].
  eapply Nat.le_trans; [apply filter_length_le|]. rewrite rng_length. reflexivity.
Qed.

(** ** The searches restore the board on failure *)

Lemma findValidF_board (b : board) (row col : Z) : get b row col = 0 -> snd (findValidF b row col) = b.
Proof. intros _. reflexivity. Qed.

Lemma findValidLCV_board (b : board) (row col : Z) : get b row col = 0 -> snd (findValidLCV b row col) = b.
Proof. intros H0. unfold findValidLCV. rewrite (findValidLCV_fold b row col _ [] H0). reflexivity. Qed.

Section SearchProps.

Variable nextEmpty : board -> cell.
Variable validNumFinder : board -> Z -> Z -> list Z * board.
Hypothesis ne_sentinel : forall b, is_sentinel (nextEmpty b) = true -> no_zeros b.
Hypothesis ne_empty :
  forall b, is_sentinel (nextEmpty b) = false -> get b (fst (nextEmpty b)) (snd (nextEmpty b)) = 0.
Hypothesis vf_board : forall b row col, get b row col = 0 -> snd (validNumFinder b row col) = b.

Lemma pruning_restores (fuel : nat) (b : board) (steps backtracks : Z) :
  search_ok (pruning nextEmpty validNumFinder fuel b steps backtracks) b.
Proof.
  revert b steps backtracks. induction fuel as [|f IH]; intros b steps backtracks; [exact I|].
  simpl. pose proof (ne_sentinel b) as Hs. pose proof (ne_empty b) as He.
  destruct (nextEmpty b) as [row col]. simpl in Hs, He.
  destruct (is_sentinel (row, col)).
  - exact (Hs eq_refl).
  - specialize (He eq_refl). pose proof (vf_board b row col He) as Hb.
    destruct (validNumFinder b row col) as [vals b2]. simpl in Hb. subst b2.
    generalize (steps + 1). revert backtracks.
    induction vals as [|v vs IHv]; intros backtracks st; [reflexivity|].
    pose proof (IH (gset b row col v) st backtracks) as Hc.
    destruct (pruning nextEmpty validNumFinder f (gset b row col v) st backtracks)
      as [[[[ok b'] s'] bt']|]; [|exact I].
    destruct ok; [exact Hc|]. simpl in Hc. subst b'.
    rewrite gset_gset, (gset_restore b row col He). apply IHv.
Qed.

Lemma forwardChecking_restores (fuel : nat) (b : board) (steps backtracks : Z) :
  search_ok (forwardChecking nextEmpty validNumFinder fuel b steps backtracks) b.
Proof.
  revert b steps backtracks. induction fuel as [|f IH]; intros b steps backtracks; [exact I|].
  simpl. pose proof (ne_sentinel b) as Hs. pose proof (ne_empty b) as He.
  destruct (nextEmpty b) as [row col]. simpl in Hs, He.
  destruct (is_sentinel (row, col)).
  - exact (Hs eq_refl).
  - specialize (He eq_refl). pose proof (vf_board b row col He) as Hb.
    destruct (validNumFinder b row col) as [vals b2]. simpl in Hb. subst b2.
    generalize (steps + 1). revert backtracks.
    induction vals as [|v vs IHv]; intros backtracks st; [reflexivity|].
    cbv beta iota. destruct (negb (hasFuture (gset b row col v))).
    + rewrite gset_gset, (gset_restore b row col He). apply IHv.
    + pose proof (IH (gset b row col v) st backtracks) as Hc.
      destruct (forwardChecking nextEmpty validNumFinder f (gset b row col v) st backtracks)
        as [[[[ok b'] s'] bt']|]; [|exact I].
      destruct ok; [exact Hc|]. simpl in Hc. subst b'.
      rewrite gset_gset, (gset_restore b row col He). apply IHv.
Qed.

End SearchProps.

Section SearchMACProps.

Variable nextEmpty : board -> doms -> cell.
Variable validNumFinder : doms -> Z -> Z -> list Z.
Variable P : doms -> Prop.
Hypothesis ne_sentinel : forall b d, P d -> is_sentinel (nextEmpty b d) = true -> no_zeros b.
Hypothesis ne_empty :
  forall b d, is_sentinel (nextEmpty b d) = false -> get b (fst (nextEmpty b d)) (snd (nextEmpty b d)) = 0.
Hypothesis P_step : forall d r c v, P d -> P (snd (ac3 (gset d r c [v]))).

Lemma pruningMAC_restores (fuel : nat) (b : board) (d : doms) (steps backtracks : Z) :
  P d -> search_mac_ok (pruningMAC nextEmpty validNumFinder fuel b d steps backtracks) b d.
Proof.
  revert b d steps backtracks. induction fuel as [|f IH]; intros b d steps backtracks Hd; [exact I|].
  simpl. pose proof (ne_sentinel b d Hd) as Hs. pose proof (ne_empty b d) as He.
  destruct (nextEmpty b d) as [row col]. simpl in Hs, He.
  destruct (is_sentinel (row, col)).
  - exact (Hs eq_refl).
  - specialize (He eq_refl). generalize (validNumFinder d row col) as vals.
    generalize (steps + 1). intros st vals. revert st backtracks.
    induction vals as [|v vs IHv]; intros st backtracks; [split; reflexivity|].
    pose proof (P_step d row col v Hd) as Hd'.
    destruct (ac3 (gset d row col [v])) as [ok d1]. simpl in Hd'.
    destruct ok.
    + pose proof (IH (gset b row col v) d1 st backtracks Hd') as Hc.
      destruct (pruningMAC nextEmpty validNumFinder f (gset b row col v) d1 st backtracks)
        as [[[[[ok b'] d'] s'] bt']|]; [|exact I].
      destruct ok; [exact Hc|]. destruct Hc as [Hc _]. subst b'.
      rewrite gset_gset, (gset_restore b row col He). apply IHv.
    + rewrite gset_gset, (gset_restore b row col He). apply IHv.
Qed.

End SearchMACProps.

(** C2: for every finder pair [solve] uses, a run of [pruning] or
    [forwardChecking] that fails returns the entry board unchanged and one
    that succeeds returns a board without empty cells; the same holds for
    [pruningMAC] on domains of at most nine values each, which also gets its
    domains back on failure; the domains [solve] hands to [pruningMAC]
    (AC-3 on [initDomains]) are of that kind.  (A run that exhausts its fuel
    has no outcome.) *)
Theorem search_restores_or_solves (fuel : nat) (b : board) (d : doms) (steps backtracks : Z)
  (Hd : forall r c, (length (dget d r c) <= 9)%nat) :
  (forall ne vf, In (ne, vf) board_finders ->
     search_ok (pruning ne vf fuel b steps backtracks) b /\
     search_ok (forwardChecking ne vf fuel b steps backtracks) b) /\
  (forall ne vf, In ne mac_empty_finders -> In vf mac_value_finders ->
     search_mac_ok (pruningMAC ne vf fuel b d steps backtracks) b d) /\
  (forall b0 r c, (length (dget (snd (ac3 (initDomains b0))) r c) <= 9)%nat).
Proof.
  split; [|split].
  - intros ne vf H. simpl in H.
    destruct H as [E|[E|[E|[E|[]]]]]; inversion E; subst; split;
      first [ apply pruning_restores | apply forwardChecking_restores ];
      first [ exact (fun b => proj1 (findEmpty_facts b))
            | exact (fun b => proj2 (findEmpty_facts b))
            | exact (fun b => proj1 (findEmptyMRV_facts b))
            | exact (fun b => proj2 (findEmptyMRV_facts b))
            | exact findValidF_board
            | exact findValidLCV_board ].
  - intros ne vf Hne _. simpl in Hne. destruct Hne as [<-|[<-|[]]].
    + apply (pruningMAC_restores findEmptyMAC vf (fun _ => True)); [| |auto|exact I].
      * exact (fun b _ _ => proj1 (findEmpty_facts b)).
      * exact (fun b _ => proj2 (findEmpty_facts b)).
    + apply (pruningMAC_restores findEmptyMRVMAC vf (fun d => forall r c, (length (dget d r c) <= 9)%nat));
        [| |intros; apply bounded_step; assumption|exact Hd].
      * exact (fun b d Hd => proj1 (findEmptyMRVMAC_facts b d) Hd).
      * exact (fun b d => proj2 (findEmptyMRVMAC_facts b d)).
  - intros b0 r c. eapply Nat.le_trans; [apply ac3_len|].
    apply dom_boundedb_spec. apply initDomains_bounded.
Qed.

(** C3: [pruningMAC] tries each candidate [v] on a copy of its domains
    argument with the cell collapsed to [v]; a failure hands back the domains
    argument itself, and a success either found no empty cell (domains
    unchanged) or returns the domains of a successful recursive call made on
    AC-3 of that copy, the copy being built from the entry domains whatever
    candidates failed before. *)
Theorem pruningMAC_isolates_domains (ne : board -> doms -> cell) (vf : doms -> Z -> Z -> list Z)
  (fuel : nat) (b : board) (domains : doms) (steps backtracks : Z) :
  match pruningMAC ne vf fuel b domains steps backtracks with
  | Some (false, _, d', _, _) => d' = domains
  | Some (true, b', d', s', bt') =>
      d' = domains \/
      exists f v b0 s0 bt0,
        fuel = S f /\
        In v (vf domains (fst (ne b domains)) (snd (ne b domains))) /\
        fst (ac3 (gset domains (fst (ne b domains)) (snd (ne b domains)) [v])) = true /\
        pruningMAC ne vf f b0 (snd (ac3 (gset domains (fst (ne b domains)) (snd (ne b domains)) [v])))
                   s0 bt0 = Some (true, b', d', s', bt')
  | None => True
  end.
Proof.
  destruct fuel as [|f]; [exact I|]. simpl.
  destruct (ne b domains) as [row col]. simpl.
  destruct (is_sentinel (row, col)); [left; reflexivity|].
  remember (vf domains row col) as L eqn:HL. clear HL.
  generalize (incl_refl L). generalize L at 1 3. intros vs Hvs.
  generalize (steps + 1). revert b backtracks.
  induction vs as [|v vs IHv]; intros b0 backtracks st; [reflexivity|].
  assert (Hv : In v L) by (apply Hvs; left; reflexivity).
  assert (Hvs' : incl vs L) by (intros x Hx; apply Hvs; right; exact Hx).
  destruct (ac3 (gset domains row col [v])) as [ok d1] eqn:Hac.
  destruct ok.
  - destruct (pruningMAC ne vf f (gset b0 row col v) d1 st backtracks)
      as [[[[[ok b'] d'] s'] bt']|] eqn:Hrun; [|exact I].
    destruct ok.
    + right. exists f, v, (gset b0 row col v), st, backtracks.
      rewrite Hac. simpl. auto.
    + apply (IHv Hvs').
  - apply (IHv Hvs').
Qed.

Lemma search_restores_or_solves_witness :
  (forall r c, (length (dget (initDomains sample_board) r c) <= 9)%nat) /\
  search_mac_ok (pruningMAC findEmptyMRVMAC findValidLCVMAC 5 sample_board (initDomains sample_board) 0 0)
                sample_board (initDomains sample_board).
Proof.
  assert (Hd : forall r c, (length (dget (initDomains sample_board) r c) <= 9)%nat)
    by (intros r c; apply dom_boundedb_spec; vm_compute; reflexivity).
  split; [exact Hd|].
  exact (proj1 (proj2 (search_restores_or_solves 5 sample_board (initDomains sample_board) 0 0 Hd))
           findEmptyMRVMAC findValidLCVMAC (or_intror (or_introl eq_refl)) (or_intror (or_introl eq_refl))).
Defined.


(** * Further properties of the program *)

Lemma isValid_occurs (b : board) (row col value : Z) :
  0 <= row < 9 -> 0 <= col < 9 ->
  (isValid b row col value = false <->
   (exists i, 0 <= i < 9 /\ (get b row i = value \/ get b i col = value)) \/
   (exists r c, 0 <= r < 9 /\ 0 <= c < 9 /\ r / 3 = row / 3 /\ c / 3 = col / 3 /\
                get b r c = value)).
Proof.
  intros Hrow Hcol. unfold isValid.
  destruct (existsb (fun i => (value =? get b i col) || (value =? get b row i)) (rng 0 9)) eqn:E1.
  - split; [intros _|reflexivity]. left.
    apply existsb_exists in E1. destruct E1 as [i [Hi Hv]]. apply In_rng in Hi; [|lia].
    exists i. split; [lia|]. apply orb_true_iff in Hv. rewrite !Z.eqb_eq in Hv. lia.
  - rewrite negb_false_iff, existsb_exists. split.
    + intros [r [Hr Hc]]. apply existsb_exists in Hc. destruct Hc as [c [Hc Hv]].
      apply box_rng in Hr; [|lia]. apply box_rng in Hc; [|lia]. apply Z.eqb_eq in Hv.
      right. exists r, c. repeat split; lia.
    + intros [[i [Hi Hv]]|[r [c [Hr [Hc [Hr3 [Hc3 Hv]]]]]]].
      * exfalso. assert (Hin : In i (rng 0 9)) by (apply In_rng; lia).
        assert (Hex : existsb (fun i => (value =? get b i col) || (value =? get b row i)) (rng 0 9) = true).
        { apply existsb_exists. exists i. split; [exact Hin|].
          apply orb_true_iff. rewrite !Z.eqb_eq. lia. }
        congruence.
      * exists r. split; [apply box_rng; lia|]. apply existsb_exists. exists c.
        split; [apply box_rng; lia|]. apply Z.eqb_eq. auto.
Qed.

(** [isValid] in terms of the cell and its peers. *)
Lemma isValid_peers (b : board) (X : cell) (v : Z) :
  In X cells81 ->
  (isValid b (fst X) (snd X) v = true <-> getc b X <> v /\ forall q, peer_cell X q -> getc b q <> v).
Proof.
  intros HX. apply cells81_range in HX as [Hr Hc]. destruct X as [row col]. simpl in *.
  unfold getc. rewrite <- not_false_iff_true, isValid_occurs by assumption. split.
  - intros Hn. split.
    + intros E. apply Hn. left. exists col. split; [lia|]. left. exact E.
    + intros [r c] [Hr' [Hc' [Hne Hp]]] E. simpl in *. apply Hn.
      destruct Hp as [Hp|[Hp|[Hp1 Hp2]]].
      * left. exists c. split; [lia|]. left. rewrite Hp. exact E.
      * left. exists r. split; [lia|]. right. rewrite Hp. exact E.
      * right. exists r, c. repeat split; auto; lia.
  - intros [H0 Hq] [[i [Hi [E|E]]]|[r [c [Hr' [Hc' [Hr3 [Hc3 E]]]]]]].
    + destruct (Z.eq_dec i col) as [->|Hne]; [exact (H0 E)|].
      apply (Hq (row, i)); [|exact E].
      split; [simpl; lia|]. split; [simpl; lia|]. split; [intros F; inversion F; lia|].
      left. reflexivity.
    + destruct (Z.eq_dec i row) as [->|Hne]; [exact (H0 E)|].
      apply (Hq (i, col)); [|exact E].
      split; [simpl; lia|]. split; [simpl; lia|]. split; [intros F; inversion F; lia|].
      right. left. reflexivity.
    + destruct (cell_eq_dec (r, c) (row, col)) as [F|Hne].
      * injection F as -> ->. exact (H0 E).
      * apply (Hq (r, c)); [|exact E].
        split; [simpl; lia|]. split; [simpl; lia|]. split; [intros F; apply Hne; symmetry; exact F|].
        right. right. simpl. split; lia.
Qed.

Lemma cells_eq (p q : cell) : In p cells81 -> In q cells81 ->
  Z.to_nat (fst p) = Z.to_nat (fst q) -> Z.to_nat (snd p) = Z.to_nat (snd q) -> p = q.
Proof.
  intros Hp Hq E1 E2. apply cells81_range in Hp, Hq. destruct p, q. simpl in *. f_equal; lia.
Qed.

Lemma gcell_gset {A} (dflt : A) (g : grid A) (X p : cell) (x : A) :
  In X cells81 -> In p cells81 ->
  gget dflt (gset g (fst X) (snd X) x) (fst p) (snd p) = gget dflt g (fst p) (snd p) \/
  (p = X /\ gget dflt (gset g (fst X) (snd X) x) (fst p) (snd p) = x).
Proof.
  intros HX Hp. destruct (gget_gset g (fst X) (snd X) x (fst p) (snd p) dflt) as [E|[E1 [E2 E3]]].
  - left. exact E.
  - right. split; [apply cells_eq; auto|exact E3].
Qed.

Lemma gcell_gset_other {A} (dflt : A) (g : grid A) (X p : cell) (x : A) :
  In X cells81 -> In p cells81 -> p <> X ->
  gget dflt (gset g (fst X) (snd X) x) (fst p) (snd p) = gget dflt g (fst p) (snd p).
Proof.
  intros HX Hp Hne. destruct (gcell_gset dflt g X p x HX Hp) as [E|[E _]]; [exact E|congruence].
Qed.

Lemma Forall_set_nth {A} (P : A -> Prop) (l : list A) n x :
  Forall P l -> (n < length l -> P x)%nat -> Forall P (set_nth l n x).
Proof.
  revert n. induction l as [|h t IH]; intros n Hf Hx; simpl; [constructor|].
  inversion Hf; subst. destruct n; constructor; auto.
  - apply Hx. simpl. lia.
  - apply IH; auto. intros. apply Hx. simpl. lia.
Qed.

Lemma shape9_gset {A} (g : grid A) r c x : shape9 g -> shape9 (gset g r c x).
Proof.
  intros [Hl Hf]. unfold gset. split; [rewrite set_nth_length; exact Hl|].
  apply Forall_set_nth; [exact Hf|]. intros Hr. rewrite set_nth_length.
  rewrite Forall_forall in Hf. apply Hf. apply nth_In. exact Hr.
Qed.

Lemma gcell_gset_same {A} (dflt : A) (g : grid A) (X : cell) (x : A) :
  shape9 g -> In X cells81 -> gget dflt (gset g (fst X) (snd X) x) (fst X) (snd X) = x.
Proof.
  intros [Hl Hf] HX. apply cells81_range in HX as [Hr Hc]. unfold gget, gset.
  assert (Hr' : (Z.to_nat (fst X) < length g)%nat) by lia.
  assert (Hc' : (Z.to_nat (snd X) < length (nth (Z.to_nat (fst X)) g []))%nat).
  { rewrite Forall_forall in Hf. rewrite (Hf _ (nth_In g [] Hr')). lia. }
  rewrite nth_set_nth_same by exact Hr'. apply nth_set_nth_same. exact Hc'.
Qed.

Lemma in_cells81_peer (p q : cell) : peer_cell p q -> In q cells81.
Proof. destruct q as [r c]. intros [Hr [Hc _]]. apply in_cells81; assumption. Qed.

Lemma consistent_place (b : board) (X : cell) (v : Z) :
  In X cells81 -> getc b X = 0 -> isValid b (fst X) (snd X) v = true -> consistent b ->
  consistent (gset b (fst X) (snd X) v).
Proof.
  intros HX H0 Hv Hc p q Hp Hpq Hnz. pose proof (in_cells81_peer p q Hpq) as Hq.
  apply (isValid_peers b X v HX) in Hv as [Hv0 Hvp].
  unfold getc, get in *.
  destruct (gcell_gset 0 b X p v HX Hp) as [Ep|[-> Ep]];
  destruct (gcell_gset 0 b X q v HX Hq) as [Eq|[-> Eq]].
  - rewrite Ep, Eq in *. apply Hc; assumption.
  - rewrite Ep, Eq in *. intros E. apply (Hvp p); [|exact E].
    apply peer_cell_sym; [apply cells81_range; exact Hp|exact Hpq].
  - rewrite Ep, Eq in *. intros E. apply (Hvp q Hpq). symmetry. exact E.
  - destruct Hpq as [_ [_ [Hne _]]]. exfalso. apply Hne. reflexivity.
Qed.

Lemma solution_consistent (b s : board) : solution_of b s -> consistent b.
Proof.
  intros [Hs [Hc He]] p q Hp Hpq Hnz. pose proof (in_cells81_peer p q Hpq) as Hq.
  rewrite <- (He p Hp Hnz). destruct (Z.eq_dec (getc b q) 0) as [E|E].
  - rewrite E. specialize (Hs p Hp). lia.
  - rewrite <- (He q Hq E). apply Hc; [exact Hp|exact Hpq|]. specialize (Hs p Hp). lia.
Qed.

Lemma solution_isValid (b s : board) (p : cell) :
  solution_of b s -> In p cells81 -> getc b p = 0 -> isValid b (fst p) (snd p) (getc s p) = true.
Proof.
  intros [Hs [Hc He]] Hp H0. apply isValid_peers; [exact Hp|]. specialize (Hs p Hp) as Hsp. split.
  - lia.
  - intros q Hpq. pose proof (in_cells81_peer p q Hpq) as Hq.
    destruct (Z.eq_dec (getc b q) 0) as [E|E]; [lia|].
    rewrite <- (He q Hq E). apply not_eq_sym. apply Hc; [exact Hp|exact Hpq|lia].
Qed.

Lemma solution_place (b s : board) (X : cell) :
  solution_of b s -> In X cells81 -> solution_of (gset b (fst X) (snd X) (getc s X)) s.
Proof.
  intros [Hs [Hc He]] HX. split; [exact Hs|]. split; [exact Hc|]. intros p Hp Hnz.
  unfold getc, get in *. destruct (gcell_gset 0 b X p (gget 0 s (fst X) (snd X)) HX Hp) as [E|[-> E]].
  - rewrite E in *. apply He; assumption.
  - rewrite E. reflexivity.
Qed.

Lemma NoDup_cells81 : NoDup cells81.
Proof. apply nodupb_NoDup. vm_compute. reflexivity. Qed.

Lemma filter_count_one {A} (f g : A -> bool) (l : list A) (x : A) :
  NoDup l -> In x l -> f x = true -> g x = false -> (forall y, In y l -> y <> x -> g y = f y) ->
  S (length (filter g l)) = length (filter f l).
Proof.
  induction l as [|h t IH]; intros Hnd Hx Hf Hg Hfg; [destruct Hx|].
  inversion Hnd as [|h' t' Hnin Hnd']; subst. simpl. destruct Hx as [->|Hx].
  - rewrite Hf, Hg. simpl. f_equal.
    assert (E : filter g t = filter f t).
    { apply filter_ext_in. intros y Hy. apply Hfg; [right; exact Hy|]. intros ->. contradiction. }
    rewrite E. reflexivity.
  - assert (Hh : h <> x) by (intros ->; contradiction). rewrite (Hfg h (or_introl eq_refl) Hh).
    destruct (f h); simpl; [f_equal|]; apply IH; auto; intros y Hy Hne; apply Hfg; auto; right; exact Hy.
Qed.

Lemma zeros_place (b : board) (X : cell) (v : Z) :
  shape9 b -> In X cells81 -> getc b X = 0 -> v <> 0 ->
  S (zeros (gset b (fst X) (snd X) v)) = zeros b.
Proof.
  intros Hsh HX H0 Hv. unfold zeros, empties.
  apply (filter_count_one _ _ cells81 X NoDup_cells81 HX).
  - apply Z.eqb_eq. exact H0.
  - apply Z.eqb_neq. unfold get. rewrite gcell_gset_same by assumption. exact Hv.
  - intros y Hy Hne. unfold get. rewrite gcell_gset_other by assumption. reflexivity.
Qed.

Lemma hasFuture_intro (b : board) :
  (forall p, In p cells81 -> getc b p = 0 -> exists v, In v (rng 1 9) /\ isValid b (fst p) (snd p) v = true) ->
  hasFuture b = true.
Proof.
  intros H. unfold hasFuture. apply forallb_forall. intros p Hp.
  destruct (Z.eqb_spec (get b (fst p) (snd p)) 0) as [E|E]; [|reflexivity].
  cbn [negb orb]. apply existsb_exists. apply H; assumption.
Qed.

Lemma solution_hasFuture (b s : board) : solution_of b s -> hasFuture b = true.
Proof.
  intros Hsol. apply hasFuture_intro. intros p Hp H0. exists (getc s p). split.
  - apply In_rng; [lia|]. destruct Hsol as [Hs _]. specialize (Hs p Hp). lia.
  - apply (solution_isValid b s p Hsol Hp H0).
Qed.

Lemma isValid_nonzero (b : board) (X : cell) (v : Z) :
  In X cells81 -> getc b X = 0 -> isValid b (fst X) (snd X) v = true -> v <> 0.
Proof. intros HX H0 Hv. apply (isValid_peers b X v HX) in Hv as [Hv _]. lia. Qed.

Section SearchCorrect.

Variable nextEmpty : board -> cell.
Variable validNumFinder : board -> Z -> Z -> list Z * board.
Hypothesis ne_sentinel : forall b, is_sentinel (nextEmpty b) = true -> no_zeros b.
Hypothesis ne_cell :
  forall b, is_sentinel (nextEmpty b) = false -> In (nextEmpty b) cells81 /\ getc b (nextEmpty b) = 0.
Hypothesis vf_board : forall b row col, get b row col = 0 -> snd (validNumFinder b row col) = b.
Hypothesis vf_valid :
  forall b row col v, get b row col = 0 -> In v (fst (validNumFinder b row col)) -> isValid b row col v = true.
Hypothesis vf_complete :
  forall b row col v, get b row col = 0 -> 1 <= v <= 9 -> isValid b row col v = true ->
  In v (fst (validNumFinder b row col)).

Lemma ne_empty' (b : board) :
  is_sentinel (nextEmpty b) = false -> get b (fst (nextEmpty b)) (snd (nextEmpty b)) = 0.
Proof. intros H. apply (ne_cell b H). Qed.

Lemma keep_filled (b : board) (X p : cell) (v : Z) :
  In X cells81 -> getc b X = 0 -> In p cells81 -> getc b p <> 0 ->
  getc (gset b (fst X) (snd X) v) p = getc b p.
Proof.
  intros HX H0 Hp Hnz. unfold getc, get. apply gcell_gset_other; try assumption.
  intros ->. contradiction.
Qed.

Lemma pruning_sound (fuel : nat) (b : board) (steps backtracks : Z) :
  consistent b -> sound_res (pruning nextEmpty validNumFinder fuel b steps backtracks) b.
Proof.
  revert b steps backtracks. induction fuel as [|f IH]; intros b steps backtracks Hc; [exact I|].
  simpl. pose proof (ne_cell b) as Hn. pose proof (ne_sentinel b) as Hs.
  destruct (nextEmpty b) as [row col].
  destruct (is_sentinel (row, col)); [split; [exact Hc|split; [apply Hs; reflexivity|auto]]|].
  destruct (Hn eq_refl) as [HX H0].
  pose proof (vf_board b row col H0) as Hb. pose proof (vf_valid b row col) as Hv.
  destruct (validNumFinder b row col) as [vals b2]. simpl in Hb, Hv. subst b2.
  assert (Hv2 : forall w, In w vals -> isValid b row col w = true) by (intros w; apply Hv; exact H0).
  clear Hv; rename Hv2 into Hv. generalize (steps + 1). revert backtracks.
  induction vals as [|v vs IHv]; intros backtracks st; [exact I|].
  assert (Hval : isValid b row col v = true) by (apply Hv; left; reflexivity).
  pose proof (IH (gset b row col v) st backtracks (consistent_place b (row, col) v HX H0 Hval Hc)) as Hch.
  pose proof (pruning_restores nextEmpty validNumFinder ne_sentinel ne_empty' vf_board f
                (gset b row col v) st backtracks) as Hr.
  destruct (pruning nextEmpty validNumFinder f (gset b row col v) st backtracks)
    as [[[[ok b'] s'] bt']|]; [|exact I].
  destruct ok.
  - destruct Hch as [Hcons [Hfull Hext]]. split; [exact Hcons|]. split; [exact Hfull|]. intros p Hp Hnz.
    pose proof (keep_filled b (row, col) p v HX H0 Hp Hnz) as K. cbn [fst snd] in K.
    rewrite (Hext p Hp) by (rewrite K; exact Hnz). exact K.
  - simpl in Hr. subst b'. rewrite gset_gset, (gset_restore b row col H0).
    apply IHv. intros w Hw. apply Hv. right. exact Hw.
Qed.

Lemma forwardChecking_sound (fuel : nat) (b : board) (steps backtracks : Z) :
  consistent b -> sound_res (forwardChecking nextEmpty validNumFinder fuel b steps backtracks) b.
Proof.
  revert b steps backtracks. induction fuel as [|f IH]; intros b steps backtracks Hc; [exact I|].
  simpl. pose proof (ne_cell b) as Hn. pose proof (ne_sentinel b) as Hs.
  destruct (nextEmpty b) as [row col].
  destruct (is_sentinel (row, col)); [split; [exact Hc|split; [apply Hs; reflexivity|auto]]|].
  destruct (Hn eq_refl) as [HX H0].
  pose proof (vf_board b row col H0) as Hb. pose proof (vf_valid b row col) as Hv.
  destruct (validNumFinder b row col) as [vals b2]. simpl in Hb, Hv. subst b2.
  assert (Hv2 : forall w, In w vals -> isValid b row col w = true) by (intros w; apply Hv; exact H0).
  clear Hv; rename Hv2 into Hv. generalize (steps + 1). revert backtracks.
  induction vals as [|v vs IHv]; intros backtracks st; [exact I|].
  assert (Hval : isValid b row col v = true) by (apply Hv; left; reflexivity).
  assert (Hv' : forall w, In w vs -> isValid b row col w = true) by (intros w Hw; apply Hv; right; exact Hw).
  cbv beta iota. destruct (negb (hasFuture (gset b row col v))).
  - rewrite gset_gset, (gset_restore b row col H0). apply IHv. exact Hv'.
  - pose proof (IH (gset b row col v) st backtracks (consistent_place b (row, col) v HX H0 Hval Hc)) as Hch.
    pose proof (forwardChecking_restores nextEmpty validNumFinder ne_sentinel ne_empty' vf_board f
                  (gset b row col v) st backtracks) as Hr.
    destruct (forwardChecking nextEmpty validNumFinder f (gset b row col v) st backtracks)
      as [[[[ok b'] s'] bt']|]; [|exact I].
    destruct ok.
    + destruct Hch as [Hcons [Hfull Hext]]. split; [exact Hcons|]. split; [exact Hfull|]. intros p Hp Hnz.
      pose proof (keep_filled b (row, col) p v HX H0 Hp Hnz) as K. cbn [fst snd] in K.
      rewrite (Hext p Hp) by (rewrite K; exact Hnz). exact K.
    + simpl in Hr. subst b'. rewrite gset_gset, (gset_restore b row col H0). apply IHv. exact Hv'.
Qed.

Lemma pruning_total (fuel : nat) (b : board) (steps backtracks : Z) :
  shape9 b -> (zeros b < fuel)%nat -> pruning nextEmpty validNumFinder fuel b steps backtracks <> None.
Proof.
  revert b steps backtracks. induction fuel as [|f IH]; intros b steps backtracks Hsh Hz; [lia|].
  simpl. pose proof (ne_cell b) as Hn. destruct (nextEmpty b) as [row col].
  destruct (is_sentinel (row, col)); [discriminate|].
  destruct (Hn eq_refl) as [HX H0].
  pose proof (vf_board b row col H0) as Hb. pose proof (vf_valid b row col) as Hv.
  destruct (validNumFinder b row col) as [vals b2]. simpl in Hb, Hv. subst b2.
  assert (Hv2 : forall w, In w vals -> isValid b row col w = true) by (intros w; apply Hv; exact H0).
  clear Hv; rename Hv2 into Hv. generalize (steps + 1). revert backtracks.
  induction vals as [|v vs IHv]; intros backtracks st; [discriminate|].
  assert (Hval : isValid b row col v = true) by (apply Hv; left; reflexivity).
  pose proof (zeros_place b (row, col) v Hsh HX H0 (isValid_nonzero b (row, col) v HX H0 Hval)) as Hzc.
  pose proof (IH (gset b row col v) st backtracks (shape9_gset b row col v Hsh) ltac:(simpl in Hzc; lia)) as Hch.
  pose proof (pruning_restores nextEmpty validNumFinder ne_sentinel ne_empty' vf_board f
                (gset b row col v) st backtracks) as Hr.
  destruct (pruning nextEmpty validNumFinder f (gset b row col v) st backtracks)
    as [[[[ok b'] s'] bt']|]; [|contradiction].
  destruct ok; [discriminate|].
  simpl in Hr. subst b'. rewrite gset_gset, (gset_restore b row col H0).
  apply IHv. intros w Hw. apply Hv. right. exact Hw.
Qed.

Lemma forwardChecking_total (fuel : nat) (b : board) (steps backtracks : Z) :
  shape9 b -> (zeros b < fuel)%nat -> forwardChecking nextEmpty validNumFinder fuel b steps backtracks <> None.
Proof.
  revert b steps backtracks. induction fuel as [|f IH]; intros b steps backtracks Hsh Hz; [lia|].
  simpl. pose proof (ne_cell b) as Hn. destruct (nextEmpty b) as [row col].
  destruct (is_sentinel (row, col)); [discriminate|].
  destruct (Hn eq_refl) as [HX H0].
  pose proof (vf_board b row col H0) as Hb. pose proof (vf_valid b row col) as Hv.
  destruct (validNumFinder b row col) as [vals b2]. simpl in Hb, Hv. subst b2.
  assert (Hv2 : forall w, In w vals -> isValid b row col w = true) by (intros w; apply Hv; exact H0).
  clear Hv; rename Hv2 into Hv. generalize (steps + 1). revert backtracks.
  induction vals as [|v vs IHv]; intros backtracks st; [discriminate|].
  assert (Hval : isValid b row col v = true) by (apply Hv; left; reflexivity).
  assert (Hv' : forall w, In w vs -> isValid b row col w = true) by (intros w Hw; apply Hv; right; exact Hw).
  cbv beta iota. destruct (negb (hasFuture (gset b row col v))).
  - rewrite gset_gset, (gset_restore b row col H0). apply IHv. exact Hv'.
  - pose proof (zeros_place b (row, col) v Hsh HX H0 (isValid_nonzero b (row, col) v HX H0 Hval)) as Hzc.
    pose proof (IH (gset b row col v) st backtracks (shape9_gset b row col v Hsh) ltac:(simpl in Hzc; lia)) as Hch.
    pose proof (forwardChecking_restores nextEmpty validNumFinder ne_sentinel ne_empty' vf_board f
                  (gset b row col v) st backtracks) as Hr.
    destruct (forwardChecking nextEmpty validNumFinder f (gset b row col v) st backtracks)
      as [[[[ok b'] s'] bt']|]; [|contradiction].
    destruct ok; [discriminate|].
    simpl in Hr. subst b'. rewrite gset_gset, (gset_restore b row col H0). apply IHv. exact Hv'.
Qed.

Lemma pruning_complete (fuel : nat) (b s : board) (steps backtracks : Z) :
  shape9 b -> solution_of b s -> (zeros b < fuel)%nat ->
  exists b' st bt, pruning nextEmpty validNumFinder fuel b steps backtracks = Some (true, b', st, bt).
Proof.
  revert b steps backtracks. induction fuel as [|f IH]; intros b steps backtracks Hsh Hsol Hz; [lia|].
  simpl. pose proof (ne_cell b) as Hn. destruct (nextEmpty b) as [row col].
  destruct (is_sentinel (row, col)); [eauto|].
  destruct (Hn eq_refl) as [HX H0].
  pose proof (vf_board b row col H0) as Hb. pose proof (vf_valid b row col) as Hv.
  pose proof (vf_complete b row col (getc s (row, col)) H0) as Hcomp.
  destruct (validNumFinder b row col) as [vals b2]. simpl in Hb, Hv, Hcomp. subst b2.
  assert (Hv2 : forall w, In w vals -> isValid b row col w = true) by (intros w; apply Hv; exact H0).
  clear Hv; rename Hv2 into Hv.
  assert (Hin : In (getc s (row, col)) vals).
  { apply Hcomp; [destruct Hsol as [Hs _]; apply (Hs _ HX)|].
    apply (solution_isValid b s (row, col) Hsol HX H0). }
  clear Hcomp. generalize (steps + 1). revert backtracks.
  induction vals as [|v vs IHv]; intros backtracks st; [destruct Hin|].
  assert (Hval : isValid b row col v = true) by (apply Hv; left; reflexivity).
  pose proof (zeros_place b (row, col) v Hsh HX H0 (isValid_nonzero b (row, col) v HX H0 Hval)) as Hzc.
  pose proof (pruning_total f (gset b row col v) st backtracks (shape9_gset b row col v Hsh)
                ltac:(simpl in Hzc; lia)) as Htot.
  pose proof (pruning_restores nextEmpty validNumFinder ne_sentinel ne_empty' vf_board f
                (gset b row col v) st backtracks) as Hr.
  destruct (Z.eq_dec v (getc s (row, col))) as [->|Hne].
  - destruct (IH (gset b row col (getc s (row, col))) st backtracks (shape9_gset _ _ _ _ Hsh)
                 (solution_place b s (row, col) Hsol HX) ltac:(simpl in Hzc; lia)) as [b' [s' [bt' E]]].
    rewrite E. eauto.
  - destruct (pruning nextEmpty validNumFinder f (gset b row col v) st backtracks)
      as [[[[ok b'] s'] bt']|]; [|contradiction].
    destruct ok; [eauto|].
    simpl in Hr. subst b'. rewrite gset_gset, (gset_restore b row col H0).
    apply IHv; first [ intros w Hw; apply Hv; right; exact Hw
                     | destruct Hin as [E|E]; [congruence|exact E] ].
Qed.

Lemma forwardChecking_complete (fuel : nat) (b s : board) (steps backtracks : Z) :
  shape9 b -> solution_of b s -> (zeros b < fuel)%nat ->
  exists b' st bt, forwardChecking nextEmpty validNumFinder fuel b steps backtracks = Some (true, b', st, bt).
Proof.
  revert b steps backtracks. induction fuel as [|f IH]; intros b steps backtracks Hsh Hsol Hz; [lia|].
  simpl. pose proof (ne_cell b) as Hn. destruct (nextEmpty b) as [row col].
  destruct (is_sentinel (row, col)); [eauto|].
  destruct (Hn eq_refl) as [HX H0].
  pose proof (vf_board b row col H0) as Hb. pose proof (vf_valid b row col) as Hv.
  pose proof (vf_complete b row col (getc s (row, col)) H0) as Hcomp.
  destruct (validNumFinder b row col) as [vals b2]. simpl in Hb, Hv, Hcomp. subst b2.
  assert (Hv2 : forall w, In w vals -> isValid b row col w = true) by (intros w; apply Hv; exact H0).
  clear Hv; rename Hv2 into Hv.
  assert (Hin : In (getc s (row, col)) vals).
  { apply Hcomp; [destruct Hsol as [Hs _]; apply (Hs _ HX)|].
    apply (solution_isValid b s (row, col) Hsol HX H0). }
  clear Hcomp. generalize (steps + 1). revert backtracks.
  induction vals as [|v vs IHv]; intros backtracks st; [destruct Hin|].
  assert (Hval : isValid b row col v = true) by (apply Hv; left; reflexivity).
  assert (Hv' : forall w, In w vs -> isValid b row col w = true) by (intros w Hw; apply Hv; right; exact Hw).
  pose proof (zeros_place b (row, col) v Hsh HX H0 (isValid_nonzero b (row, col) v HX H0 Hval)) as Hzc.
  cbv beta iota.
  destruct (Z.eq_dec v (getc s (row, col))) as [->|Hne].
  - pose proof (solution_place b s (row, col) Hsol HX) as Hsol'. cbn [fst snd] in Hsol'.
    rewrite (solution_hasFuture _ s Hsol'). cbn [negb].
    destruct (IH (gset b row col (getc s (row, col))) st backtracks (shape9_gset _ _ _ _ Hsh)
                 Hsol' ltac:(simpl in Hzc; lia)) as [b' [s' [bt' E]]].
    rewrite E. eauto.
  - assert (Hin' : In (getc s (row, col)) vs) by (destruct Hin as [E|E]; [congruence|exact E]).
    destruct (negb (hasFuture (gset b row col v))).
    + rewrite gset_gset, (gset_restore b row col H0). apply IHv; assumption.
    + pose proof (forwardChecking_total f (gset b row col v) st backtracks (shape9_gset b row col v Hsh)
                    ltac:(simpl in Hzc; lia)) as Htot.
      pose proof (forwardChecking_restores nextEmpty validNumFinder ne_sentinel ne_empty' vf_board f
                    (gset b row col v) st backtracks) as Hr.
      destruct (forwardChecking nextEmpty validNumFinder f (gset b row col v) st backtracks)
        as [[[[ok b'] s'] bt']|]; [|contradiction].
      destruct ok; [eauto|].
      simpl in Hr. subst b'. rewrite gset_gset, (gset_restore b row col H0). apply IHv; assumption.
Qed.

Lemma pruning_solves (fuel : nat) (b s : board) (steps backtracks : Z) :
  shape9 b -> solution_of b s -> (zeros b < fuel)%nat ->
  exists b' st bt, pruning nextEmpty validNumFinder fuel b steps backtracks = Some (true, b', st, bt) /\
                   solves_from b b'.
Proof.
  intros Hsh Hsol Hz.
  destruct (pruning_complete fuel b s steps backtracks Hsh Hsol Hz) as [b' [st [bt E]]].
  exists b', st, bt. split; [exact E|].
  pose proof (pruning_sound fuel b steps backtracks (solution_consistent b s Hsol)) as H.
  rewrite E in H. exact H.
Qed.

Lemma forwardChecking_solves (fuel : nat) (b s : board) (steps backtracks : Z) :
  shape9 b -> solution_of b s -> (zeros b < fuel)%nat ->
  exists b' st bt, forwardChecking nextEmpty validNumFinder fuel b steps backtracks = Some (true, b', st, bt) /\
                   solves_from b b'.
Proof.
  intros Hsh Hsol Hz.
  destruct (forwardChecking_complete fuel b s steps backtracks Hsh Hsol Hz) as [b' [st [bt E]]].
  exists b', st, bt. split; [exact E|].
  pose proof (forwardChecking_sound fuel b steps backtracks (solution_consistent b s Hsol)) as H.
  rewrite E in H. exact H.
Qed.

End SearchCorrect.

Lemma findEmpty_cell (b : board) :
  is_sentinel (findEmpty b) = false -> In (findEmpty b) cells81 /\ getc b (findEmpty b) = 0.
Proof.
  unfold findEmpty. destruct (find (fun p => get b (fst p) (snd p) =? 0) cells81) as [p|] eqn:F.
  - apply find_some in F as [Hin Hg]. intros _. split; [exact Hin|]. apply Z.eqb_eq. exact Hg.
  - discriminate.
Qed.

Lemma findEmptyMRV_cell (b : board) :
  is_sentinel (findEmptyMRV b) = false -> In (findEmptyMRV b) cells81 /\ getc b (findEmptyMRV b) = 0.
Proof.
  unfold findEmptyMRV. intros Hs. destruct (mrv_scan_in b cells81 10 (-1, -1)) as [E|[Hin Hg]].
  - rewrite E in Hs. discriminate.
  - split; [exact Hin|exact Hg].
Qed.

Lemma findEmpty_sentinel (b : board) : is_sentinel (findEmpty b) = true -> no_zeros b.
Proof. apply findEmpty_facts. Qed.

Lemma findEmptyMRV_sentinel (b : board) : is_sentinel (findEmptyMRV b) = true -> no_zeros b.
Proof. apply findEmptyMRV_facts. Qed.

Lemma findValid_spec (b : board) (row col v : Z) :
  In v (findValid b row col) <-> 1 <= v <= 9 /\ isValid b row col v = true.
Proof.
  unfold findValid. rewrite filter_In, (In_rng 1 9 v) by lia. split; intros [H1 H2]; split; auto; lia.
Qed.

Lemma findValidLCV_perm (b : board) (row col : Z) :
  get b row col = 0 -> Permutation (fst (findValidLCV b row col)) (findValid b row col).
Proof.
  intros H0. unfold findValidLCV. rewrite (findValidLCV_fold b row col (rng 1 9) [] H0).
  destruct (lcv_fold_props b row col (rng 1 9) [] rng_1_9_sorted ltac:(constructor)
              ltac:(intros q []) ltac:(intros q i [])) as [_ [_ H3]].
  exact H3.
Qed.

Lemma findValidF_valid (b : board) (row col v : Z) :
  get b row col = 0 -> In v (fst (findValidF b row col)) -> isValid b row col v = true.
Proof. intros _ H. apply findValid_spec in H. apply H. Qed.

Lemma findValidF_complete (b : board) (row col v : Z) :
  get b row col = 0 -> 1 <= v <= 9 -> isValid b row col v = true -> In v (fst (findValidF b row col)).
Proof. intros _ H1 H2. apply findValid_spec. auto. Qed.

Lemma findValidLCV_valid (b : board) (row col v : Z) :
  get b row col = 0 -> In v (fst (findValidLCV b row col)) -> isValid b row col v = true.
Proof.
  intros H0 H. apply (Permutation_in _ (findValidLCV_perm b row col H0)) in H.
  apply findValid_spec in H. apply H.
Qed.

Lemma findValidLCV_complete (b : board) (row col v : Z) :
  get b row col = 0 -> 1 <= v <= 9 -> isValid b row col v = true -> In v (fst (findValidLCV b row col)).
Proof.
  intros H0 H1 H2. apply (Permutation_in _ (Permutation_sym (findValidLCV_perm b row col H0))).
  apply findValid_spec. auto.
Qed.

Lemma zeros_le (b : board) : (zeros b <= 81)%nat.
Proof.
  unfold zeros, empties. etransitivity; [apply filter_length_le|]. apply Nat.eq_le_incl. reflexivity.
Qed.

Ltac finder_facts :=
  first [ exact findEmpty_sentinel | exact findEmptyMRV_sentinel | exact findEmpty_cell
        | exact findEmptyMRV_cell | exact findValidF_board | exact findValidLCV_board
        | exact findValidF_valid | exact findValidLCV_valid | exact findValidF_complete
        | exact findValidLCV_complete ].

Lemma solve_plain_solves (method emptyFinder valueOrder useAC3 runtime : Z) (fuel : nat) (b s : board) :
  (method = 1 \/ method = 2) -> (emptyFinder = 1 \/ emptyFinder = 2) -> (valueOrder = 1 \/ valueOrder = 2) ->
  useAC3 <> 1 -> shape9 b -> solution_of b s -> (81 < fuel)%nat ->
  exists r, solve method emptyFinder valueOrder useAC3 runtime fuel b = Some (r, [EvSearch method]) /\
            solved r = true /\ solves_from b (sr_board r).
Proof.
  intros Hm He Hv Hu Hsh Hsol Hf.
  assert (Hz : (zeros b < fuel)%nat) by (pose proof (zeros_le b); lia).
  unfold solve. rewrite (proj2 (Z.eqb_neq useAC3 1) Hu).
  destruct Hm as [->| ->]; destruct He as [->| ->]; destruct Hv as [->| ->]; cbn [orb andb Z.eqb Pos.eqb];
  match goal with
  | |- context [pruning ?ne ?vf fuel b 0 0] =>
      let H := fresh in
      assert (H : exists b' st bt, pruning ne vf fuel b 0 0 = Some (true, b', st, bt) /\ solves_from b b')
        by (apply (pruning_solves ne vf) with (s := s); first [exact Hsh | exact Hsol | exact Hz | finder_facts]);
      destruct H as [b' [st [bt [E Hs]]]]; rewrite E
  | |- context [forwardChecking ?ne ?vf fuel b 0 0] =>
      let H := fresh in
      assert (H : exists b' st bt, forwardChecking ne vf fuel b 0 0 = Some (true, b', st, bt) /\ solves_from b b')
        by (apply (forwardChecking_solves ne vf) with (s := s); first [exact Hsh | exact Hsol | exact Hz | finder_facts]);
      destruct H as [b' [st [bt [E Hs]]]]; rewrite E
  end;
  (eexists; split; [reflexivity|split; [reflexivity|exact Hs]]).
Qed.

Lemma holds_update (s : board) (d : doms) (si sj : cell) :
  (forall p, In p cells81 -> getc s p <> 0) -> consistent s ->
  In si cells81 -> peer_cell si sj -> holds s d -> holds s (snd (update d si sj)).
Proof.
  intros Hnz Hc Hsi Hp Hh p Hpin. unfold dgetc.
  destruct (cell_eq_dec p si) as [E0|Hne]; [subst p|].
  - rewrite update_dget_si. apply filter_In. split; [apply Hh; exact Hsi|].
    apply keep_spec. exists (getc s sj). split.
    + apply Hh. apply (in_cells81_peer si sj Hp).
    + intros E. apply (Hc si sj Hsi Hp); [apply Hnz; exact Hsi|congruence].
  - rewrite update_spec. cbn [snd]. unfold dget.
    rewrite (gcell_gset_other [] d si p _ Hsi Hpin Hne). apply Hh. exact Hpin.
Qed.

Lemma queue_ok_readd (si : cell) : In si cells81 -> queue_ok (readd_arcs si).
Proof.
  intros Hsi x y H. unfold readd_arcs in H. apply in_map_iff in H as [sq [E H]].
  injection E as E1 E2; subst x y. apply filter_In in H as [H _].
  destruct (cells81_range si Hsi) as [H1 H2].
  destruct (getRelated_facts (fst si) (snd si) H1 H2) as [Hr _].
  destruct si as [i j]. apply Hr in H. split; [apply (in_cells81_peer _ _ H)|].
  apply peer_cell_sym; [cbn [fst snd] in H1, H2 |- *; lia|exact H].
Qed.

Lemma queue_ok_arcs0 : queue_ok arcs0.
Proof.
  intros x y H. destruct (arcs0_peer x y H) as [H1 [H2 H3]]. split; [|exact H3].
  destruct x. apply in_cells81; assumption.
Qed.

Lemma holds_ac3_loop (s : board) (fuel : nat) (d : doms) (q : list (cell * cell)) (res : bool) (d' : doms) :
  (forall p, In p cells81 -> getc s p <> 0) -> consistent s ->
  queue_ok q -> holds s d -> ac3_loop fuel d q = Some (res, d') -> res = true /\ holds s d'.
Proof.
  intros Hnz Hc. revert d q. induction fuel as [|f IH]; intros d q Hq Hh E; [discriminate|].
  simpl in E. destruct q as [|[si sj] q'].
  - injection E as <- <-. auto.
  - destruct (Hq si sj (or_introl eq_refl)) as [Hsi Hp].
    pose proof (holds_update s d si sj Hnz Hc Hsi Hp Hh) as Hh1.
    destruct (update d si sj) as [upd d1] eqn:U. cbn [snd] in Hh1.
    assert (Hq' : queue_ok q') by (intros x y H; apply Hq; right; exact H).
    destruct upd.
    + destruct (dget d1 (fst si) (snd si)) as [|v vs] eqn:D.
      * pose proof (Hh1 si Hsi) as Hin. unfold dgetc in Hin.
        rewrite D in Hin. destruct Hin.
      * apply (IH d1 (q' ++ readd_arcs si)); [|exact Hh1|exact E].
        intros x y H. apply in_app_or in H as [H|H]; [apply Hq'; exact H|].
        apply (queue_ok_readd si Hsi). exact H.
    + apply (IH d1 q' Hq' Hh1 E).
Qed.

Lemma nth_map_rng {A} (f : Z -> A) (n i : Z) (dflt : A) :
  0 <= i < n -> nth (Z.to_nat i) (map f (rng 0 n)) dflt = f i.
Proof.
  intros Hi. unfold rng. rewrite map_map.
  rewrite nth_indep with (d' := f (0 + Z.of_nat O)) by (rewrite length_map, length_seq; lia).
  rewrite (map_nth (fun k => f (0 + Z.of_nat k))), seq_nth by lia. f_equal. lia.
Qed.

Lemma initDomains_cell (b : board) (i j : Z) :
  0 <= i < 9 -> 0 <= j < 9 ->
  dget (initDomains b) i j =
  if negb (get b i j =? 0) then [get b i j] else filter (fun k => isValid b i j k) (rng 1 9).
Proof.
  intros Hi Hj. unfold dget, gget, initDomains.
  rewrite (nth_map_rng _ 9 i [] Hi). rewrite (nth_map_rng _ 9 j [] Hj). reflexivity.
Qed.

Lemma holds_initDomains (b s : board) : solution_of b s -> holds s (initDomains b).
Proof.
  intros Hsol p Hp. destruct (cells81_range p Hp) as [H1 H2].
  unfold dgetc. change (gget [] (initDomains b) (fst p) (snd p)) with (dget (initDomains b) (fst p) (snd p)).
  rewrite (initDomains_cell b _ _ H1 H2).
  pose proof Hsol as Hs. destruct Hsol as [Hr [Hc Hk]].
  destruct (Z.eqb_spec (get b (fst p) (snd p)) 0) as [E|E]; cbn [negb].
  - apply findValid_spec. split; [apply Hr; exact Hp|].
    apply (solution_isValid b s p Hs Hp E).
  - left. symmetry. apply Hk; [exact Hp|exact E].
Qed.

Lemma ac3_keeps_solution (b s : board) :
  solution_of b s -> fst (ac3 (initDomains b)) = true /\ holds s (snd (ac3 (initDomains b))).
Proof.
  intros Hsol. pose proof (ac3_run (initDomains b)) as E.
  destruct (ac3 (initDomains b)) as [res d'] eqn:A. cbn [fst snd].
  pose proof Hsol as Hs. destruct Hsol as [Hr [Hc Hk]].
  apply (holds_ac3_loop s (ac3_fuel (initDomains b) arcs0) (initDomains b) arcs0 res d'); try assumption.
  - intros p Hp. specialize (Hr p Hp). lia.
  - exact queue_ok_arcs0.
  - apply (holds_initDomains b s Hs).
Qed.

Lemma fillSingles_fill_step (b : board) (d : doms) : fillSingles b d = fold_left (fill_step d) cells81 b.
Proof. reflexivity. Qed.

Lemma fill_step_shape (d : doms) (b : board) (p : cell) : shape9 b -> shape9 (fill_step d b p).
Proof.
  intros H. destruct p as [i j]. unfold fill_step.
  destruct (dget d i j) as [|v [|w t]]; try exact H. destruct (get b i j =? 0); [apply shape9_gset|]; exact H.
Qed.

Lemma fill_step_cell (d : doms) (b : board) (X p : cell) :
  shape9 b -> In X cells81 -> In p cells81 ->
  getc (fill_step d b X) p =
  if cell_eq_dec p X then
    (if getc b p =? 0 then match dgetc d p with [v] => v | _ => 0 end else getc b p)
  else getc b p.
Proof.
  intros Hsh HX Hp. destruct X as [i j]. unfold fill_step.
  destruct (cell_eq_dec p (i, j)) as [E|Hne].
  - subst p. unfold dgetc. cbn [fst snd]. fold (dget d i j).
    destruct (Z.eqb_spec (getc b (i, j)) 0) as [Z0|Z0].
    + unfold getc in Z0 |- *. cbn [fst snd] in Z0 |- *. rewrite Z0.
      destruct (dget d i j) as [|v [|w t]]; try exact Z0.
      rewrite Z.eqb_refl. unfold get. apply (gcell_gset_same 0 b (i, j) v Hsh HX).
    + unfold getc in Z0 |- *. cbn [fst snd] in Z0 |- *.
      destruct (dget d i j) as [|v [|w t]]; try reflexivity.
      rewrite (proj2 (Z.eqb_neq _ _) Z0). reflexivity.
  - destruct (dget d i j) as [|v [|w t]]; try reflexivity.
    destruct (get b i j =? 0); [|reflexivity].
    unfold getc, get. apply (gcell_gset_other 0 b (i, j) p v HX Hp Hne).
Qed.

Lemma fillSingles_fold (d : doms) (l : list cell) (b : board) (p : cell) :
  shape9 b -> NoDup l -> incl l cells81 -> In p cells81 ->
  getc (fold_left (fill_step d) l b) p =
  if in_dec cell_eq_dec p l then
    (if getc b p =? 0 then match dgetc d p with [v] => v | _ => 0 end else getc b p)
  else getc b p.
Proof.
  revert b. induction l as [|x t IH]; intros b Hsh Hnd Hincl Hp; [reflexivity|].
  cbn [fold_left]. apply NoDup_cons_iff in Hnd as [Hx Hnd].
  assert (HX : In x cells81) by (apply Hincl; left; reflexivity).
  rewrite (IH (fill_step d b x) (fill_step_shape d b x Hsh) Hnd
              (fun q Hq => Hincl q (or_intror Hq)) Hp).
  destruct (cell_eq_dec p x) as [E|Hne].
  - subst x. destruct (in_dec cell_eq_dec p t) as [Ht|Ht]; [contradiction|].
    destruct (in_dec cell_eq_dec p (p :: t)) as [_|Hn]; [|exfalso; apply Hn; left; reflexivity].
    rewrite (fill_step_cell d b p p Hsh HX Hp).
    destruct (cell_eq_dec p p) as [_|Hn]; [reflexivity|contradiction].
  - assert (Hc : getc (fill_step d b x) p = getc b p).
    { rewrite (fill_step_cell d b x p Hsh HX Hp).
      destruct (cell_eq_dec p x) as [E|_]; [contradiction|reflexivity]. }
    rewrite Hc.
    destruct (in_dec cell_eq_dec p t) as [Ht|Ht];
      destruct (in_dec cell_eq_dec p (x :: t)) as [Ht'|Ht']; try reflexivity.
    + exfalso. apply Ht'. right. exact Ht.
    + exfalso. destruct Ht' as [E|E]; [apply Hne; symmetry; exact E|contradiction].
Qed.

Lemma fillSingles_cell (b : board) (d : doms) (p : cell) :
  shape9 b -> In p cells81 ->
  getc (fillSingles b d) p =
  if getc b p =? 0 then match dgetc d p with [v] => v | _ => 0 end else getc b p.
Proof.
  intros Hsh Hp. rewrite fillSingles_fill_step.
  rewrite (fillSingles_fold d cells81 b p Hsh NoDup_cells81 (fun q Hq => Hq) Hp).
  destruct (in_dec cell_eq_dec p cells81) as [_|Hn]; [reflexivity|contradiction].
Qed.

Lemma fillSingles_shape (b : board) (d : doms) : shape9 b -> shape9 (fillSingles b d).
Proof.
  intros Hsh. rewrite fillSingles_fill_step. revert b Hsh.
  generalize cells81 as l. induction l as [|x t IH]; intros b Hsh; [exact Hsh|]. apply IH. apply fill_step_shape. exact Hsh.
Qed.

Lemma fillSingles_solution (b s : board) (d : doms) :
  shape9 b -> solution_of b s -> holds s d -> solution_of (fillSingles b d) s.
Proof.
  intros Hsh [Hr [Hc Hk]] Hh. split; [exact Hr|]. split; [exact Hc|].
  intros p Hp Hnz. rewrite (fillSingles_cell b d p Hsh Hp) in Hnz |- *.
  destruct (Z.eqb_spec (getc b p) 0) as [Z0|Z0].
  - pose proof (Hh p Hp) as Hin.
    destruct (dgetc d p) as [|v [|w t]]; try (exfalso; apply Hnz; reflexivity).
    destruct Hin as [E|[]]. symmetry. exact E.
  - apply Hk; assumption.
Qed.

Lemma holds_ac3 (s : board) (d : doms) :
  (forall p, In p cells81 -> getc s p <> 0) -> consistent s -> holds s d ->
  fst (ac3 d) = true /\ holds s (snd (ac3 d)).
Proof.
  intros Hnz Hc Hh. pose proof (ac3_run d) as E. destruct (ac3 d) as [res d'].
  apply (holds_ac3_loop s _ d arcs0 res d' Hnz Hc queue_ok_arcs0 Hh E).
Qed.

Lemma ac3_facts (d : doms) :
  (forall r c, incl (dget (snd (ac3 d)) r c) (dget d r c)) /\
  (fst (ac3 d) = true -> forall r c, dget (snd (ac3 d)) r c = [] -> dget d r c = []) /\
  (fst (ac3 d) = true -> forall a b, In (a, b) arcs0 -> arc_consistent (snd (ac3 d)) a b).
Proof.
  pose proof (ac3_run d) as Hrun. destruct (ac3 d) as [ok d'] eqn:Hac. cbn [fst snd].
  destruct (ac3_loop_sound _ _ _ _ _ Hrun) as [H1 [_ H3]].
  split; [exact H1|]. split; [exact H3|].
  intros -> a b Hab. exact (ac3_loop_fixpoint _ _ _ _ (ac3_inv_init d) Hrun a b Hab).
Qed.

Lemma ac3_loop_shape (fuel : nat) (d : doms) (q : list (cell * cell)) (res : bool) (d' : doms) :
  shape9 d -> ac3_loop fuel d q = Some (res, d') -> shape9 d'.
Proof.
  revert d q. induction fuel as [|f IH]; intros d q Hsh E; [discriminate|].
  simpl in E. destruct q as [|[si sj] q'].
  - injection E as _ <-. exact Hsh.
  - assert (Hsh1 : shape9 (snd (update d si sj))) by (rewrite update_spec; apply shape9_gset; exact Hsh).
    destruct (update d si sj) as [upd d1]. cbn [snd] in Hsh1.
    destruct upd; [destruct (dget d1 (fst si) (snd si))|]; [injection E as _ <-; exact Hsh1| |];
      eapply IH; eassumption.
Qed.

Lemma ac3_shape (d : doms) : shape9 d -> shape9 (snd (ac3 d)).
Proof.
  intros Hsh. pose proof (ac3_run d) as E. destruct (ac3 d) as [res d'].
  exact (ac3_loop_shape _ _ _ _ _ Hsh E).
Qed.

Lemma initDomains_shape (b : board) : shape9 (initDomains b).
Proof.
  unfold initDomains, shape9. split; [reflexivity|].
  apply Forall_forall. intros row Hrow. apply in_map_iff in Hrow as [i [<- _]].
  rewrite length_map. reflexivity.
Qed.

Lemma arcs0_In (p q : cell) : In p cells81 -> peer_cell p q -> In (p, q) arcs0.
Proof.
  intros Hp Hq. apply arcs0_spec. split; [exact Hp|].
  destruct (cells81_range p Hp) as [H1 H2]. destruct p as [i j].
  apply (getRelated_facts i j H1 H2). exact Hq.
Qed.

Lemma single_in (l : list Z) (v : Z) : l <> [] -> incl l [v] -> In v l.
Proof.
  intros Hn Hi. destruct l as [|x t]; [contradiction|].
  destruct (Hi x (or_introl eq_refl)) as [E|[]]. left. symmetry. exact E.
Qed.

Lemma mac_inv_consistent (b : board) (d : doms) : mac_inv b d -> consistent b.
Proof.
  intros [_ [_ [_ [Hac [Hf _]]]]] p q Hp Hpq Hnz E.
  assert (Hq : In q cells81) by exact (in_cells81_peer p q Hpq).
  assert (Hnq : getc b q <> 0) by congruence.
  destruct (Hf p Hp Hnz) as [Hn1 Hi1]. destruct (Hf q Hq Hnq) as [_ Hi2].
  destruct (Hac p q (arcs0_In p q Hp Hpq) (getc b p) (single_in _ _ Hn1 Hi1)) as [w [Hw Hne]].
  destruct (Hi2 w Hw) as [<-|[]]. congruence.
Qed.

Lemma mac_inv_step (b : board) (d d1 : doms) (X : cell) (v : Z) :
  mac_inv b d -> In X cells81 -> getc b X = 0 -> In v (dgetc d X) ->
  ac3 (gset d (fst X) (snd X) [v]) = (true, d1) ->
  mac_inv (gset b (fst X) (snd X) v) d1.
Proof.
  intros Hinv HX H0 Hv E. pose proof Hinv as [Hsb [Hsd [Hbd [Hac [Hf Hnz]]]]].
  set (d0 := gset d (fst X) (snd X) [v]).
  change (ac3 d0 = (true, d1)) in E.
  destruct (ac3_facts d0) as [Hincl [Hne Harc]]. rewrite E in Hincl, Hne, Harc. cbn [fst snd] in *.
  assert (Hv0 : v <> 0) by exact (Hnz X v HX Hv).
  assert (Hd0X : dgetc d0 X = [v]) by exact (gcell_gset_same [] d X [v] Hsd HX).
  assert (Hd0 : forall p, In p cells81 -> p <> X -> dgetc d0 p = dgetc d p)
    by (intros p Hp Hn; exact (gcell_gset_other [] d X p [v] HX Hp Hn)).
  assert (Hbx : getc (gset b (fst X) (snd X) v) X = v) by exact (gcell_gset_same 0 b X v Hsb HX).
  assert (Hbo : forall p, In p cells81 -> p <> X -> getc (gset b (fst X) (snd X) v) p = getc b p)
    by (intros p Hp Hn; exact (gcell_gset_other 0 b X p v HX Hp Hn)).
  assert (Hne' : forall p, In p cells81 -> dgetc d0 p <> [] -> dgetc d1 p <> []).
  { intros p Hp Hn E1. apply Hn. apply (Hne eq_refl (fst p) (snd p)). exact E1. }
  split; [apply shape9_gset; exact Hsb|].
  split; [pose proof (ac3_shape d0 (shape9_gset d _ _ _ Hsd)) as Hs; rewrite E in Hs; exact Hs|].
  split.
  { intros r c. pose proof (bounded_step d (fst X) (snd X) v Hbd r c) as Hb.
    fold d0 in Hb. rewrite E in Hb. exact Hb. }
  split; [exact (Harc eq_refl)|].
  split.
  - intros p Hp Hnzp. destruct (cell_eq_dec p X) as [->|Hn].
    + rewrite Hbx. split.
      * apply Hne'; [exact HX|]. rewrite Hd0X. discriminate.
      * rewrite <- Hd0X. apply (Hincl (fst X) (snd X)).
    + rewrite (Hbo p Hp Hn) in Hnzp |- *. destruct (Hf p Hp Hnzp) as [Hn1 Hi1]. split.
      * apply Hne'; [exact Hp|]. rewrite (Hd0 p Hp Hn). exact Hn1.
      * intros w Hw. apply Hi1. rewrite <- (Hd0 p Hp Hn). apply (Hincl (fst p) (snd p)). exact Hw.
  - intros p w Hp Hw. apply (Hincl (fst p) (snd p)) in Hw. fold (dgetc d0 p) in Hw.
    destruct (cell_eq_dec p X) as [->|Hn].
    + rewrite Hd0X in Hw. destruct Hw as [<-|[]]. exact Hv0.
    + rewrite (Hd0 p Hp Hn) in Hw. exact (Hnz p w Hp Hw).
Qed.

Lemma bounded_ac3_step (d : doms) (r c v : Z) : bounded d -> bounded (snd (ac3 (gset d r c [v]))).
Proof. intros H. exact (bounded_step d r c v H). Qed.

Lemma mac_inv_parts (b : board) (d : doms) :
  mac_inv b d -> shape9 b /\ shape9 d /\ bounded d.
Proof. intros [H1 [H2 [H3 _]]]. auto. Qed.

Section MACCorrect.

Variable nextEmpty : board -> doms -> cell.
Variable validNumFinder : doms -> Z -> Z -> list Z.
Hypothesis mne_sentinel : forall b d, bounded d -> is_sentinel (nextEmpty b d) = true -> no_zeros b.
Hypothesis mne_cell :
  forall b d, is_sentinel (nextEmpty b d) = false -> In (nextEmpty b d) cells81 /\ getc b (nextEmpty b d) = 0.
Hypothesis mvf_dom : forall d row col v, In v (validNumFinder d row col) <-> In v (dget d row col).

Lemma mne_empty (b : board) (d : doms) :
  is_sentinel (nextEmpty b d) = false -> get b (fst (nextEmpty b d)) (snd (nextEmpty b d)) = 0.
Proof. intros H. apply (mne_cell b d H). Qed.

Lemma pruningMAC_sound (fuel : nat) (b : board) (d : doms) (steps backtracks : Z) :
  mac_inv b d -> mac_sound_res (pruningMAC nextEmpty validNumFinder fuel b d steps backtracks) b.
Proof.
  revert b d steps backtracks. induction fuel as [|f IH]; intros b d steps backtracks Hinv; [exact I|].
  simpl. pose proof (mne_cell b d) as Hn. pose proof (mne_sentinel b d) as Hs.
  pose proof (mvf_dom d) as Hvf.
  destruct (nextEmpty b d) as [row col].
  destruct (is_sentinel (row, col)).
  - split; [exact (mac_inv_consistent b d Hinv)|].
    split; [apply Hs; [apply (mac_inv_parts b d Hinv)|reflexivity]|auto].
  - destruct (Hn eq_refl) as [HX H0].
    assert (Hv : forall v, In v (validNumFinder d row col) -> In v (dgetc d (row, col)))
      by (intros v; apply Hvf).
    clear Hvf. revert Hv. generalize (validNumFinder d row col) as vals. intros vals Hv.
    generalize (steps + 1). revert backtracks.
    induction vals as [|v vs IHv]; intros backtracks st; [exact I|].
    assert (Hv' : forall w, In w vs -> In w (dgetc d (row, col))) by (intros w Hw; apply Hv; right; exact Hw).
    destruct (ac3 (gset d row col [v])) as [ok d1] eqn:A.
    destruct ok.
    + pose proof (mac_inv_step b d d1 (row, col) v Hinv HX H0 (Hv v (or_introl eq_refl)) A) as Hinv1.
      cbn [fst snd] in Hinv1.
      pose proof (IH (gset b row col v) d1 st backtracks Hinv1) as Hch.
      pose proof (pruningMAC_restores nextEmpty validNumFinder bounded mne_sentinel mne_empty
                    bounded_ac3_step f (gset b row col v) d1 st backtracks (proj2 (proj2 (mac_inv_parts _ _ Hinv1)))) as Hr.
      destruct (pruningMAC nextEmpty validNumFinder f (gset b row col v) d1 st backtracks)
        as [[[[[ok b'] d'] s'] bt']|]; [|exact I].
      destruct ok.
      * destruct Hch as [Hcons [Hfull Hext]]. split; [exact Hcons|]. split; [exact Hfull|].
        intros p Hp Hnz.
        pose proof (keep_filled b (row, col) p v HX H0 Hp Hnz) as K. cbn [fst snd] in K.
        rewrite (Hext p Hp) by (rewrite K; exact Hnz). exact K.
      * destruct Hr as [Hr _]. subst b'. rewrite gset_gset, (gset_restore b row col H0). apply IHv. exact Hv'.
    + rewrite gset_gset, (gset_restore b row col H0). apply IHv. exact Hv'.
Qed.

Lemma pruningMAC_total (fuel : nat) (b : board) (d : doms) (steps backtracks : Z) :
  mac_inv b d -> (zeros b < fuel)%nat -> pruningMAC nextEmpty validNumFinder fuel b d steps backtracks <> None.
Proof.
  revert b d steps backtracks. induction fuel as [|f IH]; intros b d steps backtracks Hinv Hz; [lia|].
  simpl. pose proof (mne_cell b d) as Hn. pose proof (mvf_dom d) as Hvf.
  destruct (nextEmpty b d) as [row col].
  destruct (is_sentinel (row, col)); [discriminate|].
  destruct (Hn eq_refl) as [HX H0].
  assert (Hv : forall v, In v (validNumFinder d row col) -> In v (dgetc d (row, col)))
    by (intros v; apply Hvf).
  clear Hvf. revert Hv. generalize (validNumFinder d row col) as vals. intros vals Hv.
  generalize (steps + 1). revert backtracks.
  induction vals as [|v vs IHv]; intros backtracks st; [discriminate|].
  assert (Hv' : forall w, In w vs -> In w (dgetc d (row, col))) by (intros w Hw; apply Hv; right; exact Hw).
  destruct (ac3 (gset d row col [v])) as [ok d1] eqn:A.
  destruct ok.
  - pose proof (mac_inv_step b d d1 (row, col) v Hinv HX H0 (Hv v (or_introl eq_refl)) A) as Hinv1.
    cbn [fst snd] in Hinv1.
    assert (Hv0 : v <> 0) by (destruct Hinv as [_ [_ [_ [_ [_ Hnz]]]]]; exact (Hnz _ v HX (Hv v (or_introl eq_refl)))).
    pose proof (zeros_place b (row, col) v (proj1 (mac_inv_parts b d Hinv)) HX H0 Hv0) as Hzc. cbn [fst snd] in Hzc.
    pose proof (IH (gset b row col v) d1 st backtracks Hinv1 ltac:(lia)) as Hch.
    pose proof (pruningMAC_restores nextEmpty validNumFinder bounded mne_sentinel mne_empty
                  bounded_ac3_step f (gset b row col v) d1 st backtracks (proj2 (proj2 (mac_inv_parts _ _ Hinv1)))) as Hr.
    destruct (pruningMAC nextEmpty validNumFinder f (gset b row col v) d1 st backtracks)
      as [[[[[ok b'] d'] s'] bt']|]; [|contradiction].
    destruct ok; [discriminate|].
    destruct Hr as [Hr _]. subst b'. rewrite gset_gset, (gset_restore b row col H0). apply IHv. exact Hv'.
  - rewrite gset_gset, (gset_restore b row col H0). apply IHv. exact Hv'.
Qed.

Lemma pruningMAC_complete (fuel : nat) (b s : board) (d : doms) (steps backtracks : Z) :
  mac_inv b d -> solution_of b s -> holds s d -> (zeros b < fuel)%nat ->
  exists b' d' st bt, pruningMAC nextEmpty validNumFinder fuel b d steps backtracks = Some (true, b', d', st, bt).
Proof.
  revert b d steps backtracks. induction fuel as [|f IH]; intros b d steps backtracks Hinv Hsol Hh Hz; [lia|].
  simpl. pose proof (mne_cell b d) as Hn. pose proof (mvf_dom d) as Hvf.
  destruct (nextEmpty b d) as [row col].
  destruct (is_sentinel (row, col)); [eauto|].
  destruct (Hn eq_refl) as [HX H0].
  assert (Hin : In (getc s (row, col)) (validNumFinder d row col)) by (apply Hvf; apply (Hh _ HX)).
  assert (Hv : forall v, In v (validNumFinder d row col) -> In v (dgetc d (row, col)))
    by (intros v; apply Hvf).
  clear Hvf. revert Hin Hv. generalize (validNumFinder d row col) as vals. intros vals Hin Hv.
  generalize (steps + 1). revert backtracks.
  induction vals as [|v vs IHv]; intros backtracks st; [destruct Hin|].
  assert (Hv' : forall w, In w vs -> In w (dgetc d (row, col))) by (intros w Hw; apply Hv; right; exact Hw).
  assert (Hv0 : v <> 0) by (destruct Hinv as [_ [_ [_ [_ [_ Hnz]]]]]; exact (Hnz _ v HX (Hv v (or_introl eq_refl)))).
  pose proof (zeros_place b (row, col) v (proj1 (mac_inv_parts b d Hinv)) HX H0 Hv0) as Hzc. cbn [fst snd] in Hzc.
  destruct (Z.eq_dec v (getc s (row, col))) as [Ev|Hne].
  - subst v.
    assert (Hh0 : holds s (gset d row col [getc s (row, col)])).
    { intros p Hp. destruct (cell_eq_dec p (row, col)) as [->|Hn'].
      - unfold dgetc. rewrite (gcell_gset_same [] d (row, col) _ (proj1 (proj2 (mac_inv_parts b d Hinv))) HX). left. reflexivity.
      - unfold dgetc. rewrite (gcell_gset_other [] d (row, col) p _ HX Hp Hn'). apply Hh. exact Hp. }
    pose proof Hsol as Hsol'. destruct Hsol as [Hrg [Hc Hk]].
    destruct (holds_ac3 s _ ltac:(intros p Hp; specialize (Hrg p Hp); lia) Hc Hh0) as [Hok Hh1].
    destruct (ac3 (gset d row col [getc s (row, col)])) as [ok d1] eqn:A. cbn [fst snd] in Hok, Hh1. subst ok.
    pose proof (mac_inv_step b d d1 (row, col) _ Hinv HX H0 (Hv _ (or_introl eq_refl)) A) as Hinv1.
    cbn [fst snd] in Hinv1.
    destruct (IH (gset b row col (getc s (row, col))) d1 st backtracks Hinv1
                 (solution_place b s (row, col) Hsol' HX) Hh1 ltac:(lia)) as [b' [d' [s' [bt' E]]]].
    rewrite E. eauto.
  - assert (Hin' : In (getc s (row, col)) vs) by (destruct Hin as [E|E]; [congruence|exact E]).
    destruct (ac3 (gset d row col [v])) as [ok d1] eqn:A.
    destruct ok.
    + pose proof (mac_inv_step b d d1 (row, col) v Hinv HX H0 (Hv v (or_introl eq_refl)) A) as Hinv1.
      cbn [fst snd] in Hinv1.
      pose proof (pruningMAC_total f (gset b row col v) d1 st backtracks Hinv1 ltac:(lia)) as Htot.
      pose proof (pruningMAC_restores nextEmpty validNumFinder bounded mne_sentinel mne_empty
                    bounded_ac3_step f (gset b row col v) d1 st backtracks (proj2 (proj2 (mac_inv_parts _ _ Hinv1)))) as Hr.
      destruct (pruningMAC nextEmpty validNumFinder f (gset b row col v) d1 st backtracks)
        as [[[[[ok b'] d'] s'] bt']|]; [|contradiction].
      destruct ok; [eauto|].
      destruct Hr as [Hr _]. subst b'. rewrite gset_gset, (gset_restore b row col H0). apply IHv; assumption.
    + rewrite gset_gset, (gset_restore b row col H0). apply IHv; assumption.
Qed.

Lemma pruningMAC_solves (fuel : nat) (b s : board) (d : doms) (steps backtracks : Z) :
  mac_inv b d -> solution_of b s -> holds s d -> (zeros b < fuel)%nat ->
  exists b' d' st bt, pruningMAC nextEmpty validNumFinder fuel b d steps backtracks = Some (true, b', d', st, bt) /\
                      solves_from b b'.
Proof.
  intros Hinv Hsol Hh Hz.
  destruct (pruningMAC_complete fuel b s d steps backtracks Hinv Hsol Hh Hz) as [b' [d' [st [bt E]]]].
  exists b', d', st, bt. split; [exact E|].
  pose proof (pruningMAC_sound fuel b d steps backtracks Hinv) as H. rewrite E in H. exact H.
Qed.

End MACCorrect.

Lemma findEmptyMAC_sentinel (b : board) (d : doms) : bounded d -> is_sentinel (findEmptyMAC b d) = true -> no_zeros b.
Proof. intros _. apply findEmpty_facts. Qed.

Lemma findEmptyMAC_cell (b : board) (d : doms) :
  is_sentinel (findEmptyMAC b d) = false -> In (findEmptyMAC b d) cells81 /\ getc b (findEmptyMAC b d) = 0.
Proof. apply findEmpty_cell. Qed.

Lemma findEmptyMRVMAC_sentinel (b : board) (d : doms) :
  bounded d -> is_sentinel (findEmptyMRVMAC b d) = true -> no_zeros b.
Proof. apply findEmptyMRVMAC_facts. Qed.

Lemma findEmptyMRVMAC_cell (b : board) (d : doms) :
  is_sentinel (findEmptyMRVMAC b d) = false -> In (findEmptyMRVMAC b d) cells81 /\ getc b (findEmptyMRVMAC b d) = 0.
Proof.
  unfold findEmptyMRVMAC. intros Hs. destruct (mrv_mac_scan_in b d cells81 10 (-1, -1)) as [E|[Hin Hg]].
  - rewrite E in Hs. discriminate.
  - split; [exact Hin|exact Hg].
Qed.

Lemma findValidMAC_dom (d : doms) (row col v : Z) : In v (findValidMAC d row col) <-> In v (dget d row col).
Proof. reflexivity. Qed.

Lemma fold_insert_perm (g : Z -> Z) (l : list Z) (vc : list (Z * Z)) :
  Permutation (map fst (fold_left (fun vc val => insert_by_count (val, g val) vc) l vc)) (map fst vc ++ l).
Proof.
  revert vc. induction l as [|x t IH]; intros vc; simpl; [rewrite app_nil_r; reflexivity|].
  rewrite IH. rewrite (Permutation_map fst (insert_by_count_perm (x, g x) vc)). simpl.
  apply Permutation_middle.
Qed.

Lemma findValidLCVMAC_perm (d : doms) (row col : Z) :
  Permutation (findValidLCVMAC d row col) (dget d row col).
Proof. unfold findValidLCVMAC. exact (fold_insert_perm _ (dget d row col) []). Qed.

Lemma findValidLCVMAC_dom (d : doms) (row col v : Z) : In v (findValidLCVMAC d row col) <-> In v (dget d row col).
Proof.
  split; apply Permutation_in; [|apply Permutation_sym]; apply findValidLCVMAC_perm.
Qed.

Lemma initDomains_values (b : board) (p : cell) (v : Z) :
  In p cells81 -> In v (dgetc (initDomains b) p) ->
  (getc b p <> 0 /\ v = getc b p) \/ (getc b p = 0 /\ 1 <= v <= 9).
Proof.
  intros Hp Hv. destruct (cells81_range p Hp) as [H1 H2].
  unfold dgetc in Hv. change (gget [] (initDomains b) (fst p) (snd p)) with (dget (initDomains b) (fst p) (snd p)) in Hv.
  rewrite (initDomains_cell b _ _ H1 H2) in Hv. unfold getc.
  destruct (Z.eqb_spec (get b (fst p) (snd p)) 0) as [E|E]; cbn [negb] in Hv.
  - right. split; [exact E|]. apply findValid_spec in Hv. apply Hv.
  - left. destruct Hv as [<-|[]]. auto.
Qed.

Lemma mac_inv_init (b : board) :
  shape9 b -> fst (ac3 (initDomains b)) = true ->
  mac_inv (fillSingles b (snd (ac3 (initDomains b)))) (snd (ac3 (initDomains b))).
Proof.
  intros Hsh Hok. destruct (ac3_facts (initDomains b)) as [Hincl [Hne Harc]].
  set (d := snd (ac3 (initDomains b))) in *.
  split; [apply fillSingles_shape; exact Hsh|].
  split; [apply ac3_shape, initDomains_shape|].
  split; [intros r c; pose proof (ac3_len (initDomains b) r c);
          pose proof (dom_boundedb_spec _ (initDomains_bounded b) r c); unfold d; lia|].
  split; [exact (Harc Hok)|].
  split.
  - intros p Hp Hnz. rewrite (fillSingles_cell b d p Hsh Hp) in Hnz |- *.
    destruct (Z.eqb_spec (getc b p) 0) as [E|E].
    + destruct (dgetc d p) as [|v [|w t]]; try (exfalso; apply Hnz; reflexivity).
      split; [discriminate|apply incl_refl].
    + destruct (cells81_range p Hp) as [H1 H2].
      assert (Hi : dget (initDomains b) (fst p) (snd p) = [getc b p]).
      { rewrite (initDomains_cell b _ _ H1 H2). unfold getc in E.
        rewrite (proj2 (Z.eqb_neq _ _) E). reflexivity. }
      split.
      * intros E0. apply (Hne Hok (fst p) (snd p)) in E0. rewrite Hi in E0. discriminate.
      * intros w Hw. rewrite <- Hi. apply (Hincl (fst p) (snd p)). exact Hw.
  - intros p v Hp Hv. apply (Hincl (fst p) (snd p)) in Hv.
    destruct (initDomains_values b p v Hp Hv) as [[H1 ->]|[_ H2]]; [exact H1|lia].
Qed.

Lemma solves_from_fill (b b' : board) (d : doms) :
  shape9 b -> solves_from (fillSingles b d) b' -> solves_from b b'.
Proof.
  intros Hsh [Hc [Hf Hk]]. split; [exact Hc|]. split; [exact Hf|].
  intros p Hp Hnz.
  assert (E : getc (fillSingles b d) p = getc b p).
  { rewrite (fillSingles_cell b d p Hsh Hp). rewrite (proj2 (Z.eqb_neq _ _) Hnz). reflexivity. }
  rewrite <- E. apply Hk; [exact Hp|]. rewrite E. exact Hnz.
Qed.

Lemma zeros_lt (b : board) (fuel : nat) : (81 < fuel)%nat -> (zeros b < fuel)%nat.
Proof. intros H. pose proof (zeros_le b). lia. Qed.

Ltac mac_finder_facts :=
  first [ exact findEmptyMAC_sentinel | exact findEmptyMRVMAC_sentinel | exact findEmptyMAC_cell
        | exact findEmptyMRVMAC_cell | exact findValidMAC_dom | exact findValidLCVMAC_dom ].

Ltac solve_search b0 s0 Hsh0 Hsol0 Hz0 Hinv0 Hh0 :=
  match goal with
  | |- context [pruning ?ne ?vf ?fuel ?bb 0 0] =>
      let H := fresh in
      assert (H : exists b' st bt, pruning ne vf fuel bb 0 0 = Some (true, b', st, bt) /\ solves_from bb b')
        by (apply (pruning_solves ne vf) with (s := s0);
            first [exact Hsh0 | exact Hsol0 | exact Hz0 | finder_facts]);
      let b' := fresh "b'" in let E := fresh "E" in let Hs := fresh "Hs" in
      destruct H as [b' [? [? [E Hs]]]]; rewrite E
  | |- context [forwardChecking ?ne ?vf ?fuel ?bb 0 0] =>
      let H := fresh in
      assert (H : exists b' st bt, forwardChecking ne vf fuel bb 0 0 = Some (true, b', st, bt) /\ solves_from bb b')
        by (apply (forwardChecking_solves ne vf) with (s := s0);
            first [exact Hsh0 | exact Hsol0 | exact Hz0 | finder_facts]);
      let b' := fresh "b'" in let E := fresh "E" in let Hs := fresh "Hs" in
      destruct H as [b' [? [? [E Hs]]]]; rewrite E
  | |- context [pruningMAC ?ne ?vf ?fuel ?bb ?dd 0 0] =>
      let H := fresh in
      assert (H : exists b' d' st bt, pruningMAC ne vf fuel bb dd 0 0 = Some (true, b', d', st, bt) /\
                                      solves_from bb b')
        by (apply (pruningMAC_solves ne vf) with (s := s0);
            first [exact Hinv0 | exact Hsol0 | exact Hh0 | exact Hz0 | mac_finder_facts]);
      let b' := fresh "b'" in let E := fresh "E" in let Hs := fresh "Hs" in
      destruct H as [b' [? [? [? [E Hs]]]]]; rewrite E
  end.

(** X1: for every valid menu choice (method 1-3, empty-cell finder 1-2, value order 1-2)
    on a 9x9 board that has a solution, [solve] with enough fuel runs the search and
    reports a solved result whose board is full, consistent and keeps every given; the
    events are the AC-3 preprocessing when it runs, then the search. *)
Lemma solve_solves (method emptyFinder valueOrder useAC3 runtime : Z) (fuel : nat) (b s : board) :
  (method = 1 \/ method = 2 \/ method = 3) -> (emptyFinder = 1 \/ emptyFinder = 2) ->
  (valueOrder = 1 \/ valueOrder = 2) -> shape9 b -> solution_of b s -> (81 < fuel)%nat ->
  exists r, solve method emptyFinder valueOrder useAC3 runtime fuel b =
            Some (r, (if (useAC3 =? 1) || (method =? 3) then [EvAC3Preprocessing] else []) ++ [EvSearch method]) /\
            solved r = true /\ solves_from b (sr_board r).
Proof.
  intros Hm He Hv Hsh Hsol Hf. unfold solve.
  destruct ((useAC3 =? 1) || (method =? 3)) eqn:U.
  - destruct (ac3_keeps_solution b s Hsol) as [Hok Hh].
    pose proof (mac_inv_init b Hsh Hok) as Hinv.
    pose proof (fillSingles_solution b s (snd (ac3 (initDomains b))) Hsh Hsol Hh) as Hsol1.
    pose proof (fillSingles_shape b (snd (ac3 (initDomains b))) Hsh) as Hsh1.
    destruct (ac3 (initDomains b)) as [ok d] eqn:A. cbn [fst snd] in *. subst ok.
    cbv beta iota zeta.
    assert (Hz : (zeros (fillSingles b d) < fuel)%nat) by (apply zeros_lt; exact Hf).
    destruct Hm as [->|[->| ->]]; destruct He as [->| ->]; destruct Hv as [->| ->];
      cbn [orb andb Z.eqb Pos.eqb option_map];
      solve_search b s Hsh1 Hsol1 Hz Hinv Hh; cbn [option_map];
      (eexists; split; [reflexivity|split; [reflexivity|exact (solves_from_fill b _ d Hsh ltac:(eassumption))]]).
  - cbv beta iota zeta.
    assert (Hz : (zeros b < fuel)%nat) by (apply zeros_lt; exact Hf).
    destruct Hm as [->|[->| ->]];
      [| |rewrite Z.eqb_refl, orb_true_r in U; discriminate];
      destruct He as [->| ->]; destruct Hv as [->| ->];
      cbn [orb andb Z.eqb Pos.eqb];
      solve_search b s Hsh Hsol Hz I I;
      (eexists; split; [reflexivity|split; [reflexivity|eassumption]]).
Qed.

Ltac sound_leaf H Hcons Hinv :=
  match type of H with
  | context [pruning ?ne ?vf ?fuel ?bb 0 0] =>
      let S := fresh "S" in
      assert (S : sound_res (pruning ne vf fuel bb 0 0) bb)
        by (apply pruning_sound; first [exact Hcons | finder_facts]);
      destruct (pruning ne vf fuel bb 0 0) as [[[[[|] ?b'] ?st] ?bt]|]
  | context [forwardChecking ?ne ?vf ?fuel ?bb 0 0] =>
      let S := fresh "S" in
      assert (S : sound_res (forwardChecking ne vf fuel bb 0 0) bb)
        by (apply forwardChecking_sound; first [exact Hcons | finder_facts]);
      destruct (forwardChecking ne vf fuel bb 0 0) as [[[[[|] ?b'] ?st] ?bt]|]
  | context [pruningMAC ?ne ?vf ?fuel ?bb ?dd 0 0] =>
      let S := fresh "S" in
      assert (S : mac_sound_res (pruningMAC ne vf fuel bb dd 0 0) bb)
        by (apply pruningMAC_sound; first [exact Hinv | mac_finder_facts]);
      destruct (pruningMAC ne vf fuel bb dd 0 0) as [[[[[[|] ?b'] ?d'] ?st] ?bt]|]
  end.

(** X2: when [solve] reports a solved result, its board is full, consistent and keeps
    every given, provided the board is 9x9 and either AC-3 preprocessing runs or the
    entered board is already consistent. *)
Lemma solve_sound (method emptyFinder valueOrder useAC3 runtime : Z) (fuel : nat) (b : board)
  (r : SolveResult) (ev : list solve_event) :
  shape9 b -> ((useAC3 =? 1) || (method =? 3) = true \/ consistent b) ->
  solve method emptyFinder valueOrder useAC3 runtime fuel b = Some (r, ev) ->
  solved r = true -> solves_from b (sr_board r).
Proof.
  intros Hsh Hpre H Hr. unfold solve in H.
  destruct ((useAC3 =? 1) || (method =? 3)) eqn:U.
  - pose proof (mac_inv_init b Hsh) as Hinv.
    destruct (ac3 (initDomains b)) as [[|] d] eqn:A; cbv beta iota zeta in H;
      [|injection H as <- _; vm_compute in Hr; discriminate].
    specialize (Hinv eq_refl). cbn [snd] in Hinv.
    pose proof (mac_inv_consistent _ _ Hinv) as Hcons.
    repeat match type of H with context [if ?c then _ else _] => destruct c end;
      cbv beta iota zeta in H;
      try (injection H as <- _; vm_compute in Hr; discriminate);
      sound_leaf H Hcons Hinv; try discriminate; cbn [option_map] in H;
      injection H as <- _; cbn [solved sr_board] in Hr |- *; try discriminate;
      exact (solves_from_fill b _ d Hsh S).
  - destruct Hpre as [Hpre|Hcons]; [discriminate|].
    apply orb_false_iff in U as [_ U3]. rewrite U3 in H. cbn [andb] in H.
    cbv beta iota zeta in H.
    repeat match type of H with context [if ?c then _ else _] => destruct c end;
      cbv beta iota zeta in H;
      try (injection H as <- _; vm_compute in Hr; discriminate);
      sound_leaf H Hcons I; try discriminate;
      injection H as <- _; cbn [solved sr_board] in Hr |- *; try discriminate; exact S.
Qed.

(** ** readPuzzle, comparison, printBoard *)

Lemma read_line_shape (row : Z) (cs : list ascii) (col : Z) (b : board) :
  shape9 b -> shape9 (read_line row cs col b).
Proof.
  revert col b. induction cs as [|c t IH]; intros col b Hsh; simpl; [exact Hsh|].
  destruct (col <? 9); [|exact Hsh].
  destruct (Ascii.eqb c ","%char); [apply IH; exact Hsh|].
  destruct (isdigit c); [apply IH; apply shape9_gset; exact Hsh|].
  destruct (Ascii.eqb c " "%char); apply IH; [apply shape9_gset|]; exact Hsh.
Qed.

Lemma read_line_cell (row : Z) (cs : list ascii) (col : Z) (b : board) (r j : Z) :
  shape9 b -> 0 <= row < 9 -> 0 <= col -> 0 <= r < 9 -> 0 <= j < 9 ->
  get (read_line row cs col b) r j =
  if (r =? row) && (col <=? j) then nth_or (line_cells cs) (Z.to_nat (j - col)) (get b r j)
  else get b r j.
Proof.
  revert col b. induction cs as [|c t IH]; intros col b Hsh Hrow Hcol Hr Hj.
  - simpl. unfold nth_or. destruct (Z.to_nat (j - col)); destruct (_ && _); reflexivity.
  - cbn [read_line]. destruct (Z.ltb_spec col 9) as [Hc9|Hc9].
    2:{ destruct (Z.leb_spec col j); [lia|]. rewrite andb_false_r. reflexivity. }
    unfold line_cells. cbn [filter].
    assert (Hupd : forall v, get (gset b row col v) r j =
                             if (r =? row) && (j =? col) then v else get b r j).
    { intros v. unfold get.
      destruct (Z.eqb_spec r row) as [->|Hne]; [destruct (Z.eqb_spec j col) as [->|Hne']|]; cbn [andb].
      - exact (gcell_gset_same 0 b (row, col) v Hsh (in_cells81 row col Hrow ltac:(lia))).
      - apply (gcell_gset_other 0 b (row, col) (row, j) v (in_cells81 row col Hrow ltac:(lia))
                 (in_cells81 row j Hrow Hj)). congruence.
      - apply (gcell_gset_other 0 b (row, col) (r, j) v (in_cells81 row col Hrow ltac:(lia))
                 (in_cells81 r j Hr Hj)). congruence. }
    assert (Hstep : forall v, is_cell c = true -> cell_value c = v ->
              get (read_line row t (col + 1) (gset b row col v)) r j =
              (if (r =? row) && (col <=? j)
               then nth_or (map cell_value (if is_cell c then c :: filter is_cell t else filter is_cell t))
                      (Z.to_nat (j - col)) (get b r j)
               else get b r j)).
    { intros v Hc Hv. rewrite Hc.
      rewrite (IH (col + 1) _ (shape9_gset _ _ _ _ Hsh) Hrow ltac:(lia) Hr Hj). rewrite !Hupd.
      destruct (Z.eqb_spec r row); cbn [andb]; [|reflexivity].
      destruct (Z.eqb_spec j col) as [->|Hne].
      - rewrite Z.leb_refl. destruct (Z.leb_spec (col + 1) col); [lia|].
        unfold nth_or. rewrite Z.sub_diag. cbn. symmetry. exact Hv.
      - destruct (Z.leb_spec (col + 1) j); destruct (Z.leb_spec col j); try lia.
        unfold nth_or. replace (Z.to_nat (j - col)) with (S (Z.to_nat (j - (col + 1)))) by lia.
        reflexivity. }
    destruct (Ascii.eqb c ","%char) eqn:Ec.
    + assert (Hn : is_cell c = false) by (apply Ascii.eqb_eq in Ec; subst c; reflexivity).
      rewrite Hn. apply IH; assumption.
    + destruct (isdigit c) eqn:Ed.
      * apply Hstep; [unfold is_cell; rewrite Ed; reflexivity|unfold cell_value; rewrite Ed; reflexivity].
      * destruct (Ascii.eqb c " "%char) eqn:Es.
        -- apply Hstep; [unfold is_cell; rewrite Ed, Es; reflexivity|unfold cell_value; rewrite Ed; reflexivity].
        -- assert (Hn : is_cell c = false) by (unfold is_cell; rewrite Ed, Es; reflexivity).
           rewrite Hn. apply IH; assumption.
Qed.

Lemma read_rows_shape (ls : list string) (row : Z) (b : board) : shape9 b -> shape9 (read_rows ls row b).
Proof.
  revert row b. induction ls as [|l t IH]; intros row b Hsh; simpl; [exact Hsh|].
  destruct (row <? 9); [apply IH; apply read_line_shape|]; exact Hsh.
Qed.

Lemma read_rows_cell (ls : list string) (row : Z) (b : board) (r j : Z) :
  shape9 b -> 0 <= row -> 0 <= r < 9 -> 0 <= j < 9 ->
  get (read_rows ls row b) r j =
  if row <=? r then
    match nth_error ls (Z.to_nat (r - row)) with
    | Some l => nth_or (line_cells (list_ascii_of_string l)) (Z.to_nat j) (get b r j)
    | None => get b r j
    end
  else get b r j.
Proof.
  revert row b. induction ls as [|l t IH]; intros row b Hsh Hrow Hr Hj.
  - simpl. destruct (row <=? r); [destruct (Z.to_nat (r - row))|]; reflexivity.
  - cbn [read_rows]. destruct (Z.ltb_spec row 9) as [H9|H9].
    + rewrite (IH (row + 1) _ (read_line_shape _ _ _ _ Hsh) ltac:(lia) Hr Hj).
      rewrite (read_line_cell row _ 0 b r j Hsh ltac:(lia) ltac:(lia) Hr Hj).
      rewrite Z.sub_0_r.
      destruct (Z.eqb_spec r row) as [->|Hne]; cbn [andb].
      * rewrite Z.leb_refl. destruct (Z.leb_spec (row + 1) row); [lia|].
        rewrite (proj2 (Z.leb_le 0 j) (proj1 Hj)). rewrite Z.sub_diag. reflexivity.
      * destruct (Z.leb_spec (row + 1) r); destruct (Z.leb_spec row r); try lia.
        replace (Z.to_nat (r - row)) with (S (Z.to_nat (r - (row + 1)))) by lia. reflexivity.
    + destruct (Z.leb_spec row r); [lia|reflexivity].
Qed.

Lemma readPuzzle_get (ls : list string) (b : board) (r j : Z) :
  shape9 b -> 0 <= r < 9 -> 0 <= j < 9 ->
  get (fst (readPuzzle (Some ls) b)) r j =
  match nth_error ls (Z.to_nat r) with
  | Some l => nth_or (line_cells (list_ascii_of_string l)) (Z.to_nat j) (get b r j)
  | None => get b r j
  end.
Proof.
  intros Hsh Hr Hj. cbn [readPuzzle fst]. rewrite (read_rows_cell ls 0 b r j Hsh ltac:(lia) Hr Hj).
  rewrite Z.sub_0_r. destruct (Z.leb_spec 0 r); [reflexivity|lia].
Qed.

Lemma digit_char_cell (v : Z) : 0 <= v <= 9 -> is_cell (digit_char v) = true /\ cell_value (digit_char v) = v.
Proof.
  intros Hv. unfold is_cell, cell_value, isdigit, digit_char.
  rewrite nat_ascii_embedding by lia.
  destruct (Nat.leb_spec 48 (Z.to_nat v + 48)); [|lia].
  destruct (Nat.leb_spec (Z.to_nat v + 48) 57); [|lia]. cbn [andb orb]. split; [reflexivity|lia].
Qed.

Lemma line_cells_row_text (sep : list ascii) (row : list Z) :
  forallb (fun c => negb (is_cell c)) sep = true -> Forall (fun v => 0 <= v <= 9) row ->
  line_cells (row_text sep row) = row.
Proof.
  intros Hsep. assert (Hf : filter is_cell sep = []).
  { induction sep as [|c t IH]; [reflexivity|]. simpl in Hsep |- *.
    apply andb_prop in Hsep as [H1 H2]. destruct (is_cell c); [discriminate|]. apply IH. exact H2. }
  induction row as [|v t IH]; intros Hrow; [reflexivity|].
  apply Forall_cons_iff in Hrow as [Hv Ht]. destruct (digit_char_cell v Hv) as [Hc Hval].
  destruct t as [|w t'].
  - unfold line_cells. cbn [row_text filter]. rewrite Hc. cbn [map]. rewrite Hval. reflexivity.
  - change (row_text sep (v :: w :: t')) with (digit_char v :: sep ++ row_text sep (w :: t')).
    unfold line_cells in *. cbn [filter]. rewrite Hc. rewrite filter_app, Hf. cbn [app map].
    rewrite Hval, (IH Ht). reflexivity.
Qed.

Lemma grid_ext {A} (dflt : A) (g1 g2 : grid A) :
  shape9 g1 -> shape9 g2 ->
  (forall r c, 0 <= r < 9 -> 0 <= c < 9 -> gget dflt g1 r c = gget dflt g2 r c) -> g1 = g2.
Proof.
  intros [L1 F1] [L2 F2] H. apply nth_ext with (d := []) (d' := []); [congruence|].
  intros n Hn. rewrite L1 in Hn.
  assert (R1 : length (nth n g1 []) = 9%nat) by (rewrite Forall_forall in F1; apply F1, nth_In; lia).
  assert (R2 : length (nth n g2 []) = 9%nat) by (rewrite Forall_forall in F2; apply F2, nth_In; lia).
  apply nth_ext with (d := dflt) (d' := dflt); [congruence|].
  intros m Hm. rewrite R1 in Hm. specialize (H (Z.of_nat n) (Z.of_nat m) ltac:(lia) ltac:(lia)).
  unfold gget in H. rewrite !Nat2Z.id in H. exact H.
Qed.

(** X14: writing each row of a board with digits 0-9 as its digits separated by characters
    that are neither digits nor spaces, and reading the lines back with [readPuzzle],
    gives the board again, whatever 9x9 board it is read into. *)
Lemma readPuzzle_roundtrip (sep : list ascii) (b b0 : board) :
  shape9 b -> shape9 b0 -> (forall p, In p cells81 -> 0 <= getc b p <= 9) ->
  forallb (fun c => negb (is_cell c)) sep = true ->
  fst (readPuzzle (Some (map (row_line sep) b)) b0) = b.
Proof.
  intros Hb Hb0 Hv Hsep.
  apply (grid_ext 0); [apply read_rows_shape; exact Hb0|exact Hb|].
  intros r c Hr Hc. fold (get (fst (readPuzzle (Some (map (row_line sep) b)) b0)) r c).
  rewrite (readPuzzle_get _ b0 r c Hb0 Hr Hc).
  destruct Hb as [L F]. rewrite Forall_forall in F.
  assert (HR : (Z.to_nat r < length b)%nat) by lia.
  pose proof (F _ (nth_In b [] HR)) as Lr.
  rewrite nth_error_map, (nth_error_nth' b []) by lia. cbn [option_map].
  unfold row_line. rewrite list_ascii_of_string_of_list_ascii.
  assert (Hrow : Forall (fun v => 0 <= v <= 9) (nth (Z.to_nat r) b [])).
  { apply Forall_nth. intros k d Hk. rewrite Lr in Hk.
    rewrite nth_indep with (d' := 0) by (rewrite Lr; lia).
    specialize (Hv (Z.of_nat (Z.to_nat r), Z.of_nat k) (in_cells81 (Z.of_nat (Z.to_nat r)) (Z.of_nat k) ltac:(lia) ltac:(lia))).
    unfold getc, get, gget in Hv. cbn [fst snd] in Hv. rewrite !Nat2Z.id in Hv. exact Hv. }
  rewrite (line_cells_row_text sep _ Hsep Hrow). unfold nth_or, gget.
  rewrite (nth_error_nth' _ 0) by (rewrite Lr; lia). reflexivity.
Qed.

Lemma compare_loop_sel (i : Z) (rs : list SolveResult) (a b c : Z * SolveResult) :
  compare_loop i rs a b c = (sel_loop sr_steps i rs a, sel_loop sr_backtracks i rs b, sel_loop sr_runtime i rs c).
Proof.
  revert i a b c. induction rs as [|r t IH]; intros i a b c; simpl; [reflexivity|].
  destruct (solved r); [apply IH|reflexivity].
Qed.

Lemma sel_loop_index (sel : SolveResult -> Z) (i : Z) (rs : list SolveResult) (best : Z * SolveResult) :
  fst (sel_loop sel i rs best) = fst best \/ i + 1 <= fst (sel_loop sel i rs best).
Proof.
  revert i best. induction rs as [|r t IH]; intros i best; simpl; [auto|].
  destruct (solved r); [|auto].
  destruct (sel r <? sel (snd best)).
  - destruct (IH (i + 1) (i + 1, r)) as [E|E]; simpl in E; right; lia.
  - destruct (IH (i + 1) best) as [E|E]; [left; exact E|right; lia].
Qed.

Lemma sel_loop_first (sel : SolveResult -> Z) (rs : list SolveResult) (r0 : SolveResult) :
  fst (sel_loop sel 0 (r0 :: rs) (0, r0)) = 0 \/ 2 <= fst (sel_loop sel 0 (r0 :: rs) (0, r0)).
Proof.
  simpl. destruct (solved r0); [|left; reflexivity].
  rewrite Z.ltb_irrefl. destruct (sel_loop_index sel 1 rs (0, r0)) as [E|E]; [left; exact E|right; lia].
Qed.

Lemma sel_loop_min (sel : SolveResult -> Z) (i : Z) (rs : list SolveResult) (best : Z * SolveResult) :
  sel (snd (sel_loop sel i rs best)) <= sel (snd best) /\
  (forall r, In r (solved_prefix rs) -> sel (snd (sel_loop sel i rs best)) <= sel r) /\
  (snd (sel_loop sel i rs best) = snd best \/ In (snd (sel_loop sel i rs best)) (solved_prefix rs)).
Proof.
  revert i best. induction rs as [|r t IH]; intros i best; simpl; [split; [lia|split; [tauto|auto]]|].
  destruct (solved r); [|simpl; split; [lia|split; [tauto|auto]]].
  destruct (Z.ltb_spec (sel r) (sel (snd best))) as [Lt|Ge].
  - destruct (IH (i + 1) (i + 1, r)) as [H1 [H2 H3]]. cbn [snd] in H1, H3.
    split; [lia|]. split.
    + intros x [<-|Hx]; [exact H1|apply H2; exact Hx].
    + right. destruct H3 as [E|E]; [left; symmetry; exact E|right; exact E].
  - destruct (IH (i + 1) best) as [H1 [H2 H3]].
    split; [exact H1|]. split.
    + intros x [<-|Hx]; [lia|apply H2; exact Hx].
    + destruct H3 as [E|E]; [left; exact E|right; right; exact E].
Qed.

Lemma sel_loop_pair (sel : SolveResult -> Z) (i : Z) (rs : list SolveResult) (best : Z * SolveResult) :
  0 <= i ->
  sel_loop sel i rs best = best \/
  (i + 1 <= fst (sel_loop sel i rs best) /\
   nth_error rs (Z.to_nat (fst (sel_loop sel i rs best) - i - 1)) = Some (snd (sel_loop sel i rs best))).
Proof.
  revert i best. induction rs as [|r t IH]; intros i best Hi; simpl; [auto|].
  destruct (solved r); [|auto].
  destruct (sel r <? sel (snd best)).
  - right. destruct (IH (i + 1) (i + 1, r) ltac:(lia)) as [E|[E1 E2]].
    + rewrite E. simpl. split; [lia|]. replace (i + 1 - i - 1) with 0 by lia. reflexivity.
    + split; [lia|]. replace (Z.to_nat (fst (sel_loop sel (i + 1) t (i + 1, r)) - i - 1))
        with (S (Z.to_nat (fst (sel_loop sel (i + 1) t (i + 1, r)) - (i + 1) - 1))) by lia.
      exact E2.
  - destruct (IH (i + 1) best ltac:(lia)) as [E|[E1 E2]]; [left; exact E|right].
    split; [lia|]. replace (Z.to_nat (fst (sel_loop sel (i + 1) t best) - i - 1))
      with (S (Z.to_nat (fst (sel_loop sel (i + 1) t best) - (i + 1) - 1))) by lia.
    exact E2.
Qed.

Lemma sel_loop_top (sel : SolveResult -> Z) (rs : list SolveResult) (r0 : SolveResult) :
  (fst (sel_loop sel 0 (r0 :: rs) (0, r0)) = 0 /\ snd (sel_loop sel 0 (r0 :: rs) (0, r0)) = r0) \/
  (2 <= fst (sel_loop sel 0 (r0 :: rs) (0, r0)) /\
   nth_error (r0 :: rs) (Z.to_nat (fst (sel_loop sel 0 (r0 :: rs) (0, r0)) - 1)) = Some (snd (sel_loop sel 0 (r0 :: rs) (0, r0)))).
Proof.
  simpl. destruct (solved r0); [|left; auto].
  rewrite Z.ltb_irrefl.
  destruct (sel_loop_pair sel 1 rs (0, r0) ltac:(lia)) as [E|[E1 E2]].
  - left. rewrite E. auto.
  - right. split; [lia|].
    replace (Z.to_nat (fst (sel_loop sel 1 rs (0, r0)) - 1))
      with (S (Z.to_nat (fst (sel_loop sel 1 rs (0, r0)) - 1 - 1))) by lia. exact E2.
Qed.

(** X15: each solver number the comparison summary prints is 0 or at least 2, never 1; the
    result it names is results[0] when it prints 0 and results[k-1] when it prints k. *)
Theorem comparison_summary_names (rs : list SolveResult) (ls lb lf : Z * SolveResult) :
  comparison_summary rs = Some (ls, lb, lf) ->
  forall p, In p [ls; lb; lf] ->
  (fst p = 0 /\ hd_error rs = Some (snd p)) \/
  (2 <= fst p /\ nth_error rs (Z.to_nat (fst p - 1)) = Some (snd p)).
Proof.
  destruct rs as [|r0 t]; [discriminate|]. unfold comparison_summary.
  rewrite compare_loop_sel.
  pose proof (sel_loop_top sr_steps t r0) as T1.
  pose proof (sel_loop_top sr_backtracks t r0) as T2.
  pose proof (sel_loop_top sr_runtime t r0) as T3.
  remember (sel_loop sr_steps 0 (r0 :: t) (0, r0)) as A.
  remember (sel_loop sr_backtracks 0 (r0 :: t) (0, r0)) as B.
  remember (sel_loop sr_runtime 0 (r0 :: t) (0, r0)) as C.
  intros E. injection E as E1 E2 E3. subst ls lb lf.
  intros p Hp. cbn [In] in Hp. cbn [hd_error].
  destruct Hp as [<-|[<-|[<-|[]]]];
    [destruct T1 as [[X Y]|X]|destruct T2 as [[X Y]|X]|destruct T3 as [[X Y]|X]];
    solve [left; split; [exact X|rewrite Y; reflexivity] | right; exact X].
Qed.

(** X16: the steps, backtracks and runtime the comparison summary prints are at most those
    of results[0] and of every solved result before the first unsolved one. *)
Theorem comparison_summary_least (rs : list SolveResult) (ls lb lf : Z * SolveResult) :
  comparison_summary rs = Some (ls, lb, lf) ->
  forall r, In r (solved_prefix rs) \/ hd_error rs = Some r ->
  sr_steps (snd ls) <= sr_steps r /\ sr_backtracks (snd lb) <= sr_backtracks r /\
  sr_runtime (snd lf) <= sr_runtime r.
Proof.
  destruct rs as [|r0 t]; [discriminate|]. unfold comparison_summary.
  rewrite compare_loop_sel. intros E r Hr.
  assert (G : forall sel, sel (snd (sel_loop sel 0 (r0 :: t) (0, r0))) <= sel r).
  { intros sel. destruct (sel_loop_min sel 0 (r0 :: t) (0, r0)) as [H1 [H2 _]].
    destruct Hr as [Hr|Hr]; [apply H2; exact Hr|]. injection Hr as <-. exact H1. }
  pose proof (G sr_steps) as G1. pose proof (G sr_backtracks) as G2. pose proof (G sr_runtime) as G3.
  remember (sel_loop sr_steps 0 (r0 :: t) (0, r0)) as A.
  remember (sel_loop sr_backtracks 0 (r0 :: t) (0, r0)) as B.
  remember (sel_loop sr_runtime 0 (r0 :: t) (0, r0)) as C.
  injection E as E1 E2 E3. subst ls lb lf. auto.
Qed.

Lemma string_of_Z_digit (v : Z) : 0 <= v <= 9 -> string_of_Z v = String (digit_char v) EmptyString.
Proof.
  intros Hv.
  assert (v = 0 \/ v = 1 \/ v = 2 \/ v = 3 \/ v = 4 \/ v = 5 \/ v = 6 \/ v = 7 \/ v = 8 \/ v = 9) as Hc by lia.
  repeat destruct Hc as [->|Hc]; try reflexivity. subst v. reflexivity.
Qed.

Lemma printBoard_digits (b : board) :
  (forall p, In p cells81 -> 0 <= getc b p <= 9) -> printBoard b = print_digits b.
Proof.
  intros Hd. unfold printBoard, print_digits.
  apply (f_equal (String.concat EmptyString)). apply map_ext_in. intros i Hi.
  apply (f_equal (String.append _)). apply (f_equal (fun s => String.append s newline)).
  apply (f_equal (String.concat EmptyString)). apply map_ext_in. intros j Hj.
  apply In_rng in Hi; [|lia]. apply In_rng in Hj; [|lia].
  rewrite string_of_Z_digit; [reflexivity|].
  apply (Hd (i, j)). apply in_cells81; lia.
Qed.

Lemma In_range9 (i : Z) : 0 <= i < 9 ->
  i = 0 \/ i = 1 \/ i = 2 \/ i = 3 \/ i = 4 \/ i = 5 \/ i = 6 \/ i = 7 \/ i = 8.
Proof. lia. Qed.

(** X17: for a board of digits 0-9, [printBoard] writes 242 characters (11 lines of 22
    with their newlines); the digit of cell (i, j) is character 22(i + i/3) + 2(j + j/3),
    and the 22 characters at offsets 66 and 154 are the separator line of dashes and its
    newline. *)
Theorem printBoard_layout (b : board) :
  (forall p, In p cells81 -> 0 <= getc b p <= 9) ->
  String.length (printBoard b) = 242%nat /\
  (forall i j, 0 <= i < 9 -> 0 <= j < 9 ->
     String.get (Z.to_nat (22 * (i + i / 3) + 2 * (j + j / 3))) (printBoard b) = Some (digit_char (get b i j))) /\
  substring 66 22 (printBoard b) = String.append "- - - - - - - - - - -" newline /\
  substring 154 22 (printBoard b) = String.append "- - - - - - - - - - -" newline.
Proof.
  intros Hd. rewrite (printBoard_digits b Hd).
  split; [vm_compute; reflexivity|].
  split; [|split; vm_compute; reflexivity].
  intros i j Hi Hj.
  destruct (In_range9 i Hi) as [->|[->|[->|[->|[->|[->|[->|[->| -> ]]]]]]]];
  destruct (In_range9 j Hj) as [->|[->|[->|[->|[->|[->|[->|[->| -> ]]]]]]]];
  vm_compute; reflexivity.
Qed.

(** X3: for a menu choice outside the twelve handled ones, [solve] runs no search: the
    result is unsolved with zero steps and backtracks, the only possible event is the AC-3
    preprocessing, and without preprocessing the board is returned as entered. *)
Theorem solve_invalid_choice (method emptyFinder valueOrder useAC3 runtime : Z) (fuel : nat) (b : board) :
  ~ ((method = 1 \/ method = 2 \/ method = 3) /\ (emptyFinder = 1 \/ emptyFinder = 2) /\
     (valueOrder = 1 \/ valueOrder = 2)) ->
  exists r ev, solve method emptyFinder valueOrder useAC3 runtime fuel b = Some (r, ev) /\
    solved r = false /\ sr_steps r = 0 /\ sr_backtracks r = 0 /\
    (ev = [] \/ ev = [EvAC3Preprocessing]) /\
    (((useAC3 =? 1) || (method =? 3)) = false -> sr_board r = b /\ ev = []).
Proof.
  intros Hbad. unfold solve.
  destruct (method =? 1) eqn:M1, (method =? 2) eqn:M2, (method =? 3) eqn:M3,
    (emptyFinder =? 1) eqn:E1, (emptyFinder =? 2) eqn:E2, (valueOrder =? 1) eqn:V1,
    (valueOrder =? 2) eqn:V2;
  cbn [andb];
  try (apply Z.eqb_eq in M1); try (apply Z.eqb_eq in M2); try (apply Z.eqb_eq in M3);
  try (apply Z.eqb_eq in E1); try (apply Z.eqb_eq in E2); try (apply Z.eqb_eq in V1);
  try (apply Z.eqb_eq in V2);
  try (exfalso; apply Hbad; lia);
  destruct (useAC3 =? 1); cbn [orb];
  try (destruct (ac3 (initDomains b)) as [[|] d]);
  (eexists; eexists; split; [reflexivity|]);
  (split; [reflexivity|]); (split; [reflexivity|]); (split; [reflexivity|]);
  (split; [auto|]); intros U; try discriminate U; auto.
Qed.

(** ** Summary properties *)

(* ---- lemma part ---- *)
Lemma peer_cellb_true (p q : cell) : peer_cell p q -> peer_cellb p q = true.
Proof.
  destruct p as [pr pc], q as [qr qc]. unfold peer_cell, peer_cellb. cbn [fst snd].
  intros [Hr [Hc [Hne Hp]]].
  assert (Hd : (pr =? qr) && (pc =? qc) = false).
  { destruct (Z.eqb_spec pr qr), (Z.eqb_spec pc qc); try reflexivity. subst. congruence. }
  rewrite Hd. destruct Hp as [E|[E|[E1 E2]]].
  - rewrite E, Z.eqb_refl. repeat (apply andb_true_iff; split); try (apply Z.leb_le || apply Z.ltb_lt); try lia; reflexivity.
  - rewrite E, Z.eqb_refl, orb_true_r. simpl. repeat (apply andb_true_iff; split); try (apply Z.leb_le || apply Z.ltb_lt); try lia; reflexivity.
  - rewrite E1, E2, !Z.eqb_refl, !orb_true_r. simpl. repeat (apply andb_true_iff; split); try (apply Z.leb_le || apply Z.ltb_lt); try lia; reflexivity.
Qed.

Lemma consistentb_ok (b : board) : consistentb b = true -> consistent b.
Proof.
  unfold consistentb. rewrite forallb_forall. intros H p q Hp Hpq Hnz.
  pose proof (in_cells81_peer p q Hpq) as Hq.
  specialize (H p Hp). rewrite forallb_forall in H. specialize (H q Hq).
  rewrite (peer_cellb_true p q Hpq) in H. apply Z.eqb_neq in Hnz. rewrite Hnz in H.
  cbn [negb orb] in H. apply negb_true_iff, Z.eqb_neq in H. exact H.
Qed.

Lemma shape9b_ok {A} (g : grid A) : shape9b g = true -> shape9 g.
Proof.
  unfold shape9b, shape9. intros H. apply andb_true_iff in H as [H1 H2].
  split; [apply Nat.eqb_eq; exact H1|]. apply Forall_forall. intros row Hr.
  rewrite forallb_forall in H2. apply Nat.eqb_eq. apply H2. exact Hr.
Qed.

Lemma solution_ofb_ok (b s : board) : solution_ofb b s = true -> solution_of b s.
Proof.
  unfold solution_ofb. intros H. apply andb_true_iff in H as [H1 H2].
  rewrite forallb_forall in H1. split; [|split; [apply consistentb_ok; exact H2|]].
  - intros p Hp. specialize (H1 p Hp). apply andb_true_iff in H1 as [H1 _].
    apply andb_true_iff in H1 as [A B]. apply Z.leb_le in A. apply Z.leb_le in B. lia.
  - intros p Hp Hnz. specialize (H1 p Hp). apply andb_true_iff in H1 as [_ H1].
    apply Z.eqb_neq in Hnz. rewrite Hnz in H1. apply Z.eqb_eq. exact H1.
Qed.

Lemma digitsb_ok (b : board) : digitsb b = true -> forall p, In p cells81 -> 0 <= getc b p <= 9.
Proof.
  unfold digitsb. rewrite forallb_forall. intros H p Hp. specialize (H p Hp).
  apply andb_true_iff in H as [A B]. apply Z.leb_le in A. apply Z.leb_le in B. lia.
Qed.

Lemma consistent_of_fill (b : board) (d : doms) :
  shape9 b -> consistent (fillSingles b d) -> consistent b.
Proof.
  intros Hsh Hc p q Hp Hpq Hnz. pose proof (in_cells81_peer p q Hpq) as Hq.
  pose proof (fillSingles_cell b d p Hsh Hp) as Fp. pose proof (fillSingles_cell b d q Hsh Hq) as Fq.
  destruct (Z.eqb_spec (getc b p) 0) as [E|_]; [contradiction|].
  destruct (Z.eqb_spec (getc b q) 0) as [Eq|_]; [rewrite Eq; exact Hnz|].
  rewrite <- Fp, <- Fq. apply Hc; [exact Hp|exact Hpq|]. rewrite Fp. exact Hnz.
Qed.

Lemma solve_solves_witness :
  (1 = 1 \/ 1 = 2 \/ 1 = 3) /\ (2 = 1 \/ 2 = 2) /\ (1 = 1 \/ 1 = 2) /\
  shape9 sample_board /\ solution_of sample_board sample_solution /\ (81 < 82)%nat /\
  exists r, solve 1 2 1 1 0 82 sample_board =
            Some (r, (if (1 =? 1) || (1 =? 3) then [EvAC3Preprocessing] else []) ++ [EvSearch 1]) /\
            solved r = true /\ solves_from sample_board (sr_board r).
Proof.
  split; [lia|]. split; [lia|]. split; [lia|].
  split; [apply shape9b_ok; vm_compute; reflexivity|].
  split; [apply solution_ofb_ok; vm_compute; reflexivity|]. split; [lia|].
  apply (solve_solves 1 2 1 1 0 82 sample_board sample_solution);
    [lia | lia | lia | apply shape9b_ok; vm_compute; reflexivity
    | apply solution_ofb_ok; vm_compute; reflexivity | lia].
Defined.

Lemma solve_sound_witness :
  let r := {| sr_board := sample_solution; solved := true; sr_steps := 9; sr_backtracks := 0; sr_runtime := 0 |} in
  shape9 sample_board /\ (((2 =? 1) || (1 =? 3)) = true \/ consistent sample_board) /\
  solve 1 1 1 2 0 82 sample_board = Some (r, [EvSearch 1]) /\ solved r = true /\
  solves_from sample_board (sr_board r).
Proof.
  intros r. split; [apply shape9b_ok; vm_compute; reflexivity|].
  split; [right; apply consistentb_ok; vm_compute; reflexivity|].
  split; [vm_compute; reflexivity|]. split; [reflexivity|].
  apply (solve_sound 1 1 1 2 0 82 sample_board r [EvSearch 1]);
    [apply shape9b_ok; vm_compute; reflexivity | right; apply consistentb_ok; vm_compute; reflexivity
    | vm_compute; reflexivity | reflexivity].
Defined.

Lemma solve_invalid_choice_witness :
  ~ ((4 = 1 \/ 4 = 2 \/ 4 = 3) /\ (1 = 1 \/ 1 = 2) /\ (1 = 1 \/ 1 = 2)) /\
  exists r ev, solve 4 1 1 2 0 82 sample_board = Some (r, ev) /\
    solved r = false /\ sr_steps r = 0 /\ sr_backtracks r = 0 /\
    (ev = [] \/ ev = [EvAC3Preprocessing]) /\
    (((2 =? 1) || (4 =? 3)) = false -> sr_board r = sample_board /\ ev = []).
Proof.
  split; [lia|]. apply (solve_invalid_choice 4 1 1 2 0 82 sample_board). lia.
Defined.

(** X4: if the board has a solution, AC-3 on the initial domains succeeds and every cell's
    domain still contains the solution's value. *)
Theorem ac3_keeps_solution_values (b s : board) :
  solution_of b s -> fst (ac3 (initDomains b)) = true /\ holds s (snd (ac3 (initDomains b))).
Proof. exact (ac3_keeps_solution b s). Qed.

Lemma ac3_keeps_solution_values_witness :
  solution_of sample_board sample_solution /\
  fst (ac3 (initDomains sample_board)) = true /\ holds sample_solution (snd (ac3 (initDomains sample_board))).
Proof.
  split; [apply solution_ofb_ok; vm_compute; reflexivity|].
  apply ac3_keeps_solution_values. apply solution_ofb_ok; vm_compute; reflexivity.
Defined.

(** X5: AC-3 preprocessing (initDomains, ac3, then fillSingles) keeps every solution of a
    solvable 9x9 board: AC-3 succeeds and the solution is still a solution of the filled
    board. *)
Theorem ac3_preprocessing_keeps_solution (b s : board) :
  shape9 b -> solution_of b s ->
  fst (ac3 (initDomains b)) = true /\ solution_of (fillSingles b (snd (ac3 (initDomains b)))) s.
Proof.
  intros Hsh Hsol. destruct (ac3_keeps_solution b s Hsol) as [H1 H2].
  split; [exact H1|]. exact (fillSingles_solution b s _ Hsh Hsol H2).
Qed.

Lemma ac3_preprocessing_keeps_solution_witness :
  shape9 sample_board /\ solution_of sample_board sample_solution /\
  fst (ac3 (initDomains sample_board)) = true /\
  solution_of (fillSingles sample_board (snd (ac3 (initDomains sample_board)))) sample_solution.
Proof.
  split; [apply shape9b_ok; vm_compute; reflexivity|].
  split; [apply solution_ofb_ok; vm_compute; reflexivity|].
  apply ac3_preprocessing_keeps_solution;
    [apply shape9b_ok; vm_compute; reflexivity | apply solution_ofb_ok; vm_compute; reflexivity].
Defined.

(** X6: when AC-3 on the initial domains of a 9x9 board succeeds, the entered board is
    consistent (no two peers share a value) and so is the board after fillSingles. *)
Theorem ac3_success_consistent (b : board) :
  shape9 b -> fst (ac3 (initDomains b)) = true ->
  consistent b /\ consistent (fillSingles b (snd (ac3 (initDomains b)))).
Proof.
  intros Hsh Hac. pose proof (mac_inv_consistent _ _ (mac_inv_init b Hsh Hac)) as Hc.
  split; [exact (consistent_of_fill b _ Hsh Hc)|exact Hc].
Qed.

Lemma ac3_success_consistent_witness :
  shape9 sample_board /\ fst (ac3 (initDomains sample_board)) = true /\
  consistent sample_board /\ consistent (fillSingles sample_board (snd (ac3 (initDomains sample_board)))).
Proof.
  split; [apply shape9b_ok; vm_compute; reflexivity|]. split; [vm_compute; reflexivity|].
  apply ac3_success_consistent; [apply shape9b_ok; vm_compute; reflexivity | vm_compute; reflexivity].
Defined.

(** X7: after [fillSingles] a filled cell keeps its value, and an empty cell gets the
    value of a one-element domain and stays empty otherwise. *)
Theorem fillSingles_cells (b : board) (d : doms) (p : cell) :
  shape9 b -> In p cells81 ->
  getc (fillSingles b d) p =
  if getc b p =? 0 then match dgetc d p with [v] => v | _ => 0 end else getc b p.
Proof. exact (fillSingles_cell b d p). Qed.

Lemma fillSingles_cells_witness :
  shape9 sample_board /\ In (0, 0) cells81 /\
  getc (fillSingles sample_board (initDomains sample_board)) (0, 0) =
  if getc sample_board (0, 0) =? 0 then match dgetc (initDomains sample_board) (0, 0) with [v] => v | _ => 0 end
  else getc sample_board (0, 0).
Proof.
  split; [apply shape9b_ok; vm_compute; reflexivity|]. split; [vm_compute; tauto|].
  apply fillSingles_cells; [apply shape9b_ok; vm_compute; reflexivity | vm_compute; tauto].
Defined.

(** X8: on an empty cell, [findValidLCV] returns a reordering of exactly the values
    [findValid] returns. *)
Theorem findValidLCV_permutes (b : board) (row col : Z) :
  get b row col = 0 -> Permutation (fst (findValidLCV b row col)) (findValid b row col).
Proof. exact (findValidLCV_perm b row col). Qed.

Lemma findValidLCV_permutes_witness :
  get sample_board 0 0 = 0 /\ Permutation (fst (findValidLCV sample_board 0 0)) (findValid sample_board 0 0).
Proof. split; [reflexivity|]. apply findValidLCV_permutes. reflexivity. Defined.

(** X9: [findValidLCVMAC] returns a reordering of exactly the values of the cell's domain. *)
Theorem findValidLCVMAC_permutes (d : doms) (row col : Z) :
  Permutation (findValidLCVMAC d row col) (dget d row col).
Proof. exact (findValidLCVMAC_perm d row col). Qed.

(** X10: [hasFuture] holds for every board that has a solution, so forward checking never
    cuts a branch that can still be completed. *)
Theorem hasFuture_of_solution (b s : board) : solution_of b s -> hasFuture b = true.
Proof. exact (solution_hasFuture b s). Qed.

Lemma hasFuture_of_solution_witness :
  solution_of sample_board sample_solution /\ hasFuture sample_board = true.
Proof.
  split; [apply solution_ofb_ok; vm_compute; reflexivity|].
  apply (hasFuture_of_solution sample_board sample_solution). apply solution_ofb_ok; vm_compute; reflexivity.
Defined.

(** X11: writing into an empty cell a value that [isValid] accepts keeps a consistent
    board consistent. *)
Theorem place_keeps_consistent (b : board) (X : cell) (v : Z) :
  In X cells81 -> getc b X = 0 -> isValid b (fst X) (snd X) v = true -> consistent b ->
  consistent (gset b (fst X) (snd X) v).
Proof. exact (consistent_place b X v). Qed.

Lemma place_keeps_consistent_witness :
  In (0, 0) cells81 /\ getc sample_board (0, 0) = 0 /\ isValid sample_board 0 0 1 = true /\
  consistent sample_board /\ consistent (gset sample_board 0 0 1).
Proof.
  split; [vm_compute; tauto|]. split; [reflexivity|]. split; [vm_compute; reflexivity|].
  split; [apply consistentb_ok; vm_compute; reflexivity|].
  apply (place_keeps_consistent sample_board (0, 0) 1);
    [vm_compute; tauto | reflexivity | vm_compute; reflexivity | apply consistentb_ok; vm_compute; reflexivity].
Defined.

(** X12: with any of the four board finder pairs, [pruning] and [forwardChecking] on a 9x9
    board always return once the fuel (the allowed depth of nested calls) exceeds the
    number of empty cells: the recursion never nests deeper than that. *)
Theorem search_depth_bound (ne : board -> cell) (vf : board -> Z -> Z -> list Z * board)
  (fuel : nat) (b : board) (steps backtracks : Z) :
  In (ne, vf) board_finders -> shape9 b -> (zeros b < fuel)%nat ->
  pruning ne vf fuel b steps backtracks <> None /\ forwardChecking ne vf fuel b steps backtracks <> None.
Proof.
  intros Hin Hsh Hz.
  destruct Hin as [E|[E|[E|[E|[]]]]]; injection E as <- <-;
    (split; [apply (pruning_total _ _) | apply (forwardChecking_total _ _)]);
    solve [finder_facts | exact Hsh | exact Hz].
Qed.

Lemma search_depth_bound_witness :
  In (findEmptyMRV, findValidLCV) board_finders /\ shape9 sample_board /\ (zeros sample_board < 10)%nat /\
  pruning findEmptyMRV findValidLCV 10 sample_board 0 0 <> None /\
  forwardChecking findEmptyMRV findValidLCV 10 sample_board 0 0 <> None.
Proof.
  split; [simpl; tauto|]. split; [apply shape9b_ok; vm_compute; reflexivity|].
  split; [apply Nat.ltb_lt; vm_compute; reflexivity|].
  apply (search_depth_bound findEmptyMRV findValidLCV 10 sample_board 0 0);
    [simpl; tauto | apply shape9b_ok; vm_compute; reflexivity | apply Nat.ltb_lt; vm_compute; reflexivity].
Defined.

(** X13: after [readPuzzle] reads a file, cell (r, j) holds the j-th digit-or-space of
    line r (a space read as 0, commas and other characters skipped), or keeps its previous
    value when line r or that position is missing. *)
Theorem readPuzzle_cells (ls : list string) (b : board) (r j : Z) :
  shape9 b -> 0 <= r < 9 -> 0 <= j < 9 ->
  get (fst (readPuzzle (Some ls) b)) r j =
  match nth_error ls (Z.to_nat r) with
  | Some l => nth_or (line_cells (list_ascii_of_string l)) (Z.to_nat j) (get b r j)
  | None => get b r j
  end.
Proof. exact (readPuzzle_get ls b r j). Qed.

Lemma readPuzzle_cells_witness :
  shape9 empty_board /\ 0 <= 0 < 9 /\ 0 <= 2 < 9 /\
  get (fst (readPuzzle (Some ["1,2,3"%string]) empty_board)) 0 2 =
  match nth_error ["1,2,3"%string] (Z.to_nat 0) with
  | Some l => nth_or (line_cells (list_ascii_of_string l)) (Z.to_nat 2) (get empty_board 0 2)
  | None => get empty_board 0 2
  end.
Proof.
  split; [apply shape9b_ok; vm_compute; reflexivity|]. split; [lia|]. split; [lia|].
  apply (readPuzzle_cells ["1,2,3"%string] empty_board 0 2);
    [apply shape9b_ok; vm_compute; reflexivity | lia | lia].
Defined.

Lemma readPuzzle_roundtrip_witness :
  shape9 sample_board /\ shape9 empty_board /\ (forall p, In p cells81 -> 0 <= getc sample_board p <= 9) /\
  forallb (fun c => negb (is_cell c)) [","%char] = true /\
  fst (readPuzzle (Some (map (row_line [","%char]) sample_board)) empty_board) = sample_board.
Proof.
  split; [apply shape9b_ok; vm_compute; reflexivity|].
  split; [apply shape9b_ok; vm_compute; reflexivity|].
  split; [apply digitsb_ok; vm_compute; reflexivity|]. split; [vm_compute; reflexivity|].
  apply readPuzzle_roundtrip;
    [apply shape9b_ok; vm_compute; reflexivity | apply shape9b_ok; vm_compute; reflexivity
    | apply digitsb_ok; vm_compute; reflexivity | vm_compute; reflexivity].
Defined.

Lemma comparison_summary_names_witness :
  let s1 := {| sr_board := sample_solution; solved := true; sr_steps := 9; sr_backtracks := 2; sr_runtime := 4 |} in
  let s2 := {| sr_board := sample_solution; solved := true; sr_steps := 7; sr_backtracks := 2; sr_runtime := 5 |} in
  comparison_summary sample_results = Some ((2, s2), (0, s1), (0, s1)) /\
  forall p, In p [(2, s2); (0, s1); (0, s1)] ->
  (fst p = 0 /\ hd_error sample_results = Some (snd p)) \/
  (2 <= fst p /\ nth_error sample_results (Z.to_nat (fst p - 1)) = Some (snd p)).
Proof.
  intros s1 s2. split; [vm_compute; reflexivity|].
  apply (comparison_summary_names sample_results (2, s2) (0, s1) (0, s1)). vm_compute; reflexivity.
Defined.

Lemma comparison_summary_least_witness :
  let s1 := {| sr_board := sample_solution; solved := true; sr_steps := 9; sr_backtracks := 2; sr_runtime := 4 |} in
  let s2 := {| sr_board := sample_solution; solved := true; sr_steps := 7; sr_backtracks := 2; sr_runtime := 5 |} in
  comparison_summary sample_results = Some ((2, s2), (0, s1), (0, s1)) /\
  forall r, In r (solved_prefix sample_results) \/ hd_error sample_results = Some r ->
  sr_steps (snd (2, s2)) <= sr_steps r /\ sr_backtracks (snd (0, s1)) <= sr_backtracks r /\
  sr_runtime (snd (0, s1)) <= sr_runtime r.
Proof.
  intros s1 s2. split; [vm_compute; reflexivity|].
  apply (comparison_summary_least sample_results (2, s2) (0, s1) (0, s1)). vm_compute; reflexivity.
Defined.

Lemma printBoard_layout_witness :
  (forall p, In p cells81 -> 0 <= getc sample_board p <= 9) /\
  String.length (printBoard sample_board) = 242%nat /\
  (forall i j, 0 <= i < 9 -> 0 <= j < 9 ->
     String.get (Z.to_nat (22 * (i + i / 3) + 2 * (j + j / 3))) (printBoard sample_board) =
     Some (digit_char (get sample_board i j))) /\
  substring 66 22 (printBoard sample_board) = String.append "- - - - - - - - - - -" newline /\
  substring 154 22 (printBoard sample_board) = String.append "- - - - - - - - - - -" newline.
Proof.
  split; [apply digitsb_ok; vm_compute; reflexivity|].
  apply printBoard_layout. apply digitsb_ok; vm_compute; reflexivity.
Defined.
